(** * SoMaJo tokenizer (somajo/tokenizer.py): a shallow embedding

    The tokenizer masks spans of the paragraph with random placeholder
    strings, remembers in [self.mapping] which token each placeholder
    stands for, splits the masked text on whitespace and restores the
    tokens.  The development follows the source top-down:

    - Python strings are lists of code points ([text]);
    - the patterns built with the [regex] library are values of an
      abstract syntax ([regex]) run by a backtracking matcher ([exec]),
      so that [finditer], [sub] and [fullmatch] can be evaluated;
    - [self.mapping] and the local [replacements] dictionaries are
      [gmap]s, the local [spans] sets are [gset]s;
    - [random.choice] reads an arbitrary sequence of draws, and the
      [while] loop of [_get_unique_string] runs on fuel. *)

From Stdlib Require Import NArith String Ascii List Classical.
From stdpp Require Import gmap list sorting.

(** ** Strings *)

(** A Python [str] is a sequence of code points. *)
Abbreviation char := N (only parsing).
Abbreviation text := (list N) (only parsing).

(** Text of an ASCII literal. *)
Definition str (s : string) : text :=
  map N_of_ascii (list_ascii_of_string s).
Arguments str : simpl never.

(** [str.isspace] of a single character: the code points whose
    bidirectional class is WS, B or S or whose category is Zs. *)
Definition isspace (c : char) : bool :=
  (((9 <=? c) && (c <=? 13)) || ((28 <=? c) && (c <=? 32))
  || (c =? 133) || (c =? 160) || (c =? 5760)
  || ((8192 <=? c) && (c <=? 8202))
  || (c =? 8232) || (c =? 8233) || (c =? 8239) || (c =? 8287)
  || (c =? 12288))%N.

(** [text.startswith(prefix)]. *)
Fixpoint startswith (p s : text) : bool :=
  match p, s with
  | [], _ => true
  | a :: p', b :: s' => (a =? b)%N && startswith p' s'
  | _ :: _, [] => false
  end.

(** [u in s] for strings: [u] occurs in [s] as a contiguous substring. *)
Fixpoint contains (s u : text) : bool :=
  startswith u s ||
  match s with
  | [] => false
  | _ :: s' => contains s' u
  end.

(** [s[b:e]] for offsets [0 <= b], [0 <= e]. *)
Definition slice (s : text) (b e : nat) : text := take (e - b) (drop b s).

(** [s.lstrip(chars)], [s.rstrip(chars)] and [s.strip(chars)] with the
    set of stripped characters given as a predicate. *)
Fixpoint lstrip_by (f : char -> bool) (s : text) : text :=
  match s with
  | c :: s' => if f c then lstrip_by f s' else s
  | [] => []
  end.

Definition rstrip_by (f : char -> bool) (s : text) : text :=
  rev (lstrip_by f (rev s)).

Definition strip_by (f : char -> bool) (s : text) : text :=
  rstrip_by f (lstrip_by f s).

(** [s.strip()]. *)
Definition strip (s : text) : text := strip_by isspace s.

(** [s.strip(".")]. *)
Definition strip_chars (chars s : text) : text :=
  strip_by (fun c => bool_decide (c ∈ chars)) s.

(** [s.split()]: the maximal runs of non-whitespace characters, from
    left to right.  [word] is the run read so far, reversed. *)
Fixpoint split_ws (word : text) (s : text) : list text :=
  match s with
  | [] => match word with [] => [] | _ => [rev word] end
  | c :: s' =>
      if isspace c
      then match word with
           | [] => split_ws [] s'
           | _ => rev word :: split_ws [] s'
           end
      else split_ws (c :: word) s'
  end.

Definition split (s : text) : list text := split_ws [] s.

(** [s.split(sep)] for a one-character separator: the pieces between
    the separators, empty pieces included. *)
Fixpoint split_on_aux (sep : char) (piece : text) (s : text) : list text :=
  match s with
  | [] => [rev piece]
  | c :: s' =>
      if (c =? sep)%N then rev piece :: split_on_aux sep [] s'
      else split_on_aux sep (c :: piece) s'
  end.

Definition split_on (sep : char) (s : text) : list text :=
  split_on_aux sep [] s.

(** [sep.join(pieces)]. *)
Fixpoint join (sep : text) (pieces : list text) : text :=
  match pieces with
  | [] => []
  | [p] => p
  | p :: ps => p ++ sep ++ join sep ps
  end.

(** ** Regular expressions of the [regex] library *)

(** The Unicode properties the patterns refer to.  The tables belong to
    the [regex] library, so the model takes them as a parameter:
    [[[:alpha:]]], [[[:lower:]]], [[[:upper:]]], [\d], [\w] and the
    simple case mappings used by IGNORECASE. *)
Record unicode := Unicode {
  is_alpha : char -> bool;
  is_lower : char -> bool;
  is_upper : char -> bool;
  is_digit : char -> bool;
  is_word : char -> bool;
  to_lower : char -> char;
  to_upper : char -> char
}.

(** [\s]: the code points with the White_Space property. *)
Definition re_space (c : char) : bool :=
  (((9 <=? c) && (c <=? 13)) || (c =? 32)
  || (c =? 133) || (c =? 160) || (c =? 5760)
  || ((8192 <=? c) && (c <=? 8202))
  || (c =? 8232) || (c =? 8233) || (c =? 8239) || (c =? 8287)
  || (c =? 12288))%N.

(** Members of a character set [[...]]. *)
Inductive citem :=
| Ch (c : char)
| Range (lo hi : char)
| Alpha | Lower | Upper | Alnum | Digit | Space | Word.

(** Abstract syntax of the patterns.  [Repeat r lo hi lazy] covers [*],
    [+], [?] and [{lo,hi}]; groups carry their number and, for
    [(?P<name>...)], their name. *)
Inductive regex :=
| Empty
| Lit (c : char)
| Any
| Set_ (negated : bool) (items : list citem)
| Cat (r1 r2 : regex)
| Or (r1 r2 : regex)
| Repeat (r : regex) (lo : nat) (hi : option nat) (lazy : bool)
| Group (idx : nat) (name : option string) (r : regex)
| Backref (idx : nat)
| Look (behind negated : bool) (r : regex)
| Bos
| Eos
| Boundary.

(** A compiled pattern: its syntax and the IGNORECASE flag. *)
Record pattern := Pattern { re : regex; ignorecase : bool }.

(** The matcher's position in the subject: the characters before the
    position (nearest first), those after it, the offset, and the spans
    captured so far (most recent first). *)
Record mstate := MState {
  before : text;
  after : text;
  pos : nat;
  groups : list (nat * (nat * nat))
}.

Definition advance (st : mstate) : mstate :=
  match after st with
  | c :: a => MState (c :: before st) a (S (pos st)) (groups st)
  | [] => st
  end.

Definition rewind (st : mstate) : mstate :=
  match before st with
  | c :: b => MState b (c :: after st) (Nat.pred (pos st)) (groups st)
  | [] => st
  end.

(** [st], [st] moved back by one character, by two, ... down to the
    start of the subject. *)
Fixpoint rewinds (n : nat) (st : mstate) : list mstate :=
  match n with
  | O => [st]
  | S n' => st :: rewinds n' (rewind st)
  end.

Definition subject (st : mstate) : text := reverse (before st) ++ after st.

Definition set_group (i : nat) (b e : nat) (st : mstate) : mstate :=
  MState (before st) (after st) (pos st) ((i, (b, e)) :: groups st).

Fixpoint assoc {A} (i : nat) (l : list (nat * A)) : option A :=
  match l with
  | [] => None
  | (j, a) :: l' => if Nat.eqb i j then Some a else assoc i l'
  end.

(** Repetition of [step]: [lo] mandatory rounds, then optional rounds
    up to [hi], greedy unless [lazy].  An optional round that consumes
    nothing is not repeated. *)
Fixpoint iter (step : (mstate -> option mstate) -> mstate -> option mstate)
    (lo : nat) (hi : option nat) (lazy : bool) (fuel : nat)
    (k : mstate -> option mstate) (st : mstate) {struct fuel} : option mstate :=
  match fuel with
  | O => None
  | S fuel' =>
      match lo with
      | S lo' => step (iter step lo' (Nat.pred <$> hi) lazy fuel' k) st
      | O =>
          match hi with
          | Some O => k st
          | _ =>
              if lazy then
                match k st with
                | Some r => Some r
                | None =>
                    step (fun st' => if Nat.eqb (pos st') (pos st) then None
                                     else iter step O (Nat.pred <$> hi) lazy fuel' k st') st
                end
              else
                match step (fun st' => if Nat.eqb (pos st') (pos st) then None
                                       else iter step O (Nat.pred <$> hi) lazy fuel' k st') st with
                | Some r => Some r
                | None => k st
                end
          end
      end
  end.

Section Matcher.
Context (U : unicode).
(** IGNORECASE. *)
Context (ic : bool).

Definition chr_eq (a b : char) : bool :=
  (a =? b)%N || (ic && (to_lower U a =? to_lower U b)%N).

Definition item_has (i : citem) (c : char) : bool :=
  match i with
  | Ch a => (c =? a)%N
  | Range lo hi => (lo <=? c)%N && (c <=? hi)%N
  | Alpha => is_alpha U c
  | Lower => is_lower U c
  | Upper => is_upper U c
  | Alnum => is_alpha U c || is_digit U c
  | Digit => is_digit U c
  | Space => re_space c
  | Word => is_word U c
  end.

Definition set_has (negated : bool) (items : list citem) (c : char) : bool :=
  xorb negated
    (existsb (fun i => item_has i c
                       || (ic && (item_has i (to_lower U c) || item_has i (to_upper U c))))
       items).

(** One character satisfying [f]. *)
Definition one (f : char -> bool) (k : mstate -> option mstate) (st : mstate)
  : option mstate :=
  match after st with
  | c :: _ => if f c then k (advance st) else None
  | [] => None
  end.

(** The literal text [s] (for back-references). *)
Fixpoint literally (s : text) (k : mstate -> option mstate) (st : mstate)
  : option mstate :=
  match s with
  | [] => k st
  | c :: s' => one (chr_eq c) (literally s' k) st
  end.

Definition at_boundary (st : mstate) : bool :=
  xorb (match before st with c :: _ => is_word U c | [] => false end)
       (match after st with c :: _ => is_word U c | [] => false end).

(** [exec r k st]: match [r] at [st], then continue with [k]; on
    failure of [k] the next way of matching [r] is tried, in the order
    of a backtracking matcher. *)
Fixpoint exec (r : regex) (k : mstate -> option mstate) (st : mstate)
  : option mstate :=
  match r with
  | Empty => k st
  | Lit c => one (chr_eq c) k st
  | Any => one (fun c => negb (c =? 10)%N) k st
  | Set_ negated items => one (set_has negated items) k st
  | Cat r1 r2 => exec r1 (exec r2 k) st
  | Or r1 r2 =>
      match exec r1 k st with
      | Some res => Some res
      | None => exec r2 k st
      end
  | Repeat r lo hi lazy =>
      iter (exec r) lo hi lazy (lo + length (after st) + 1) k st
  | Group i _ r =>
      exec r (fun st' => k (set_group i (pos st) (pos st') st')) st
  | Backref i =>
      match assoc i (groups st) with
      | Some (b, e) => literally (slice (subject st) b e) k st
      | None => None
      end
  | Look false negated r =>
      match exec r Some st with
      | Some _ => if negated then None else k st
      | None => if negated then k st else None
      end
  | Look true negated r =>
      if existsb
           (fun st0 =>
              bool_decide (is_Some
                (exec r (fun st' => if Nat.eqb (pos st') (pos st)
                                    then Some st' else None) st0)))
           (rewinds (pos st) st)
      then (if negated then None else k st)
      else (if negated then k st else None)
  | Bos => if Nat.eqb (pos st) 0 then k st else None
  | Eos =>
      match after st with
      | [] => k st
      | [c] => if (c =? 10)%N then k st else None
      | _ => None
      end
  | Boundary => if at_boundary st then k st else None
  end.
End Matcher.
Arguments chr_eq : simpl never.
Arguments set_has : simpl never.

(** *** Match objects, [finditer], [sub] and [fullmatch] *)

(** The named groups of a pattern with their numbers. *)
Fixpoint named_groups (r : regex) : list (string * nat) :=
  match r with
  | Group i (Some name) r' => (name, i) :: named_groups r'
  | Group _ None r' => named_groups r'
  | Cat r1 r2 | Or r1 r2 => named_groups r1 ++ named_groups r2
  | Repeat r' _ _ _ => named_groups r'
  | Look _ _ r' => named_groups r'
  | _ => []
  end.

(** A match object: the subject, the span of the whole match, the
    spans of the groups and the pattern's named groups. *)
Record Match := MkMatch {
  m_string : text;
  m_span : nat * nat;
  m_groups : list (nat * (nat * nat));
  m_names : list (string * nat)
}.

(** [match.group(i)] for [i > 0]; a group that took no part in the
    match is the empty string here ([None] in Python: no pattern of
    the tokenizer has a named group off the path of a match). *)
Definition group (m : Match) (i : nat) : text :=
  match assoc i (m_groups m) with
  | Some (b, e) => slice (m_string m) b e
  | None => []
  end.

(** [match.group(0)]. *)
Definition group0 (m : Match) : text :=
  slice (m_string m) (m_span m).1 (m_span m).2.

(** [match.groupdict()]. *)
Definition groupdict (m : Match) : list (string * text) :=
  map (fun '(name, i) => (name, group m i)) (m_names m).

Section Search.
Context (U : unicode).

(** One attempt at the position [st].  After an empty match the next
    attempt at the same position has to consume something. *)
Definition match_at (p : pattern) (must_advance : bool) (st : mstate)
  : option mstate :=
  exec U (ignorecase p) (re p)
    (fun st' => if must_advance && Nat.eqb (pos st') (pos st) then None
                else Some st')
    st.

Definition match_of (p : pattern) (st st' : mstate) : Match :=
  MkMatch (subject st) (pos st, pos st') (groups st') (named_groups (re p)).

(** The scan of [finditer]: leftmost matches, none overlapping. *)
Fixpoint scan (p : pattern) (fuel : nat) (must_advance : bool) (st : mstate)
  : list Match :=
  match fuel with
  | O => []
  | S fuel' =>
      match match_at p must_advance st with
      | Some st' =>
          match_of p st st'
          :: scan p fuel' (Nat.eqb (pos st') (pos st))
               (MState (before st') (after st') (pos st') [])
      | None =>
          match after st with
          | [] => []
          | _ :: _ => scan p fuel' false (advance st)
          end
      end
  end.

(** [pattern.finditer(s)], as the list of its matches. *)
Definition finditer (p : pattern) (s : text) : list Match :=
  scan p (2 * length s + 2) false (MState [] s 0 []).

(** [pattern.fullmatch(s)] as a truth value. *)
Definition fullmatch (p : pattern) (s : text) : bool :=
  bool_decide (is_Some
    (exec U (ignorecase p) (re p)
       (fun st' => match after st' with [] => Some st' | _ => None end)
       (MState [] s 0 []))).

(** A replacement template: literal text and group references. *)
Inductive tpart := TLit (s : text) | TGroup (i : nat).

Definition expand (template : list tpart) (m : Match) : text :=
  concat (map (fun part => match part with
                           | TLit s => s
                           | TGroup i => group m i
                           end) template).

(** [s] with the spans [(b, e)] of [edits], taken from left to right
    from offset [from] on, replaced by the texts paired with them. *)
Fixpoint splice (s : text) (from : nat) (edits : list (nat * nat * text)) : text :=
  match edits with
  | [] => drop from s
  | (b, e, r) :: edits' => slice s from b ++ r ++ splice s e edits'
  end.

(** [pattern.sub(template, s)]. *)
Definition sub (p : pattern) (template : list tpart) (s : text) : text :=
  splice s 0 (map (fun m => (m_span m, expand template m)) (finditer p s)).
End Search.

(** *** Pattern syntax, as the source writes it *)

Definition chr (a : ascii) : char := N_of_ascii a.

(** The literal text [s] (what compiling [re.escape(s)] matches). *)
Fixpoint lit_text (s : text) : regex :=
  match s with
  | [] => Empty
  | [c] => Lit c
  | c :: s' => Cat (Lit c) (lit_text s')
  end.

Definition lit (s : string) : regex := lit_text (str s).

Fixpoint cat (rs : list regex) : regex :=
  match rs with
  | [] => Empty
  | [r] => r
  | r :: rs' => Cat r (cat rs')
  end.

(** The alternation [r1|r2|...]; the join of no alternative is the
    empty pattern. *)
Fixpoint alt (rs : list regex) : regex :=
  match rs with
  | [] => Empty
  | [r] => r
  | r :: rs' => Or r (alt rs')
  end.

Definition star (r : regex) : regex := Repeat r 0 None false.
Definition plus (r : regex) : regex := Repeat r 1 None false.
Definition opt (r : regex) : regex := Repeat r 0 (Some 1) false.
Definition lazy_star (r : regex) : regex := Repeat r 0 None true.
Definition lazy_plus (r : regex) : regex := Repeat r 1 None true.
Definition times (lo hi : nat) (r : regex) : regex := Repeat r lo (Some hi) false.
Definition at_least (lo : nat) (r : regex) : regex := Repeat r lo None false.

Definition chars (s : string) : list citem := map Ch (str s).
Definition oneof (s : string) : regex := Set_ false (chars s).
Definition noneof (s : string) : regex := Set_ true (chars s).

Definition ahead (r : regex) : regex := Look false false r.
Definition not_ahead (r : regex) : regex := Look false true r.
Definition behind_ (r : regex) : regex := Look true false r.
Definition not_behind (r : regex) : regex := Look true true r.

Definition capture (i : nat) (r : regex) : regex := Group i None r.
Definition named (i : nat) (name : string) (r : regex) : regex := Group i (Some name) r.

Definition w_ : regex := Set_ false [Word].
Definition d_ : regex := Set_ false [Digit].
Definition D_ : regex := Set_ true [Digit].
Definition s_ : regex := Set_ false [Space].
Definition S_ : regex := Set_ true [Space].
Definition alpha_ : regex := Set_ false [Alpha].
Definition lower_ : regex := Set_ false [Lower].
Definition upper_ : regex := Set_ false [Upper].

(** ** The patterns of [Tokenizer.__init__] *)

(** [sorted(entries, key=len, reverse=True)]. *)
Definition longer_first (a b : text) : Prop := (length b <= length a)%nat.

#[global] Instance longer_first_dec : RelDecision longer_first.
Proof. intros a b. unfold longer_first. apply _. Defined.

Definition sorted_by_len (entries : list text) : list text :=
  merge_sort longer_first entries.

(** [r"|".join([re.escape(_) for _ in entries])]. *)
Definition join_escaped (entries : list text) : regex := alt (map lit_text entries).

Definition spaces : pattern := Pattern (plus s_) false.

(** TAGS, EMAILS, URLs *)

Definition tag_name : regex :=
  Cat (Set_ false (chars "_:" ++ [Range (chr "A") (chr "Z")]))
      (star (Set_ false (chars "-.:" ++ [Word]))).

Definition tag : pattern :=
  Pattern
    (cat [ lit "<";
           Or (cat [ capture 1 tag_name;
                     star (cat [ plus s_; tag_name; star s_; lit "="; star s_;
                                 Or (cat [Lit 34; star (Set_ true [Ch 34]); Lit 34])
                                    (cat [lit "'"; star (noneof "'"); lit "'"]) ]);
                     star s_;
                     opt (lit "/") ])
              (cat [ lit "/"; capture 2 tag_name; star s_ ]);
           lit ">" ])
    true.

Definition email : pattern :=
  Pattern
    (cat [ Boundary;
           plus (Set_ false (Alnum :: chars ".%+-"));
           Or (lit "@") (cat [lit " "; opt (lit "["); lit "at"; opt (lit "]"); lit " "]);
           plus (Set_ false (Alnum :: chars ".-"));
           Or (lit ".") (cat [lit " "; opt (lit "["); lit "dot"; opt (lit "]"); lit " "]);
           at_least 2 alpha_;
           Boundary ])
    false.

Definition url_start : regex :=
  Or (cat [ alt [cat [lit "http"; opt (lit "s")]; lit "ftp"; lit "svn"]; lit "://" ])
     (cat [ opt (cat [lit "http"; opt (lit "s"); lit "://"]); lit "www." ]).

Definition simple_url_with_brackets : pattern :=
  Pattern
    (cat [ Boundary; url_start; lazy_plus S_; lit "("; lazy_star S_; lit ")"; star S_;
           ahead (Or Eos (Set_ false (chars "'. " ++ [Ch 34] ++ chars "!?,;" ++ [Ch 10; Ch 9]))) ])
    true.

Definition simple_url : pattern :=
  Pattern
    (cat [ Boundary; url_start; plus S_;
           Set_ true (chars "'. " ++ [Ch 34] ++ chars "!?,;:" ++ [Ch 10; Ch 9]) ])
    true.

Definition doi : pattern :=
  Pattern (cat [Boundary; lit "doi:10."; plus d_; lit "/"; plus S_]) true.

Definition doi_with_space : pattern :=
  Pattern (cat [behind_ (cat [Boundary; lit "doi: "]); lit "10."; plus d_; lit "/"; plus S_]) true.

Definition url_without_protocol : pattern :=
  Pattern
    (cat [ Boundary;
           plus (Set_ false (Word :: chars "./-"));
           lit ".";
           alt (map lit ["de"; "com"; "org"; "net"; "edu"; "info"; "jpg"; "png"; "gif";
                         "log"; "txt"]%string);
           opt (cat [lit "-"; plus w_]);
           Boundary ])
    true.

(** EMOTICONS *)

Definition emoticon_set : gset text :=
  list_to_set
    ([ str "(-.-)"; str "(T_T)"; [40; 9829; 95; 9829; 41]%N; str ")':"; str ")-:";
       str "(-:"; str ")="; str ")o:"; str ")x"; str ":'C"; str ":/";
       str ":<"; str ":C"; str ":["; str "=("; str "=)"; str "=D"; str "=P";
       str ">:"; str "D':"; str "D:"; str "\:"; str "]:"; str "x("; str "^^";
       str "o.O"; str "oO"; str "\O/"; str "\m/"; str ":;))"; str "_))";
       str "*_*"; str "._."; str ":wink:"; str ">_<"; str "*<:-)";
       str ":!:"; str ":;-))" ]).

Definition emoticon_list : list text := sorted_by_len (elements emoticon_set).

Definition emoticon : pattern :=
  Pattern
    (alt [ cat [ Or (oneof ":;") (cat [not_behind d_; lit "8"]);
                 opt (oneof "-'oO");
                 alt [ plus (lit ")"); plus (lit "("); oneof "*";
                       cat [capture 1 (oneof "DPp"); star (Backref 1); not_ahead w_] ] ];
           Or (cat [lit "x"; plus (lit "D")]) (cat [lit "X"; plus (lit "D")]);
           join_escaped emoticon_list ])
    false.

Definition space_emoticon : pattern :=
  Pattern (cat [capture 1 (oneof ":;"); plus (oneof " "); capture 2 (oneof "()")]) false.

Definition heart_emoticon : pattern :=
  Pattern
    (cat [ alt [ Bos; cat [Bos; D_];
                 behind_ (cat [D_; oneof " "]);
                 behind_ (cat [Any; Set_ true [Digit; Ch (chr " ")]]) ];
           lit "^3" ])
    false.

(** special tokens containing + or & *)

Definition token_with_plus_ampersand (tokens_with_plus_or_ampersand : list text) : pattern :=
  Pattern (cat [not_behind w_; join_escaped tokens_with_plus_or_ampersand; not_ahead w_]) true.

(** camelCase *)

Definition emoji : pattern :=
  Pattern (cat [Boundary; lit "emoji"; plus alpha_; Boundary]) false.

Definition camel_case_token (camel_case_token_list : list text) : pattern :=
  Pattern
    (cat [ Boundary;
           Or (join_escaped camel_case_token_list)
              (cat [lit ":Mac"; upper_; star lower_]);
           Boundary ])
    false.

Definition in_and_innen : pattern :=
  Pattern
    (cat [Boundary; plus alpha_; lower_; lit "In"; opt (lit "nen"); star lower_; Boundary])
    false.

Definition camel_case : pattern :=
  Pattern
    (cat [behind_ (times 2 2 lower_); capture 1 upper_; not_ahead (Or upper_ Boundary)])
    false.

(** ABBREVIATIONS *)

(** [(?![[:alpha:]]{1,3}\.)] *)
Definition no_abbreviation_follows : regex :=
  not_ahead (cat [times 1 3 alpha_; lit "."]).

(** [(?<![\w.])] *)
Definition no_word_or_dot_before : regex :=
  not_behind (Set_ false (Word :: chars ".")).

Definition single_letter_ellipsis : pattern :=
  Pattern
    (cat [ no_word_or_dot_before;
           named 1 "a_letter" alpha_;
           named 2 "b_ellipsis" (times 3 3 (lit "."));
           not_ahead (lit ".") ])
    false.

Definition and_cetera : pattern :=
  Pattern
    (cat [not_behind (Set_ false (Word :: chars ".&")); lit "&c."; no_abbreviation_follows])
    false.

Definition str_abbreviations : pattern :=
  Pattern
    (cat [ no_word_or_dot_before;
           capture 1 (cat [plus (Set_ false (Alpha :: chars "-")); lit "-Str."]);
           not_ahead alpha_ ])
    true.

Definition nr_abbreviations : pattern :=
  Pattern
    (cat [ no_word_or_dot_before;
           capture 1 (cat [plus w_; lit "."; opt (lit "-"); lit "Nr."]);
           no_abbreviation_follows ])
    true.

Definition single_letter_abbreviation : pattern :=
  Pattern (cat [no_word_or_dot_before; alpha_; lit "."; no_abbreviation_follows]) false.

Definition single_token_abbreviation (single_token_abbreviation_list : list text) : pattern :=
  Pattern
    (cat [ no_word_or_dot_before;
           join_escaped single_token_abbreviation_list;
           no_abbreviation_follows ])
    false.

Definition ps : pattern :=
  Pattern (cat [not_behind (cat [d_; oneof " "]); Boundary; lit "ps."]) true.

Definition multipart_abbreviation : pattern :=
  Pattern (at_least 2 (cat [plus alpha_; lit "."])) false.

Definition abbreviation (abbreviation_list : list text) : pattern :=
  Pattern
    (cat [ no_word_or_dot_before;
           plus (Or (at_least 2 (cat [alpha_; lit "."]))
                    (join_escaped abbreviation_list));
           no_abbreviation_follows ])
    true.

(** MENTIONS, HASHTAGS, ACTION WORDS *)

Definition mention : pattern :=
  Pattern (cat [oneof "@"; plus w_; not_ahead w_]) false.

Definition hashtag : pattern :=
  Pattern (cat [not_behind w_; oneof "#"; plus w_; not_ahead w_]) false.

Definition action_word : pattern :=
  Pattern
    (cat [ not_behind w_;
           named 1 "a_open" (oneof "*+");
           named 2 "b_middle" (plus (Set_ true [Space; Ch (chr "*")]));
           named 3 "c_close" (oneof "*");
           not_ahead w_ ])
    false.

(** DATE, TIME, NUMBERS *)

(** [(?<![\d.])] and [(?![\d.])] *)
Definition no_digit_or_dot_before : regex := not_behind (Set_ false (Digit :: chars ".")).
Definition no_digit_or_dot_after : regex := not_ahead (Set_ false (Digit :: chars ".")).

(** [(?:0?[1-9]|1[0-9]|2[0-9]|3[01])] and [(?:0?[1-9]|1[0-2])] *)
Definition day_number : regex :=
  alt [ cat [opt (lit "0"); Set_ false [Range (chr "1") (chr "9")]];
        cat [lit "1"; Set_ false [Range (chr "0") (chr "9")]];
        cat [lit "2"; Set_ false [Range (chr "0") (chr "9")]];
        cat [lit "3"; oneof "01"] ].
Definition month_number : regex :=
  Or (cat [opt (lit "0"); Set_ false [Range (chr "1") (chr "9")]])
     (cat [lit "1"; Set_ false [Range (chr "0") (chr "2")]]).

Definition three_part_date_year_first : pattern :=
  Pattern
    (cat [ no_digit_or_dot_before;
           named 1 "a_year" (times 4 4 d_);
           named 2 "b_month_or_day" (cat [capture 3 (oneof "/-"); times 1 2 d_]);
           named 4 "c_day_or_month" (cat [Backref 3; times 1 2 d_]);
           no_digit_or_dot_after ])
    false.

Definition three_part_date_dmy : pattern :=
  Pattern
    (cat [ no_digit_or_dot_before;
           named 1 "a_day" (cat [day_number; capture 2 (oneof "./-")]);
           named 3 "b_month" (cat [month_number; Backref 2]);
           named 4 "c_year" (times 1 2 (cat [d_; d_]));
           no_digit_or_dot_after ])
    false.

Definition three_part_date_mdy : pattern :=
  Pattern
    (cat [ no_digit_or_dot_before;
           named 1 "a_month" (cat [month_number; capture 2 (oneof "./-")]);
           named 3 "b_day" (cat [day_number; Backref 2]);
           named 4 "c_year" (times 1 2 (cat [d_; d_]));
           no_digit_or_dot_after ])
    false.

Definition two_part_date : pattern :=
  Pattern
    (cat [ no_digit_or_dot_before;
           named 1 "a_day_or_month" (cat [times 1 2 d_; capture 2 (oneof "./-")]);
           named 3 "b_day_or_month" (cat [times 1 2 d_; Backref 2]);
           no_digit_or_dot_after ])
    false.

Definition time : pattern :=
  Pattern
    (cat [ not_behind w_; times 1 2 d_; times 1 2 (cat [lit ":"; times 2 2 d_]);
           not_ahead (Set_ false (Digit :: chars ":")) ])
    false.

Definition ordinal : pattern :=
  Pattern
    (cat [ no_word_or_dot_before;
           alt [ times 1 3 d_; at_least 5 d_;
                 cat [Set_ false [Range (chr "3") (chr "9")]; times 3 3 d_] ];
           lit ".";
           not_ahead d_ ])
    false.

Definition fraction : pattern :=
  Pattern
    (cat [not_behind w_; plus d_; lit "/"; plus d_; not_ahead (Set_ false (Digit :: chars "/"))])
    false.

Definition amount : pattern :=
  Pattern
    (cat [not_behind w_; cat [plus d_; star (Set_ false (Digit :: chars ",.")); lit "-"];
          not_ahead w_])
    false.

Definition semester : pattern :=
  Pattern
    (cat [ not_behind w_;
           named 1 "a_semester" (alt [cat [oneof "WS"; lit "S"]; lit "SoSe"; lit "WiSe"]);
           named 2 "b_jahr" (cat [d_; d_; opt (cat [lit "/"; d_; d_])]);
           not_ahead w_ ])
    true.

(** [[−+-]]: U+2212 MINUS SIGN, plus, hyphen-minus. *)
Definition sign : regex := Set_ false (Ch 8722 :: chars "+-").

Definition measurement : pattern :=
  Pattern
    (cat [ not_behind w_;
           named 1 "a_amount" (cat [opt sign; star d_; opt (oneof ",."); plus d_]);
           named 2 "b_unit"
             (alt [ cat [ alt (map lit ["mm"; "cm"; "dm"; "m"; "km"]%string);
                          opt (cat [opt (lit "^"); oneof "23"]) ];
                    lit "qm"; lit "g"; lit "kg"; lit "min"; lit "h"; lit "s";
                    lit "sek"; lit "cent"; lit "eur" ]);
           not_ahead w_ ])
    true.

Definition number_compound : pattern :=
  Pattern
    (cat [ not_behind w_;
           Or (cat [plus d_; opt (lit "-"); plus (Set_ false (Alpha :: chars "@"))])
              (cat [plus (Set_ false (Alpha :: chars "@")); opt (lit "-"); plus d_;
                    opt (cat [lit "."; d_])]);
           not_ahead w_ ])
    false.

Definition number : pattern :=
  Pattern
    (cat [ not_behind w_;
           Or (cat [ opt sign; star d_; opt (oneof ".,"); plus d_;
                     opt (cat [oneof "eE"; opt sign; plus d_]) ])
              (cat [plus d_; star (Set_ false (Digit :: chars ".,")); plus d_]);
           not_ahead (cat [opt (oneof ".,"); d_]) ])
    false.

(** PUNCTUATION *)

Definition quest_exclam : pattern := Pattern (capture 1 (plus (oneof "!?"))) false.

Definition space_right_arrow : pattern :=
  Pattern (cat [capture 1 (plus (lit "-")); plus s_; capture 2 (lit ">")]) false.

Definition space_left_arrow : pattern :=
  Pattern (cat [capture 1 (lit "<"); plus s_; capture 2 (plus (lit "-"))]) false.

Definition arrow : pattern :=
  Pattern
    (capture 1 (alt [ cat [plus (lit "-"); lit ">"]; cat [lit "<"; plus (lit "-")];
                      Set_ false [Range 8592 8703] ]))
    false.

Definition paired_paren : pattern :=
  Pattern
    (cat [capture 1 (oneof "("); not_ahead (lit "inn"); capture 2 (star (noneof "()"));
          capture 3 (oneof ")")])
    false.

Definition paired_bracket : pattern :=
  Pattern
    (cat [capture 1 (lit "["); capture 2 (star (noneof "][")); capture 3 (lit "]")])
    false.

Definition paren : pattern :=
  Pattern
    (capture 1
       (alt [ cat [not_behind w_; oneof "[{("; ahead w_];
              cat [behind_ w_; oneof "]})"; not_ahead w_];
              cat [behind_ s_; oneof "]})"; ahead w_];
              cat [behind_ (cat [w_; lit "-"]); oneof ")"; ahead w_] ]))
    false.

Definition all_paren : pattern :=
  Pattern (cat [behind_ s_; oneof "][(){}"; ahead s_]) false.

Definition slash : pattern :=
  Pattern
    (cat [capture 1 (plus (lit "/"));
          not_ahead (Or (cat [lit "in"; opt (lit "nen")]) (lit "en"))])
    false.

Definition paired_double_latex_quote : pattern :=
  Pattern
    (cat [not_behind (lit "`"); capture 1 (lit "``"); capture 2 (plus (noneof "`'"));
          capture 3 (lit "''"); not_ahead (lit "'")])
    false.

Definition paired_single_latex_quote : pattern :=
  Pattern
    (cat [not_behind (lit "`"); capture 1 (lit "`"); capture 2 (plus (noneof "`'"));
          capture 3 (lit "'"); not_ahead (lit "'")])
    false.

(** U+201A, U+2018 and U+2019 are the single low-9, left and right
    quotation marks. *)
Definition paired_single_quot_mark : pattern :=
  Pattern
    (cat [capture 1 (Set_ false [Ch 39; Ch 8218; Ch 8216; Ch 8217]);
          capture 2 (plus (noneof "'"));
          capture 3 (Set_ false [Ch 39; Ch 8216; Ch 8217])])
    false.

Definition all_quote : pattern :=
  Pattern
    (cat [behind_ s_;
          alt [lit "``"; lit "''"; lit "`"; Set_ false [Ch 39; Ch 8218; Ch 8216; Ch 8217]];
          ahead s_])
    false.

Definition other_punctuation : pattern :=
  Pattern
    (capture 1
       (Set_ false
          (chars "<>%" ++ [Ch 8240; Ch 8364] ++ chars "$" ++ [Ch 163; Ch 8356; Ch 165; Ch 176]
           ++ chars "@~*" ++ [Ch 8222; Ch 8220; Ch 8221; Ch 8218; Ch 8216; Ch 34;
                              Ch 187; Ch 171; Ch 8250; Ch 8249]
           ++ chars ",;:+=&" ++ [Ch 8211])))
    false.

(** U+2026 is the horizontal ellipsis. *)
Definition ellipsis : pattern :=
  Pattern
    (Or (at_least 2 (lit "."))
        (cat [plus (Lit 8230); opt (at_least 2 (lit "."))]))
    false.

Definition dot_without_space : pattern :=
  Pattern
    (cat [behind_ (times 2 2 lower_); capture 1 (lit ".");
          ahead (cat [upper_; times 2 2 lower_])])
    false.

Definition dot : pattern := Pattern (capture 1 (lit ".")) false.

(** The tables cut down to ASCII, for running the tokenizer on ASCII
    paragraphs: letters, digits, and the underscore as a further word
    character. *)
Definition ascii_tables : unicode :=
  {| is_alpha c := ((65 <=? c) && (c <=? 90) || (97 <=? c) && (c <=? 122))%N;
     is_lower c := ((97 <=? c) && (c <=? 122))%N;
     is_upper c := ((65 <=? c) && (c <=? 90))%N;
     is_digit c := ((48 <=? c) && (c <=? 57))%N;
     is_word c := ((65 <=? c) && (c <=? 90) || (97 <=? c) && (c <=? 122)
                   || (48 <=? c) && (c <=? 57) || (c =? 95))%N;
     to_lower c := (if (65 <=? c) && (c <=? 90) then c + 32 else c)%N;
     to_upper c := (if (97 <=? c) && (c <=? 122) then c - 32 else c)%N |}.

(** ** The tokenizer state and its effects *)

(** [Token = collections.namedtuple("Token", ["token", "token_class"])] *)
Record Token := MkToken { token : text; token_class : string }.

(** What a call of [tokenize] changes: [self.mapping], and how many
    values [random.choice] has handed out. *)
Record state := State { mapping : gmap text Token; drawn : nat }.

(** How a computation ends: with a value, with a [KeyError] raised by a
    dictionary lookup, or still inside the [while] loop of
    [_get_unique_string] (called on [working_text] in state [at_call])
    when the fuel is used up. *)
Inductive outcome (A : Type) :=
| Ok (a : A) (s : state)
| KeyError (key : text)
| Looping (working_text : text) (at_call : state).
Arguments Ok {A} a s.
Arguments KeyError {A} key.
Arguments Looping {A} working_text at_call.

Definition M (A : Type) : Type := state -> outcome A.

Definition ret {A} (a : A) : M A := fun s => Ok a s.

Definition bind {A B} (c : M A) (f : A -> M B) : M B :=
  fun s =>
    match c s with
    | Ok a s' => f a s'
    | KeyError key => KeyError key
    | Looping t s0 => Looping t s0
    end.

Notation "'let*' x ':=' c 'in' k" := (bind c (fun x => k))
  (at level 10, x name, c at level 100, k at level 200).

(** A [for] loop that updates [acc] for each element of [l]. *)
Fixpoint for_each {A B} (l : list A) (acc : B) (body : B -> A -> M B) : M B :=
  match l with
  | [] => ret acc
  | a :: l' => let* acc' := body acc a in for_each l' acc' body
  end.

(** [self.mapping[key] = tok] *)
Definition set_mapping (key : text) (tok : Token) : M unit :=
  fun s => Ok tt (State (<[key := tok]> (mapping s)) (drawn s)).

(** [sorted(spans)] for a set of pairs of offsets. *)
Definition span_le (a b : nat * nat) : Prop :=
  (a.1 < b.1)%nat \/ (a.1 = b.1 /\ (a.2 <= b.2)%nat).

#[global] Instance span_le_dec : RelDecision span_le.
Proof. intros a b. unfold span_le. apply _. Defined.

Definition sorted_spans (spans : gset (nat * nat)) : list (nat * nat) :=
  merge_sort span_le (elements spans).

(** [sorted(d.items())] for a dictionary with string keys: by key. *)
Definition item_le (a b : string * text) : Prop :=
  String.leb a.1 b.1 = true.

#[global] Instance item_le_dec : RelDecision item_le.
Proof. intros a b. unfold item_le. apply _. Defined.

Definition sorted_items (d : list (string * text)) : list (string * text) :=
  merge_sort item_le d.

(** ** The tokenizer *)

(** The attributes of a [Tokenizer] that do not change after
    [__init__]: the two options and the four lexicons.  (The patterns
    are the definitions above; [self.mapping] is in the [state].) *)
Record Tokenizer := MkTokenizer {
  split_camel_case : bool;
  token_classes : bool;
  tokens_with_plus_or_ampersand : list text;
  camel_case_token_list : list text;
  single_token_abbreviation_list : list text;
  abbreviation_list : list text
}.

(** [_read_abbreviation_file]; [fh] is the opened file, as the lines
    the [for] loop reads from it. *)
Definition _read_abbreviation_file (fh : list text) : list text :=
  let abbreviations : gset text :=
    foldl (fun (abbreviations : gset text) line =>
             let line := strip line in
             if startswith (str "#") line then abbreviations
             else if bool_decide (line = []) then abbreviations
             else {[ line ]} ∪ abbreviations)
          ∅ fh in
  sorted_by_len (elements abbreviations).

(** [__init__]; [open_file] gives the lines of the lexicon files that
    lie beside the module. *)
Definition init (open_file : string -> list text)
    (split_camel_case token_classes : bool) : Tokenizer :=
  MkTokenizer split_camel_case token_classes
    (_read_abbreviation_file (open_file "tokens_with_plus_or_ampersand.txt"%string))
    (_read_abbreviation_file (open_file "camel_case_tokens.txt"%string))
    (_read_abbreviation_file (open_file "single_token_abbreviations.txt"%string))
    (_read_abbreviation_file (open_file "abbreviations.txt"%string)).

Definition alphabet : text := str "abcdefghijklmnopqrstuvwxyz".

(** [self.unique_string_length = 7] *)
Definition unique_string_length : nat := 7.

(** What [tokenize] returns: [Token]s when [self.token_classes] is set,
    their texts otherwise. *)
Inductive output :=
| Classified (tokens : list Token)
| Plain (tokens : list text).

(** One step of the pipeline of [tokenize] and
    [_replace_abbreviations]:
    - [Replace regex token_class] is
      [text = self._replace_regex(text, regex, token_class)];
    - [Sub regex template] is [text = regex.sub(template, text)];
    - [ReplaceAbbreviationInstances] is the last part of
      [_replace_abbreviations], from the loop over
      [self.abbreviation.finditer(text)] on. *)
Inductive stage :=
| Replace (regex : pattern) (token_class : string)
| Sub (regex : pattern) (template : list tpart)
| ReplaceAbbreviationInstances.

Section Tokenizer.
Context (U : unicode).
(** The values of the random source: the [i]-th call of
    [random.choice(alphabet)] returns [alphabet[draws i mod 26]]. *)
Context (draws : nat -> nat).
Context (self : Tokenizer).

Definition random_choice (i : nat) : char :=
  default 0%N (alphabet !! (draws i mod length alphabet)%nat).

(** ["".join(random.choice(alphabet) for _ in range(self.unique_string_length))]
    when [n] values have been drawn before. *)
Definition random_string (n : nat) : text :=
  map (fun i => random_choice (n + i)) (seq 0 unique_string_length).

(** The [while] loop of [_get_unique_string], for at most [fuel]
    rounds. *)
Fixpoint _get_unique_string_loop (fuel : nat) (text_ : text)
    (mapping_ : gmap text Token) (unique_string : text) (n : nat)
  : option (text * nat) :=
  if bool_decide (is_Some (mapping_ !! unique_string)) || contains text_ unique_string
  then match fuel with
       | O => None
       | S fuel' =>
           _get_unique_string_loop fuel' text_ mapping_
             (random_string n) (n + unique_string_length)
       end
  else Some (unique_string, n).

Definition _get_unique_string (fuel : nat) (text_ : text) : M text :=
  fun s =>
    match _get_unique_string_loop fuel text_ (mapping s) [] (drawn s) with
    | Some (unique_string, n) => Ok unique_string (State (mapping s) n)
    | None => Looping text_ s
    end.

Definition _multipart_replace (fuel : nat) (text_ instance : text)
    (parts : list text) (token_class : string) : M text :=
  let* replacements :=
    for_each parts [] (fun replacements part =>
      let* replacement := _get_unique_string fuel text_ in
      let* _ := set_mapping replacement (MkToken part token_class) in
      ret (replacements ++ [replacement])) in
  ret (join (str " ") replacements).

(** The second loop of [_replace_regex] and of
    [_replace_abbreviations], over [reversed(sorted(spans))]. *)
Fixpoint replace_spans (replacements : gmap text text)
    (spans : list (nat * nat)) (text_ : text) : M text :=
  match spans with
  | [] => ret text_
  | (beginning, end_) :: spans' =>
      match replacements !! slice text_ beginning end_ with
      | Some replacement =>
          replace_spans replacements spans'
            (take beginning text_ ++ str " " ++ replacement ++ str " "
             ++ drop end_ text_)
      | None => fun _ => KeyError (slice text_ beginning end_)
      end
  end.

Definition _replace_regex (fuel : nat) (text_ : text) (regex : pattern)
    (token_class : string) : M text :=
  let* found :=
    for_each (finditer U regex text_) (∅, ∅)
      (fun (acc : gmap text text * gset (nat * nat)) match_ =>
         let replacements := acc.1 in
         let instance := group0 match_ in
         let spans := {[ m_span match_ ]} ∪ acc.2 in
         if (0 <? length (groupdict match_))%nat then
           let parts := map snd (sorted_items (groupdict match_)) in
           let* multipart := _multipart_replace fuel text_ instance parts token_class in
           ret (<[instance := multipart]> replacements, spans)
         else
           let* replacement := _get_unique_string fuel text_ in
           let* _ := set_mapping replacement (MkToken instance token_class) in
           ret (<[instance := replacement]> replacements, spans)) in
  replace_spans found.1 (reverse (sorted_spans found.2)) text_.

(** [[p.strip() + "." for p in instance.strip(".").split(".")]] *)
Definition abbreviation_parts (instance : text) : list text :=
  map (fun p => strip p ++ str ".") (split_on 46 (strip_chars (str ".") instance)).

Definition replace_abbreviation_instances (fuel : nat) (text_ : text) : M text :=
  let* found :=
    for_each (finditer U (abbreviation (abbreviation_list self)) text_) (∅, ∅)
      (fun (acc : gmap text text * gset (nat * nat)) match_ =>
         let replacements := acc.1 in
         let instance := group0 match_ in
         let spans := {[ m_span match_ ]} ∪ acc.2 in
         if fullmatch U multipart_abbreviation instance then
           let parts := abbreviation_parts instance in
           let* multipart := _multipart_replace fuel text_ instance parts "abbreviation" in
           ret (<[instance := multipart]> replacements, spans)
         else
           let* replacement := _get_unique_string fuel text_ in
           let* _ := set_mapping replacement (MkToken instance "abbreviation") in
           ret (<[instance := replacement]> replacements, spans)) in
  replace_spans found.1 (reverse (sorted_spans found.2)) text_.

Definition run_stage (fuel : nat) (st : stage) (text_ : text) : M text :=
  match st with
  | Replace regex token_class => _replace_regex fuel text_ regex token_class
  | Sub regex template => ret (sub U regex template text_)
  | ReplaceAbbreviationInstances => replace_abbreviation_instances fuel text_
  end.

Fixpoint run (fuel : nat) (stages : list stage) (text_ : text) : M text :=
  match stages with
  | [] => ret text_
  | st :: stages' =>
      let* text_ := run_stage fuel st text_ in
      run fuel stages' text_
  end.

(** The statements of [_replace_abbreviations], in order. *)
Definition abbreviation_stages : list stage :=
  [ Replace single_letter_ellipsis "abbreviation";
    Replace and_cetera "abbreviation";
    Replace str_abbreviations "abbreviation";
    Replace nr_abbreviations "abbreviation";
    Replace single_letter_abbreviation "abbreviation";
    Replace (single_token_abbreviation (single_token_abbreviation_list self)) "abbreviation";
    Sub spaces [TLit (str " ")];
    Replace ps "abbreviation";
    ReplaceAbbreviationInstances ].

Definition _replace_abbreviations (fuel : nat) (text_ : text) : M text :=
  run fuel abbreviation_stages text_.

(** The statements of [tokenize] between the reset of [self.mapping]
    and the final split, in order. *)
Definition stages : list stage :=
  [ (* Some tokens are allowed to contain whitespace: XML tags and
       obfuscated email addresses *)
    Replace tag "XML_tag";
    Replace email "email_address";
    (* Some emoticons contain erroneous spaces.  We fix this. *)
    Sub space_emoticon [TGroup 1; TGroup 2];
    (* urls *)
    Replace simple_url_with_brackets "URL";
    Replace simple_url "URL";
    Replace doi "DOI";
    Replace doi_with_space "DOI";
    Replace url_without_protocol "URL";
    (* emoticons *)
    Sub spaces [TLit (str " ")];
    Replace heart_emoticon "emoticon";
    Replace emoticon "emoticon";
    (* mentions, hashtags *)
    Replace mention "mention";
    Replace hashtag "hashtag";
    (* action words *)
    Replace action_word "action_word";
    (* emoji *)
    Replace emoji "emoticon";
    Replace (token_with_plus_ampersand (tokens_with_plus_or_ampersand self)) "regular" ]
  ++ (* camelCase *)
  (if split_camel_case self then
     [ Replace (camel_case_token (camel_case_token_list self)) "regular";
       Replace in_and_innen "regular";
       Sub camel_case [TLit (str " "); TGroup 1] ]
   else [])
  ++ (* remove known abbreviations: self._replace_abbreviations(paragraph) *)
  abbreviation_stages
  ++
  [ (* dates *)
    Replace three_part_date_year_first "date";
    Replace three_part_date_dmy "date";
    Replace three_part_date_mdy "date";
    Replace two_part_date "date";
    (* time *)
    Replace time "time";
    (* ordinals *)
    Replace ordinal "ordinal";
    (* fractions *)
    Replace fraction "number";
    (* amounts (1.000,-) *)
    Replace amount "amount";
    (* semesters *)
    Replace semester "semester";
    (* measurements *)
    Replace measurement "measurement";
    (* number compounds *)
    Replace number_compound "number_compound";
    (* numbers *)
    Replace number "number";
    (* (clusters of) question marks and exclamation marks *)
    Replace quest_exclam "symbol";
    (* arrows *)
    Sub space_right_arrow [TGroup 1; TGroup 2];
    Sub space_left_arrow [TGroup 1; TGroup 2];
    Replace arrow "symbol";
    (* parens *)
    Sub paired_paren [TLit (str " "); TGroup 1; TLit (str " "); TGroup 2;
                      TLit (str " "); TGroup 3; TLit (str " ")];
    Sub paired_bracket [TLit (str " "); TGroup 1; TLit (str " "); TGroup 2;
                        TLit (str " "); TGroup 3; TLit (str " ")];
    Sub paren [TLit (str " "); TGroup 1; TLit (str " ")];
    Replace all_paren "symbol";
    (* slash *)
    Replace slash "symbol";
    (* LaTeX-style quotation marks *)
    Sub paired_double_latex_quote [TLit (str " "); TGroup 1; TLit (str " "); TGroup 2;
                                   TLit (str " "); TGroup 3; TLit (str " ")];
    Sub paired_single_latex_quote [TLit (str " "); TGroup 1; TLit (str " "); TGroup 2;
                                   TLit (str " "); TGroup 3; TLit (str " ")];
    (* single quotation marks, apostrophes *)
    Sub paired_single_quot_mark [TLit (str " "); TGroup 1; TLit (str " "); TGroup 2;
                                 TLit (str " "); TGroup 3; TLit (str " ")];
    Replace all_quote "symbol";
    (* other punctuation symbols *)
    Replace other_punctuation "symbol";
    (* ellipsis *)
    Replace ellipsis "symbol";
    (* dots *)
    Replace dot_without_space "symbol";
    Replace dot "symbol" ].

(** [self.mapping = {}] *)
Definition reset_mapping : M unit :=
  fun s => Ok tt (State ∅ (drawn s)).

Definition _reintroduce_instances (tokens : list text) : M (list Token) :=
  fun s =>
    Ok (map (fun t => default (MkToken t "regular") (mapping s !! t)) tokens) s.

Definition tokenize (fuel : nat) (paragraph : text) : M output :=
  (* reset mappings for the current paragraph *)
  let* _ := reset_mapping in
  let* paragraph := run fuel stages paragraph in
  (* tokenize *)
  let tokens := split (strip paragraph) in
  (* reintroduce mapped tokens *)
  let* tokens := _reintroduce_instances tokens in
  if token_classes self then ret (Classified tokens)
  else ret (Plain (map token tokens)).
End Tokenizer.

(** A sample random source, for running the tokenizer: the draws run
    through the alphabet, so the placeholders are abcdefg, hijklmn,
    opqrstu, ... *)
Definition count_up (i : nat) : nat := i.

(** Sample lexicon files, for running the tokenizer (the four files
    are not part of the sources): a few entries each, with a comment
    line and an empty line. *)
Definition line (s : string) : text := str s ++ [10%N].

Definition sample_files (filename : string) : list text :=
  if String.eqb filename "abbreviations.txt" then
    [line "# abbreviations"; line ""; line "usw."; line "Dr."; line "med."; line "bzw.";
     line "Ph.D."]
  else if String.eqb filename "single_token_abbreviations.txt" then
    [line "# abbreviations that are one token"; line "u.a."; line "o.k."]
  else if String.eqb filename "tokens_with_plus_or_ampersand.txt" then
    [line "H&M"; line "C++"]
  else if String.eqb filename "camel_case_tokens.txt" then
    [line "iPhone"; line "McDonald"]
  else [].

Definition sample_tokenizer (split_camel_case token_classes : bool) : Tokenizer :=
  init sample_files split_camel_case token_classes.

(** ** Vocabulary of the statements *)

(** [u] is a contiguous substring of [s]. *)
Definition substring (u s : text) : Prop := exists l r, s = l ++ u ++ r.

(** The matcher's position is consistent with what lies before it. *)
Definition wf (st : mstate) : Prop := pos st = length (before st).

(** [st'] is a position of the same subject at or after [st]. *)
Definition extends (st st' : mstate) : Prop :=
  exists mid, before st' = reverse mid ++ before st
              /\ after st = mid ++ after st'
              /\ pos st' = (pos st + length mid)%nat.

(** The spans lie in [from .. len] from left to right without overlap;
    with [advance] set, a span that starts at [from] is not empty, and
    a span that follows an empty one at the same offset is not empty. *)
Fixpoint tiled (from : nat) (advance : bool) (len : nat) (spans : list (nat * nat)) : Prop :=
  match spans with
  | [] => (from <= len)%nat
  | (b, e) :: rest =>
      (from <= b)%nat /\ (b <= e)%nat
      /\ (advance = true -> b = from -> (b < e)%nat)
      /\ tiled e (Nat.eqb e b) len rest
  end.

(** A string the placeholder generator can produce: seven letters of
    the alphabet. *)
Definition is_placeholder (u : text) : Prop :=
  length u = unique_string_length /\ Forall (fun c => c ∈ alphabet) u.

(** The mapping after [self.mapping[p] = Token(part, token_class)] for
    the placeholders [ps] and the parts paired with them, in order. *)
Definition register_all (ps parts : list text) (token_class : string)
    (m : gmap text Token) : gmap text Token :=
  foldl (fun m pp => <[pp.1 := MkToken pp.2 token_class]> m) m (zip ps parts).

(** The sub-tokens [_replace_regex] makes of a match: the named groups
    in the order of their names, or the whole match. *)
Definition parts_of (m : Match) : list text :=
  if (0 <? length (groupdict m))%nat then map snd (sorted_items (groupdict m))
  else [group0 m].

(** The replacements dictionary after the first loop, when the match
    [m] got the placeholders [ps]: [replacements[instance]] is set for
    each match in turn. *)
Definition replacements_of (found : list (Match * list text)) (r0 : gmap text text)
  : gmap text text :=
  foldl (fun r mp => <[group0 mp.1 := join (str " ") mp.2]> r) r0 found.

(** The edit [_replace_regex] makes at a span: the replacement of the
    matched text between two spaces. *)
Definition edit_of (r : gmap text text) (s : text) (sp : nat * nat) : nat * nat * text :=
  (sp, str " " ++ default [] (r !! slice s sp.1 sp.2) ++ str " ").

(** The body shared by the first loops of [_replace_regex] and
    [_replace_abbreviations]: the match [m] is cut into [parts m], the
    parts get placeholders, and the two local variables are updated. *)
Definition collect_body (draws : nat -> nat) (fuel : nat) (text_ : text)
    (token_class : string) (parts : Match -> list text)
    (acc : gmap text text * gset (nat * nat)) (m : Match)
  : M (gmap text text * gset (nat * nat)) :=
  let* multipart := _multipart_replace draws fuel text_ (group0 m) (parts m) token_class in
  ret (<[group0 m := multipart]> acc.1, {[ m_span m ]} ∪ acc.2).

(** The common shape of [_replace_regex] and of the last part of
    [_replace_abbreviations]: collect replacements and spans for the
    matches [ms], then replace the spans from right to left. *)
Definition replace_with (draws : nat -> nat) (fuel : nat) (text_ : text)
    (token_class : string) (parts : Match -> list text) (ms : list Match) : M text :=
  let* found := for_each ms (∅, ∅) (collect_body draws fuel text_ token_class parts) in
  replace_spans found.1 (reverse (sorted_spans found.2)) text_.

(** The sub-tokens the last part of [_replace_abbreviations] makes of a
    match. *)
Definition abbreviation_parts_of (U : unicode) (m : Match) : list text :=
  if fullmatch U multipart_abbreviation (group0 m) then abbreviation_parts (group0 m)
  else [group0 m].

(** A non-empty string without whitespace. *)
Definition is_word_ (w : text) : Prop := w <> [] /\ Forall (fun c => isspace c = false) w.

(** [st'] is [st] moved forward over the text [mid]. *)
Definition moved (st : mstate) (mid : text) (st' : mstate) : Prop :=
  before st' = reverse mid ++ before st
  /\ after st = mid ++ after st'
  /\ pos st' = (pos st + length mid)%nat.

(** What a pattern can consume: for each construct the texts it can
    match, context (look-around, anchors, the text of a back-reference)
    left aside. *)
Fixpoint lang (U : unicode) (ic : bool) (r : regex) (s : text) : Prop :=
  match r with
  | Empty => s = []
  | Lit c => exists c', s = [c'] /\ chr_eq U ic c c' = true
  | Any => exists c, s = [c] /\ negb (c =? 10)%N = true
  | Set_ negated items => exists c, s = [c] /\ set_has U ic negated items c = true
  | Cat r1 r2 => exists s1 s2, s = s1 ++ s2 /\ lang U ic r1 s1 /\ lang U ic r2 s2
  | Or r1 r2 => lang U ic r1 s \/ lang U ic r2 s
  | Repeat r' lo _ _ =>
      exists pieces, s = concat pieces /\ (lo <= length pieces)%nat
                     /\ Forall (lang U ic r') pieces
  | Group _ _ r' => lang U ic r' s
  | Backref _ => True
  | Look _ _ _ | Bos | Eos | Boundary => s = []
  end.


(** The texts of the tokens [tokenize] returns. *)
Definition token_texts (out : output) : list text :=
  match out with
  | Classified tokens => map token tokens
  | Plain tokens => tokens
  end.

(** What the statements on abbreviations assume of the Unicode tables:
    the full stop is no letter, and no letter is whitespace. *)
Definition letters_ok (U : unicode) : Prop :=
  is_alpha U 46 = false /\ forall c, is_alpha U c = true -> isspace c = false.

(** One or more letters. *)
Definition is_letters (U : unicode) (l : text) : Prop :=
  l <> [] /\ Forall (fun c => is_alpha U c = true) l.

(** [instance] is made of the groups [ls], each a run of letters
    followed by a full stop. *)
Definition letter_dot_groups (U : unicode) (ls : list text) (instance : text) : Prop :=
  Forall (is_letters U) ls /\ instance = concat (map (fun l => l ++ [46%N]) ls).

(** [st] moved forward over [mid], the first characters after it. *)
Definition jump (mid : text) (st : mstate) : mstate :=
  MState (reverse mid ++ before st) (drop (length mid) (after st))
    (pos st + length mid) (groups st).

(** [words] are the maximal runs of non-whitespace characters of [s],
    from left to right: what splitting [s] on runs of whitespace
    gives. *)
Inductive splits : text -> list text -> Prop :=
| splits_end sp :
    Forall (fun c => isspace c = true) sp -> splits sp []
| splits_word sp w rest words :
    Forall (fun c => isspace c = true) sp ->
    is_word_ w ->
    match rest with [] => True | c :: _ => isspace c = true end ->
    splits rest words ->
    splits (sp ++ w ++ rest) (w :: words).


(** The test of the [while] loop of [_get_unique_string]: the candidate
    is a key of the mapping or occurs in the working text. *)
Definition blocked (text_ : text) (mapping_ : gmap text Token) (u : text) : bool :=
  bool_decide (is_Some (mapping_ !! u)) || contains text_ u.





(** A step that calls its continuation only further on, after a
    text of [L]. *)
Definition forward_in (L : text -> Prop)
    (step : (mstate -> option mstate) -> mstate -> option mstate) : Prop :=
  forall k st res, step k st = Some res ->
    exists st' mid, moved st mid st' /\ L mid /\ k st' = Some res.

Definition forward (step : (mstate -> option mstate) -> mstate -> option mstate) : Prop :=
  forall k st res, step k st = Some res ->
    exists st', extends st st' /\ k st' = Some res.

(** The computation [c] raises no [KeyError]. *)
Definition no_KeyError {A} (c : M A) : Prop := forall s key, c s <> KeyError key.

(** [mapping.get(t, Token(t, "regular"))], the lookup of
    [_reintroduce_instances]. *)
Definition get_token (mapping_ : gmap text Token) (t : text) : Token :=
  default (MkToken t "regular") (mapping_ !! t).

(** The tokens of a text in which the matches [ms] stand as tokens of
    the class [token_class] and the text between them is split on
    whitespace and looked up in [mapping_]; [from] is the offset
    reached. *)
Fixpoint tokens_between (mapping_ : gmap text Token) (token_class : string)
    (text_ : text) (from : nat) (ms : list Match) : list Token :=
  match ms with
  | [] => map (get_token mapping_) (split (drop from text_))
  | m :: ms' =>
      map (get_token mapping_) (split (slice text_ from (m_span m).1))
      ++ MkToken (group0 m) token_class
         :: tokens_between mapping_ token_class text_ (m_span m).2 ms'
  end.

(** The token classes the stages register tokens with. *)
Definition classes_of (sts : list stage) : list string :=
  flat_map (fun st => match st with
                      | Replace _ token_class => [token_class]
                      | Sub _ _ => []
                      | ReplaceAbbreviationInstances => ["abbreviation"%string]
                      end) sts.

(** The token classes that occur in the source. *)
Definition token_class_names : list string :=
  [ "regular"; "XML_tag"; "email_address"; "URL"; "DOI"; "emoticon"; "mention";
    "hashtag"; "action_word"; "abbreviation"; "date"; "time"; "ordinal"; "number";
    "amount"; "semester"; "measurement"; "number_compound"; "symbol" ]%string.

(** The pattern a stage searches the working text for. *)
Definition stage_pattern (self : Tokenizer) (st : stage) : pattern :=
  match st with
  | Replace regex _ => regex
  | Sub regex _ => regex
  | ReplaceAbbreviationInstances => abbreviation (abbreviation_list self)
  end.

(** The tokenizer [self] with the option [token_classes] set to [b]. *)
Definition with_token_classes (b : bool) (self : Tokenizer) : Tokenizer :=
  MkTokenizer (split_camel_case self) b (tokens_with_plus_or_ampersand self)
    (camel_case_token_list self) (single_token_abbreviation_list self)
    (abbreviation_list self).

(** No stage that registers tokens finds a match: the patterns of the
    replacement passes have no match in the working text they are
    given, which only the substitutions change. *)
Fixpoint quiet (U : unicode) (self : Tokenizer) (sts : list stage) (text_ : text) : bool :=
  match sts with
  | [] => true
  | Sub regex template :: sts' => quiet U self sts' (sub U regex template text_)
  | st :: sts' =>
      match finditer U (stage_pattern self st) text_ with
      | [] => quiet U self sts' text_
      | _ :: _ => false
      end
  end.

(** The text after the substitutions among the stages. *)
Fixpoint substituted (U : unicode) (sts : list stage) (text_ : text) : text :=
  match sts with
  | [] => text_
  | Sub regex template :: sts' => substituted U sts' (sub U regex template text_)
  | _ :: sts' => substituted U sts' text_
  end.

(** The character [a] has no other case form in the tables: matching
    it without regard to case matches [a] only. *)
Definition caseless (U : unicode) (a : char) : Prop :=
  forall c, to_lower U a = to_lower U c -> c = a.

(** Side conditions on the stages that register tokens of another
    class. *)
Ltac other_class :=
  match goal with
  | |- ?c' = ?c -> _ => let H := fresh in intros H; discriminate H
  | |- _ <> _ => let H := fresh in intros H; discriminate H
  | |- True => exact I
  end.

(** [e] is not empty and has no whitespace at its first or last
    character. *)
Definition trimmed (e : text) : Prop :=
  e <> []
  /\ (forall c, head e = Some c -> isspace c = false)
  /\ (forall c, last e = Some c -> isspace c = false).

(** [line] is [e] with whitespace, and nothing else, before and after
    it. *)
Definition padded (line e : text) : Prop :=
  exists ws1 ws2, line = ws1 ++ e ++ ws2
                  /\ Forall (fun c => isspace c = true) ws1
                  /\ Forall (fun c => isspace c = true) ws2.

(** [l] is the index of the last of the matches [ms] whose text is
    [instance]. *)
Definition last_with (ms : list Match) (instance : text) (l : nat) : Prop :=
  (exists m, ms !! l = Some m /\ group0 m = instance)
  /\ forall l' m', (l < l')%nat -> ms !! l' = Some m' -> group0 m' <> instance.
(** A pattern without capture groups of its own; what happens inside a
    look-around leaves no trace in the state of the matcher. *)
Fixpoint group_free (r : regex) : bool :=
  match r with
  | Group _ _ _ => false
  | Cat r1 r2 | Or r1 r2 => group_free r1 && group_free r2
  | Repeat r' _ _ _ => group_free r'
  | _ => true
  end.

(** The span of the capture [g] lies in [b .. e]. *)
Definition within (b e : nat) (g : nat * (nat * nat)) : Prop :=
  (b <= g.2.1)%nat /\ (g.2.1 <= g.2.2)%nat /\ (g.2.2 <= e)%nat.

(** From [st] to [st'] the matcher has recorded captures between the
    two positions only, and none at all if [gf] is set. *)
Definition grouped (gf : bool) (st st' : mstate) : Prop :=
  exists new, groups st' = new ++ groups st
              /\ Forall (within (pos st) (pos st')) new
              /\ (gf = true -> new = []).

Definition forward_grouped (L : text -> Prop) (gf : bool)
    (step : (mstate -> option mstate) -> mstate -> option mstate) : Prop :=
  forall k st res, step k st = Some res ->
    exists st' mid, moved st mid st' /\ L mid /\ grouped gf st st' /\ k st' = Some res.
(** The parts a pattern is the concatenation of, as far as the
    substitutions need them: a part that is captured as the group [i],
    or one that is not captured. *)
Inductive piece := Free (r : regex) | Cap (i : nat) (r : regex).

Definition piece_body (pc : piece) : regex :=
  match pc with Free r | Cap _ r => r end.

Definition piece_re (pc : piece) : regex :=
  match pc with Free r => r | Cap i r => capture i r end.

(** The captures recorded (most recent first) when the pieces [ps]
    consume the texts [ts] from the offset [b] on. *)
Fixpoint caps (b : nat) (ps : list piece) (ts : list text) : list (nat * (nat * nat)) :=
  match ps, ts with
  | pc :: ps', tx :: ts' =>
      caps (b + length tx) ps' ts'
      ++ match pc with
         | Cap i _ => [(i, (b, (b + length tx)%nat))]
         | Free _ => []
         end
  | _, _ => []
  end.

(** A match of a pattern made of the pieces [ps]: the subject around
    the texts [ts] of the pieces, and the captures. *)
Definition in_pieces U (ic : bool) (ps : list piece) (s : text) (m : Match) : Prop :=
  exists pre ts post,
    s = pre ++ concat ts ++ post
    /\ Forall2 (fun pc tx => lang U ic (piece_body pc) tx) ps ts
    /\ m_string m = s
    /\ m_span m = (length pre, (length pre + length (concat ts))%nat)
    /\ m_groups m = caps (length pre) ps ts.

(** [t] without its whitespace. *)
Definition squeeze (t : text) : text := List.filter (fun c => negb (isspace c)) t.

(** The working text [x], seen after a stretch of plain text whose
    characters other than whitespace are [q]: it is made of stretches
    of plain text, which apart from whitespace are contiguous parts of
    the paragraph [P], with keys of the mapping ([K]) in between. *)
Inductive tracked (K : text -> Prop) (P : text) : text -> text -> Prop :=
| tracked_end q u :
    substring (q ++ squeeze u) (squeeze P) -> tracked K P q u
| tracked_key q u p rest :
    substring (q ++ squeeze u) (squeeze P) -> K p -> tracked K P [] rest ->
    tracked K P q (u ++ p ++ rest).

(** No occurrence of a key in [t] overlaps the span [sp]. *)
Definition untouched (K : text -> Prop) (t : text) (sp : nat * nat) : Prop :=
  forall p o, K p -> slice t o (o + length p) = p ->
    ~ ((o < sp.2)%nat /\ (sp.1 < o + length p)%nat).

(** The text [r] can take the place of the plain text [m]. *)
Definition fits (K : text -> Prop) (P : text) (m r : text) : Prop :=
  forall q x, tracked K P (q ++ squeeze m) x -> tracked K P q (r ++ x).

(** The spans lie in [from .. len] from left to right. *)
Fixpoint ordered (from len : nat) (spans : list (nat * nat)) : Prop :=
  match spans with
  | [] => (from <= len)%nat
  | (b, e) :: rest => (from <= b)%nat /\ (b <= e)%nat /\ ordered e len rest
  end.

(** An edit of the text [t]: no key occurs in its span, and its text
    fits in the place of what it replaces. *)
Definition edit_ok (K K' : text -> Prop) (P t : text) (ed : nat * nat * text) : Prop :=
  untouched K t ed.1 /\ fits K' P (slice t ed.1.1 ed.1.2) ed.2.
(** [p] is a key of the mapping. *)
Definition key_of (m : gmap text Token) (p : text) : Prop := is_Some (m !! p).

(** The working text and the mapping keep track of the paragraph [P]:
    between the keys of the mapping the text is made of parts of the
    paragraph, whitespace aside, and so is the text of every token of
    the mapping; the keys are placeholders. *)
Definition faithful (P : text) (text_ : text) (m : gmap text Token) : Prop :=
  tracked (key_of m) P [] text_
  /\ forall p tok, m !! p = Some tok ->
       is_placeholder p /\ substring (squeeze (token tok)) (squeeze P).

(** ** Strings *)

Lemma startswith_prefix (p s : text) : startswith p s = true <-> p `prefix_of` s.
Proof.
  revert s. induction p as [|a p IH]; intros [|b s]; simpl.
  - split; [intros _; apply prefix_nil | done].
  - split; [intros _; apply prefix_nil | done].
  - split; [done | intros [k Hk]; discriminate].
  - rewrite andb_true_iff, N.eqb_eq, IH. split.
    + intros [-> H]. by apply prefix_cons.
    + intros H. split; [by eapply prefix_cons_inv_1 | by eapply prefix_cons_inv_2].
Qed.

Lemma contains_substring (s u : text) : contains s u = true <-> substring u s.
Proof.
  induction s as [|c s IH]; simpl.
  - rewrite orb_false_r, startswith_prefix. split.
    + intros [k ->]. by exists [], k.
    + intros (l & r & H). symmetry in H.
      apply app_eq_nil in H as [-> H]. apply app_eq_nil in H as [-> ->].
      apply prefix_nil.
  - rewrite orb_true_iff, startswith_prefix, IH. split.
    + intros [[k ->] | (l & r & ->)].
      * by exists [], k.
      * by exists (c :: l), r.
    + intros ([|c' l] & r & H); simpl in H.
      * left. by exists r.
      * right. injection H as -> ->. by exists l, r.
Qed.

Lemma substring_refl (s : text) : substring s s.
Proof. exists [], []. by rewrite app_nil_r. Qed.

Lemma substring_trans (a b c : text) : substring a b -> substring b c -> substring a c.
Proof.
  intros (l1 & r1 & ->) (l2 & r2 & ->).
  exists (l2 ++ l1), (r1 ++ r2). by rewrite !app_assoc.
Qed.

Lemma substring_slice (s : text) (b e : nat) : substring (slice s b e) s.
Proof.
  unfold slice. exists (take b s), (drop (e - b) (drop b s)).
  by rewrite take_drop, take_drop.
Qed.

Lemma substring_length (u s : text) : substring u s -> (length u <= length s)%nat.
Proof. intros (l & r & ->). rewrite !length_app. lia. Qed.

(** ** The matcher only moves forward in its subject *)

Lemma extends_refl st : extends st st.
Proof. exists []. simpl. by rewrite Nat.add_0_r. Qed.

Lemma extends_trans st1 st2 st3 : extends st1 st2 -> extends st2 st3 -> extends st1 st3.
Proof.
  intros (m1 & Hb1 & Ha1 & Hp1) (m2 & Hb2 & Ha2 & Hp2).
  exists (m1 ++ m2). rewrite Hb2, Hb1, Ha1, Ha2, Hp2, Hp1.
  rewrite reverse_app, length_app, !app_assoc. repeat split; lia.
Qed.

Lemma extends_advance st c a : after st = c :: a -> extends st (advance st).
Proof.
  intros H. exists [c]. unfold advance. rewrite H. simpl. repeat split. lia.
Qed.

Lemma extends_set_group st st' i b e : extends st st' -> extends st (set_group i b e st').
Proof. intros (m & ? & ? & ?). by exists m. Qed.

Lemma extends_subject st st' : extends st st' -> subject st' = subject st.
Proof.
  intros (m & Hb & Ha & _). unfold subject.
  by rewrite Hb, Ha, reverse_app, reverse_involutive, app_assoc.
Qed.

Lemma extends_wf st st' : wf st -> extends st st' -> wf st'.
Proof.
  unfold wf. intros Hw (m & Hb & _ & Hp).
  rewrite Hp, Hb, length_app, length_reverse. lia.
Qed.

Lemma extends_pos st st' : extends st st' -> (pos st <= pos st')%nat.
Proof. intros (m & _ & _ & ->). lia. Qed.

Lemma wf_pos_le st : wf st -> (pos st <= length (subject st))%nat.
Proof. unfold wf, subject. intros ->. rewrite length_app, length_reverse. lia. Qed.

Lemma moved_extends st mid st' : moved st mid st' -> extends st st'.
Proof. intros H. by exists mid. Qed.

Lemma moved_nil st : moved st [] st.
Proof. unfold moved. simpl. by rewrite Nat.add_0_r. Qed.

Lemma moved_app st1 m1 st2 m2 st3 :
  moved st1 m1 st2 -> moved st2 m2 st3 -> moved st1 (m1 ++ m2) st3.
Proof.
  intros (Hb1 & Ha1 & Hp1) (Hb2 & Ha2 & Hp2). unfold moved.
  rewrite Hb2, Hb1, Ha1, Ha2, Hp2, Hp1, reverse_app, length_app, !app_assoc.
  split_and!; [done | done | lia].
Qed.

Lemma moved_advance st c a : after st = c :: a -> moved st [c] (advance st).
Proof.
  intros H. unfold moved, advance. rewrite H. simpl. split_and!; [done | done | lia].
Qed.

Lemma moved_set_group st mid st' i b e : moved st mid st' -> moved st mid (set_group i b e st').
Proof. by intros (? & ? & ?). Qed.

Section MatcherFacts.
Context (U : unicode) (ic : bool).

Lemma forward_in_forward L step : forward_in L step -> forward step.
Proof.
  intros H k st res Hs. apply H in Hs as (st' & mid & Hm & _ & Hk).
  exists st'. split; [by eapply moved_extends | done].
Qed.

Lemma one_forward f : forward_in (fun s => exists c, s = [c] /\ f c = true) (one f).
Proof.
  intros k st res. unfold one. destruct (after st) as [|c a] eqn:Ha; [done|].
  destruct (f c) eqn:Hf; [|done]. intros H. exists (advance st), [c].
  split_and!; [by eapply moved_advance | by exists c | done].
Qed.

Lemma literally_forward s : forward_in (fun _ => True) (literally U ic s).
Proof.
  induction s as [|c s IH]; intros k st res; simpl.
  - intros H. exists st, []. split_and!; [apply moved_nil | done | done].
  - intros H. apply one_forward in H as (st1 & m1 & E1 & _ & H).
    apply IH in H as (st2 & m2 & E2 & _ & H). exists st2, (m1 ++ m2).
    split_and!; [by eapply moved_app | done | done].
Qed.

Lemma iter_forward L step lo hi lazy fuel :
  forward_in L step ->
  forward_in (fun s => exists pieces, s = concat pieces /\ (lo <= length pieces)%nat
                                      /\ Forall L pieces)
    (iter step lo hi lazy fuel).
Proof.
  intros Hstep. revert lo hi. induction fuel as [|fuel IH]; intros lo hi k st res; simpl;
    [done|].
  destruct lo as [|lo].
  - assert (Hk : k st = Some res ->
                 exists st' mid, moved st mid st'
                   /\ (exists pieces, mid = concat pieces /\ (0 <= length pieces)%nat
                                      /\ Forall L pieces)
                   /\ k st' = Some res).
    { intros H. exists st, []. split_and!; [apply moved_nil | | done].
      exists []. split_and!; [done | done | constructor]. }
    assert (Hmore : step (fun st' => if Nat.eqb (pos st') (pos st) then None
                      else iter step 0 (Nat.pred <$> hi) lazy fuel k st') st = Some res ->
                    exists st' mid, moved st mid st'
                      /\ (exists pieces, mid = concat pieces /\ (0 <= length pieces)%nat
                                         /\ Forall L pieces)
                      /\ k st' = Some res).
    { intros H. apply Hstep in H as (st1 & m1 & E1 & HL & H).
      destruct (Nat.eqb (pos st1) (pos st)); [done|].
      apply IH in H as (st2 & m2 & E2 & (pieces & -> & _ & Hp) & H).
      exists st2, (m1 ++ concat pieces). split_and!; [by eapply moved_app | | done].
      exists (m1 :: pieces). split_and!; [done | simpl; lia | by constructor]. }
    destruct hi as [[|hi]|]; [done | |].
    + destruct lazy.
      * destruct (k st) eqn:Ek; [intros [= <-]; by apply Hk | apply Hmore].
      * match goal with |- context [step ?f st] => destruct (step f st) eqn:Es end;
          [intros [= <-]; by apply Hmore | apply Hk].
    + destruct lazy.
      * destruct (k st) eqn:Ek; [intros [= <-]; by apply Hk | apply Hmore].
      * match goal with |- context [step ?f st] => destruct (step f st) eqn:Es end;
          [intros [= <-]; by apply Hmore | apply Hk].
  - intros H. apply Hstep in H as (st1 & m1 & E1 & HL & H).
    apply IH in H as (st2 & m2 & E2 & (pieces & -> & Hlen & Hp) & H).
    exists st2, (m1 ++ concat pieces). split_and!; [by eapply moved_app | | done].
    exists (m1 :: pieces). split_and!; [done | simpl; lia | by constructor].
Qed.

(** The matcher is sound: the continuation is reached only after a
    text the pattern can consume. *)
Lemma exec_sound r : forward_in (lang U ic r) (exec U ic r).
Proof.
  induction r as [| c | | negated items | r1 IH1 r2 IH2 | r1 IH1 r2 IH2
                 | r IH lo hi lazy | i name r IH | i | behind negated r IH | | | ];
    intros k st res; simpl.
  - intros H. exists st, []. split_and!; [apply moved_nil | done | done].
  - apply one_forward.
  - apply one_forward.
  - apply one_forward.
  - intros H. apply IH1 in H as (st1 & m1 & E1 & L1 & H).
    apply IH2 in H as (st2 & m2 & E2 & L2 & H).
    exists st2, (m1 ++ m2). split_and!; [by eapply moved_app | by exists m1, m2 | done].
  - destruct (exec U ic r1 k st) eqn:E1.
    + intros [= <-]. apply IH1 in E1 as (st1 & m1 & ? & ? & ?).
      exists st1, m1. split_and!; [done | by left | done].
    + intros H. apply IH2 in H as (st1 & m1 & ? & ? & ?).
      exists st1, m1. split_and!; [done | by right | done].
  - by apply iter_forward.
  - intros H. apply IH in H as (st1 & m1 & E1 & L1 & H).
    exists (set_group i (pos st) (pos st1) st1), m1.
    split_and!; [by apply moved_set_group | done | done].
  - destruct (assoc i (groups st)) as [[b e]|]; [|done]. apply literally_forward.
  - intros H. exists st, []. split_and!; [apply moved_nil | done |].
    destruct behind.
    + match type of H with (if ?c then _ else _) = _ => destruct c end;
        destruct negated; done.
    + destruct (exec U ic r Some st); destruct negated; done.
  - destruct (Nat.eqb (pos st) 0); [|done].
    intros H. exists st, []. split_and!; [apply moved_nil | done | done].
  - intros H. exists st, []. split_and!; [apply moved_nil | done |].
    destruct (after st) as [|c [|c' a]]; [done | | done].
    by destruct (c =? 10)%N.
  - destruct (at_boundary U st); [|done].
    intros H. exists st, []. split_and!; [apply moved_nil | done | done].
Qed.

Lemma exec_forward r : forward (exec U ic r).
Proof. eapply forward_in_forward, exec_sound. Qed.
End MatcherFacts.

(** A full match is a text the pattern can consume. *)
Lemma fullmatch_sound U p s : fullmatch U p s = true -> lang U (ignorecase p) (re p) s.
Proof.
  unfold fullmatch. intros H. apply bool_decide_eq_true in H as [res H].
  apply exec_sound in H as (st' & mid & (_ & Ha & _) & HL & Hk).
  destruct (after st'); [|done]. simpl in Ha. rewrite app_nil_r in Ha. by subst.
Qed.

(** ** The matches of [finditer] *)

Lemma tiled_weaken from from' f f' len spans :
  (from < from')%nat -> tiled from' f' len spans -> tiled from f len spans.
Proof.
  destruct spans as [|[b e] rest]; simpl; [lia|].
  intros Hlt (H1 & H2 & _ & H4). repeat split; [lia | lia | lia | done].
Qed.

Lemma tiled_le from f len spans : tiled from f len spans -> (from <= len)%nat.
Proof.
  revert from f. induction spans as [|[b e] rest IH]; simpl; intros from f; [lia|].
  intros (H1 & H2 & _ & H4). apply IH in H4. lia.
Qed.

Section SearchFacts.
Context (U : unicode).

Lemma match_at_inv p f st st' :
  match_at U p f st = Some st' ->
  extends st st' /\ (f = true -> (pos st < pos st')%nat).
Proof.
  unfold match_at. intros H. apply exec_forward in H as (st1 & E & H).
  destruct (f && Nat.eqb (pos st1) (pos st)) eqn:Ef; [done|].
  injection H as <-. split; [done|]. intros ->. simpl in Ef.
  apply Nat.eqb_neq in Ef. apply extends_pos in E. lia.
Qed.

Lemma scan_spec p fuel f st :
  wf st ->
  tiled (pos st) f (length (subject st)) (map m_span (scan U p fuel f st))
  /\ Forall (fun m => m_string m = subject st /\ m_names m = named_groups (re p))
       (scan U p fuel f st).
Proof.
  revert f st. induction fuel as [|fuel IH]; intros f st Hwf; simpl.
  - split; [by apply wf_pos_le | constructor].
  - destruct (match_at U p f st) as [st'|] eqn:Em.
    + apply match_at_inv in Em as [E Hadv].
      set (st0 := MState (before st') (after st') (pos st') []).
      assert (E0 : extends st st0).
      { destruct E as (m & ? & ? & ?). by exists m. }
      destruct (IH (Nat.eqb (pos st') (pos st)) st0) as [Ht Hf].
      { by eapply extends_wf. }
      rewrite (extends_subject _ _ E0) in Ht, Hf.
      split.
      * simpl. repeat split; [lia | by apply extends_pos | intros; by apply Hadv | done].
      * constructor; [done | done].
    + destruct (after st) as [|c a] eqn:Ha.
      * split; [by apply wf_pos_le | constructor].
      * pose proof (extends_advance st c a Ha) as E.
        destruct (IH false (advance st)) as [Ht Hf]; [by eapply extends_wf|].
        rewrite (extends_subject _ _ E) in Ht, Hf. split; [|done].
        eapply tiled_weaken; [|done]. unfold advance. rewrite Ha. simpl. lia.
Qed.

Lemma finditer_tiled p s :
  tiled 0 false (length s) (map m_span (finditer U p s)).
Proof. unfold finditer. by destruct (scan_spec p (2 * length s + 2) false (MState [] s 0 [])). Qed.

Lemma finditer_string p s :
  Forall (fun m => m_string m = s /\ m_names m = named_groups (re p)) (finditer U p s).
Proof. unfold finditer. by destruct (scan_spec p (2 * length s + 2) false (MState [] s 0 [])). Qed.
End SearchFacts.
(** ** [sorted(spans)] is the list of the spans of [finditer] *)

#[global] Instance span_le_trans : Transitive span_le.
Proof. intros [a1 a2] [b1 b2] [c1 c2]. unfold span_le. simpl. lia. Qed.

#[global] Instance span_le_antisymm : AntiSymm (=) span_le.
Proof.
  intros [a1 a2] [b1 b2]. unfold span_le. simpl. intros H1 H2.
  f_equal; lia.
Qed.

#[global] Instance span_le_total : Total span_le.
Proof. intros [a1 a2] [b1 b2]. unfold span_le. simpl. lia. Qed.

Lemma tiled_bounds from f len spans :
  tiled from f len spans ->
  Forall (fun sp => (from <= sp.1)%nat /\ (sp.1 <= sp.2)%nat /\ (sp.2 <= len)%nat
                    /\ (f = true -> sp.1 = from -> (sp.1 < sp.2)%nat)) spans.
Proof.
  revert from f. induction spans as [|[b e] rest IH]; intros from f; simpl; [constructor|].
  intros (H1 & H2 & H3 & H4). pose proof (tiled_le _ _ _ _ H4) as Hle.
  constructor; simpl.
  - repeat split; try lia. done.
  - apply IH in H4. eapply Forall_impl; [exact H4|]. simpl.
    intros [b' e'] (Ha & Hb & Hc & Hd). simpl in *. repeat split; try lia.
    intros Hf Hfrom. assert (Hbf : b = from) by lia. specialize (H3 Hf Hbf). lia.
Qed.

Lemma tiled_NoDup from f len spans : tiled from f len spans -> NoDup spans.
Proof.
  revert from f. induction spans as [|[b e] rest IH]; intros from f; simpl; [constructor|].
  intros (H1 & H2 & H3 & H4). constructor; [|by eapply IH].
  intros Hin. apply tiled_bounds in H4. rewrite Forall_forall in H4.
  destruct (H4 _ Hin) as (Ha & Hb & _ & Hd). simpl in *.
  assert (Heb : e = b) by lia. rewrite Heb, Nat.eqb_refl in Hd.
  specialize (Hd eq_refl eq_refl). lia.
Qed.

Lemma tiled_Sorted from f len spans : tiled from f len spans -> Sorted span_le spans.
Proof.
  revert from f. induction spans as [|[b e] rest IH]; intros from f; simpl; [constructor|].
  intros (H1 & H2 & H3 & H4). constructor; [by eapply IH|].
  destruct rest as [|[b' e'] rest]; constructor.
  simpl in H4. unfold span_le. simpl. lia.
Qed.

Lemma sorted_spans_tiled from f len spans :
  tiled from f len spans -> sorted_spans (list_to_set spans) = spans.
Proof.
  intros H. unfold sorted_spans. apply (Sorted_unique span_le).
  - apply Sorted_merge_sort, _.
  - by eapply tiled_Sorted.
  - rewrite merge_sort_Permutation. apply elements_list_to_set. by eapply tiled_NoDup.
Qed.
(** ** The effects: inversion of [bind], loops *)

Lemma bind_Ok {A B} (c : M A) (f : A -> M B) s b s' :
  bind c f s = Ok b s' <-> exists a s1, c s = Ok a s1 /\ f a s1 = Ok b s'.
Proof.
  unfold bind. destruct (c s) as [a s1| |]; split.
  - intros H. by exists a, s1.
  - by intros (? & ? & [= <- <-] & ?).
  - done.
  - by intros (? & ? & ? & ?).
  - done.
  - by intros (? & ? & ? & ?).
Qed.

Lemma for_each_ext {A B} (l : list A) (acc : B) (f g : B -> A -> M B) s :
  (forall acc a s, f acc a s = g acc a s) ->
  for_each l acc f s = for_each l acc g s.
Proof.
  intros H. revert acc s. induction l as [|a l IH]; intros acc s; simpl; [done|].
  unfold bind. rewrite H. destruct (g acc a s); [apply IH | done | done].
Qed.

(** ** The placeholder generator *)

Section GeneratorFacts.
Context (draws : nat -> nat).

Lemma random_choice_alphabet i : random_choice draws i ∈ alphabet.
Proof.
  unfold random_choice.
  destruct (alphabet !! (draws i mod length alphabet)%nat) as [c|] eqn:E.
  - simpl. by eapply list_elem_of_lookup_2.
  - apply lookup_ge_None in E.
    pose proof (Nat.mod_upper_bound (draws i) (length alphabet)) as Hlt.
    assert (length alphabet <> 0)%nat by (by vm_compute). lia.
Qed.

Lemma random_string_placeholder n : is_placeholder (random_string draws n).
Proof.
  split.
  - unfold random_string. by rewrite length_map, length_seq.
  - unfold random_string. apply Forall_forall. intros c Hc.
    apply list_elem_of_fmap in Hc as (i & -> & _). apply random_choice_alphabet.
Qed.

Lemma loop_spec fuel text_ mapping_ u n u' n' :
  _get_unique_string_loop draws fuel text_ mapping_ u n = Some (u', n') ->
  mapping_ !! u' = None /\ contains text_ u' = false
  /\ (u' = u \/ is_placeholder u') /\ (n <= n')%nat.
Proof.
  revert u n. induction fuel as [|fuel IH]; intros u n; simpl.
  - destruct (bool_decide (is_Some (mapping_ !! u)) || contains text_ u) eqn:E; [done|].
    intros [= <- <-]. apply orb_false_iff in E as [E1 E2].
    apply bool_decide_eq_false in E1. rewrite <- eq_None_not_Some in E1. auto.
  - destruct (bool_decide (is_Some (mapping_ !! u)) || contains text_ u) eqn:E.
    + intros H. apply IH in H as (H1 & H2 & H3 & H4). repeat split; [done | done | | lia].
      right. destruct H3 as [-> | H3]; [apply random_string_placeholder | done].
    + intros [= <- <-]. apply orb_false_iff in E as [E1 E2].
      apply bool_decide_eq_false in E1. rewrite <- eq_None_not_Some in E1. auto.
Qed.

Lemma contains_nil (s : text) : contains s [] = true.
Proof. by destruct s. Qed.

(** What [_get_unique_string] returns is a placeholder that is no key
    of the mapping and no substring of the working text. *)
Lemma get_unique_string_Ok fuel text_ s u s' :
  _get_unique_string draws fuel text_ s = Ok u s' ->
  mapping s' = mapping s /\ (drawn s <= drawn s')%nat
  /\ mapping s !! u = None /\ contains text_ u = false /\ is_placeholder u.
Proof.
  unfold _get_unique_string.
  destruct (_get_unique_string_loop draws fuel text_ (mapping s) [] (drawn s))
    as [[u0 n0]|] eqn:E; [|done].
  intros [= <- <-]. simpl. apply loop_spec in E as (H1 & H2 & H3 & H4).
  repeat split; try done.
  - destruct H3 as [-> | H3]; [by rewrite contains_nil in H2 | apply H3].
  - destruct H3 as [-> | H3]; [by rewrite contains_nil in H2 | apply H3].
Qed.

Lemma get_unique_string_no_KeyError fuel text_ s key :
  _get_unique_string draws fuel text_ s <> KeyError key.
Proof.
  unfold _get_unique_string.
  by destruct (_get_unique_string_loop draws fuel text_ (mapping s) [] (drawn s)) as [[? ?]|].
Qed.

(** *** [_multipart_replace] *)

Lemma multipart_loop fuel text_ token_class parts acc s ps' s' :
  for_each parts acc (fun replacements part =>
      let* replacement := _get_unique_string draws fuel text_ in
      let* _ := set_mapping replacement (MkToken part token_class) in
      ret (replacements ++ [replacement])) s = Ok ps' s' ->
  exists ps, ps' = acc ++ ps /\ length ps = length parts /\ NoDup ps
    /\ (forall p, p ∈ ps ->
          mapping s !! p = None /\ contains text_ p = false /\ is_placeholder p)
    /\ mapping s' = register_all ps parts token_class (mapping s)
    /\ (drawn s <= drawn s')%nat.
Proof.
  revert acc s. induction parts as [|part parts IH]; intros acc s; simpl.
  - intros [= <- <-]. exists []. rewrite app_nil_r. split_and!; try done.
    + constructor.
    + intros p Hp. by apply elem_of_nil in Hp.
  - intros H. apply bind_Ok in H as (acc1 & s1 & H1 & H).
    apply bind_Ok in H1 as (p0 & s2 & Hg & H1).
    apply bind_Ok in H1 as ([] & s3 & Hs & H1).
    injection Hs as <-. injection H1 as <- <-.
    apply get_unique_string_Ok in Hg as (Hm & Hd & Hnone & Hsub & Hph).
    apply IH in H as (ps & -> & Hlen & Hnd & Hfresh & Hmap & Hdr). simpl in *.
    exists (p0 :: ps). split_and!.
    + by rewrite <- app_assoc.
    + simpl. by rewrite Hlen.
    + constructor; [|done]. intros Hin. apply Hfresh in Hin as (Hin & _).
      rewrite Hm in Hin. by rewrite lookup_insert_eq in Hin.
    + intros q Hq. apply elem_of_cons in Hq as [-> | Hq]; [done|].
      apply Hfresh in Hq as (Hq1 & Hq2 & Hq3). split_and!; try done.
      rewrite Hm in Hq1. destruct (decide (p0 = q)) as [-> | Hne].
      * by rewrite lookup_insert_eq in Hq1.
      * by rewrite lookup_insert_ne in Hq1.
    + rewrite Hmap. unfold register_all. simpl. by rewrite Hm.
    + lia.
Qed.

Lemma multipart_replace_Ok fuel text_ instance parts token_class s r s' :
  _multipart_replace draws fuel text_ instance parts token_class s = Ok r s' ->
  exists ps, r = join (str " ") ps /\ length ps = length parts /\ NoDup ps
    /\ (forall p, p ∈ ps ->
          mapping s !! p = None /\ contains text_ p = false /\ is_placeholder p)
    /\ mapping s' = register_all ps parts token_class (mapping s)
    /\ (drawn s <= drawn s')%nat.
Proof.
  unfold _multipart_replace. intros H. apply bind_Ok in H as (ps' & s1 & H & Hr).
  injection Hr as <- <-. apply multipart_loop in H as (ps & -> & H). by exists ps.
Qed.
End GeneratorFacts.
(** ** Computations that raise no [KeyError] *)


Lemma ret_no_KeyError {A} (a : A) : no_KeyError (ret a).
Proof. done. Qed.

Lemma bind_no_KeyError {A B} (c : M A) (f : A -> M B) :
  no_KeyError c -> (forall a, no_KeyError (f a)) -> no_KeyError (bind c f).
Proof.
  intros Hc Hf s key. unfold bind. destruct (c s) eqn:E; [apply Hf | | done].
  by apply Hc in E.
Qed.

Lemma for_each_no_KeyError {A B} (l : list A) (acc : B) (body : B -> A -> M B) :
  (forall acc a, no_KeyError (body acc a)) -> no_KeyError (for_each l acc body).
Proof.
  intros H. revert acc. induction l as [|a l IH]; intros acc; simpl.
  - apply ret_no_KeyError.
  - apply bind_no_KeyError; [apply H | intros; apply IH].
Qed.

(** ** Registering placeholders *)

Lemma register_all_app ps1 ps2 parts1 parts2 token_class m :
  length ps1 = length parts1 ->
  register_all (ps1 ++ ps2) (parts1 ++ parts2) token_class m
  = register_all ps2 parts2 token_class (register_all ps1 parts1 token_class m).
Proof.
  intros H. unfold register_all. rewrite zip_with_app by done. by rewrite foldl_app.
Qed.

Lemma register_all_other (ps parts : list text) (token_class : string) (m : gmap text Token) (q : text) :
  q ∉ ps -> register_all ps parts token_class m !! q = m !! q.
Proof.
  revert parts m. induction ps as [|p ps IH]; intros [|part parts] m Hq; try done.
  unfold register_all. simpl.
  apply not_elem_of_cons in Hq as [Hne Hq].
  change (register_all ps parts token_class (<[p := MkToken part token_class]> m) !! q = m !! q).
  rewrite IH by done. by rewrite lookup_insert_ne.
Qed.

Lemma register_all_lookup ps parts token_class m j p part :
  NoDup ps -> ps !! j = Some p -> parts !! j = Some part ->
  register_all ps parts token_class m !! p = Some (MkToken part token_class).
Proof.
  revert parts m j. induction ps as [|p0 ps IH]; intros [|part0 parts] m j Hnd Hp Hpart;
    try done.
  apply NoDup_cons in Hnd as [Hnotin Hnd].
  change (register_all ps parts token_class (<[p0 := MkToken part0 token_class]> m) !! p
          = Some (MkToken part token_class)).
  destruct j as [|j]; simpl in *.
  - injection Hp as ->. injection Hpart as ->.
    rewrite register_all_other by done. by rewrite lookup_insert_eq.
  - by eapply IH.
Qed.

Lemma register_all_dom (ps parts : list text) (token_class : string) (m : gmap text Token) (q : text) :
  is_Some (m !! q) -> is_Some (register_all ps parts token_class m !! q).
Proof.
  revert parts m. induction ps as [|p ps IH]; intros [|part parts] m Hq; try done.
  change (is_Some (register_all ps parts token_class (<[p := MkToken part token_class]> m) !! q)).
  apply IH. destruct (decide (p = q)) as [-> | Hne].
  - rewrite lookup_insert_eq. by eexists.
  - by rewrite lookup_insert_ne.
Qed.

(** ** The first loop: collecting replacements and spans *)

Section CollectFacts.
Context (draws : nat -> nat).

Lemma collect_spec fuel text_ token_class parts ms acc s found s' :
  for_each ms acc (collect_body draws fuel text_ token_class parts) s = Ok found s' ->
  exists pss,
    Forall2 (fun m ps => length ps = length (parts m)) ms pss
    /\ NoDup (concat pss)
    /\ (forall p, p ∈ concat pss ->
          mapping s !! p = None /\ contains text_ p = false /\ is_placeholder p)
    /\ mapping s' = register_all (concat pss) (concat (map parts ms)) token_class (mapping s)
    /\ found.1 = replacements_of (zip ms pss) acc.1
    /\ found.2 = list_to_set (map m_span ms) ∪ acc.2
    /\ (drawn s <= drawn s')%nat.
Proof.
  revert acc s. induction ms as [|m ms IH]; intros acc s; simpl.
  - intros [= <- <-]. exists []. split_and!; try done.
    + constructor.
    + intros p Hp. by apply elem_of_nil in Hp.
    + set_solver.
  - intros H. apply bind_Ok in H as (acc1 & s1 & H1 & H).
    unfold collect_body in H1. apply bind_Ok in H1 as (r & s2 & Hm & H1).
    injection H1 as <- <-.
    apply multipart_replace_Ok in Hm as (ps & -> & Hlen & Hnd & Hfresh & Hmap & Hdr).
    apply IH in H as (pss & Hf2 & Hnd' & Hfresh' & Hmap' & Hr & Hsp & Hdr'). simpl in *.
    exists (ps :: pss). split_and!.
    + by constructor.
    + simpl. apply NoDup_app. split_and!; try done.
      intros p Hp Hp'. apply Hfresh' in Hp' as (Hp' & _).
      apply list_elem_of_lookup in Hp as [j Hj].
      destruct (lookup_lt_is_Some_2 (parts m) j) as [part Hpart].
      { rewrite <- Hlen. by eapply lookup_lt_Some. }
      rewrite Hmap in Hp'.
      by rewrite (register_all_lookup _ _ _ _ _ _ _ Hnd Hj Hpart) in Hp'.
    + intros p Hp. simpl in Hp. apply elem_of_app in Hp as [Hp | Hp]; [by apply Hfresh|].
      apply Hfresh' in Hp as (Hp1 & Hp2 & Hp3). split_and!; try done.
      destruct (mapping s !! p) eqn:E; [|done].
      assert (is_Some (mapping s2 !! p)) as [? Hs].
      { rewrite Hmap. apply register_all_dom. by eexists. }
      by rewrite Hs in Hp1.
    + simpl. rewrite register_all_app by done. by rewrite <- Hmap.
    + done.
    + rewrite Hsp. set_solver.
    + lia.
Qed.

Lemma multipart_replace_no_KeyError fuel text_ instance parts token_class :
  no_KeyError (_multipart_replace draws fuel text_ instance parts token_class).
Proof.
  unfold _multipart_replace. apply bind_no_KeyError; [|intros; apply ret_no_KeyError].
  apply for_each_no_KeyError. intros acc part.
  apply bind_no_KeyError; [intros s key; apply get_unique_string_no_KeyError|].
  intros r. apply bind_no_KeyError; [done | intros; apply ret_no_KeyError].
Qed.

Lemma collect_no_KeyError fuel text_ token_class parts ms acc :
  no_KeyError (for_each ms acc (collect_body draws fuel text_ token_class parts)).
Proof.
  apply for_each_no_KeyError. intros acc0 m. unfold collect_body.
  apply bind_no_KeyError; [apply multipart_replace_no_KeyError|].
  intros; apply ret_no_KeyError.
Qed.
End CollectFacts.
(** ** The second loop: replacing the spans from right to left *)

Lemma slice_app_l (s tail : text) (b e : nat) :
  (e <= length s)%nat -> slice (s ++ tail) b e = slice s b e.
Proof.
  intros He. unfold slice. destruct (decide (b <= length s)%nat) as [Hb | Hb].
  - rewrite drop_app_le by done. apply take_app_le. rewrite length_drop. lia.
  - replace (e - b)%nat with 0%nat by lia. done.
Qed.

Lemma slice_take (s : text) (n b e : nat) :
  (e <= n)%nat -> slice (take n s) b e = slice s b e.
Proof.
  intros He. unfold slice. destruct (decide (b <= e)%nat) as [Hb | Hb].
  - replace n with (b + (n - b))%nat at 1 by lia.
    rewrite <- take_drop_commute, take_take. f_equal. lia.
  - replace (e - b)%nat with 0%nat by lia. done.
Qed.

Lemma take_slice (s : text) (from b : nat) :
  (from <= b)%nat -> take from s ++ slice s from b = take b s.
Proof.
  intros H. unfold slice. rewrite take_take_drop. f_equal. lia.
Qed.

Section ReplaceSpans.
Context (U : unicode) (draws : nat -> nat) (self : Tokenizer).

Lemma replace_spans_app r l1 l2 text_ s :
  replace_spans r (l1 ++ l2) text_ s
  = match replace_spans r l1 text_ s with
    | Ok t s' => replace_spans r l2 t s'
    | KeyError k => KeyError k
    | Looping t s0 => Looping t s0
    end.
Proof.
  revert text_. induction l1 as [|[b e] l1 IH]; intros text_; simpl; [done|].
  destruct (r !! slice text_ b e); [apply IH | done].
Qed.

Lemma splice_edit r (s : text) from b e edits :
  splice s from (edit_of r s (b, e) :: edits)
  = slice s from b ++ (str " " ++ default [] (r !! slice s b e) ++ str " ")
    ++ splice s e edits.
Proof. done. Qed.

Lemma replace_spans_one r b e text_ s rp :
  r !! slice text_ b e = Some rp ->
  replace_spans r [(b, e)] text_ s
  = Ok (take b text_ ++ str " " ++ rp ++ str " " ++ drop e text_) s.
Proof. intros H. simpl. by rewrite H. Qed.

(** Replacing the spans one by one from the right gives the text in
    which all spans are replaced at once. *)
Lemma replace_spans_splice r text_ s spans from f :
  tiled from f (length text_) spans ->
  (forall sp, sp ∈ spans -> is_Some (r !! slice text_ sp.1 sp.2)) ->
  replace_spans r (reverse spans) text_ s
  = Ok (take from text_ ++ splice text_ from (map (edit_of r text_) spans)) s.
Proof.
  revert from f. induction spans as [|[b e] rest IH]; intros from f Ht Hkeys.
  - simpl. by rewrite take_drop.
  - destruct Ht as (H1 & H2 & _ & Ht).
    pose proof (tiled_le _ _ _ _ Ht) as Hlen.
    rewrite reverse_cons, replace_spans_app.
    rewrite (IH e (Nat.eqb e b)); [|done|].
    2:{ intros sp Hsp. apply Hkeys. by apply elem_of_cons; right. }
    destruct (Hkeys (b, e)) as [rp Hrp]; [by apply elem_of_cons; left|].
    change (r !! slice text_ b e = Some rp) in Hrp.
    assert (Hsl : slice (take e text_ ++ splice text_ e (map (edit_of r text_) rest)) b e
                  = slice text_ b e).
    { rewrite slice_app_l by (rewrite length_take; lia). by apply slice_take. }
    rewrite (replace_spans_one _ _ _ _ _ rp) by (by rewrite Hsl).
    f_equal.
    rewrite map_cons, splice_edit, Hrp.
    change (default [] (Some rp)) with rp.
    rewrite take_app_le by (rewrite length_take; lia).
    rewrite take_take, Nat.min_l by done.
    rewrite drop_app_length' by (rewrite length_take; lia).
    rewrite <- (take_slice text_ from b) by done.
    by rewrite <- !app_assoc.
Qed.
End ReplaceSpans.

(** ** The replacements dictionary *)

Lemma replacements_of_snoc found mp r0 :
  replacements_of (found ++ [mp]) r0
  = <[group0 mp.1 := join (str " ") mp.2]> (replacements_of found r0).
Proof. unfold replacements_of. by rewrite foldl_app. Qed.

(** [replacements[instance]] holds what the last match with this
    instance has put there. *)
Lemma replacements_of_lookup found r0 instance :
  replacements_of found r0 !! instance
  = match list_find (fun mp => group0 mp.1 = instance) (reverse found) with
    | Some (_, mp) => Some (join (str " ") mp.2)
    | None => r0 !! instance
    end.
Proof.
  induction found as [|mp found IH] using rev_ind; [done|].
  rewrite replacements_of_snoc, reverse_app. simpl.
  case_decide as Hd.
  - rewrite Hd. by rewrite lookup_insert_eq.
  - rewrite lookup_insert_ne by done. rewrite IH.
    by destruct (list_find _ (reverse found)) as [[? ?]|].
Qed.

Lemma replacements_of_is_Some ms pss r0 m :
  length ms = length pss -> m ∈ ms ->
  is_Some (replacements_of (zip ms pss) r0 !! group0 m).
Proof.
  intros Hlen Hm. rewrite replacements_of_lookup.
  destruct (list_find _ _) as [[i mp]|] eqn:E; [by eexists|].
  exfalso. apply list_find_None in E. rewrite Forall_forall in E.
  apply list_elem_of_lookup in Hm as [j Hj].
  destruct (lookup_lt_is_Some_2 pss j) as [ps Hps].
  { rewrite <- Hlen. by eapply lookup_lt_Some. }
  apply (E (m, ps)); [|done].
  apply elem_of_reverse. apply list_elem_of_lookup. exists j.
  by rewrite lookup_zip_with, Hj, Hps.
Qed.
(** ** [_replace_regex] and the last part of [_replace_abbreviations] *)

Section ReplaceFacts.
Context (U : unicode) (draws : nat -> nat).

Lemma replace_regex_replace_with fuel text_ regex token_class s :
  _replace_regex U draws fuel text_ regex token_class s
  = replace_with draws fuel text_ token_class parts_of (finditer U regex text_) s.
Proof.
  unfold _replace_regex, replace_with, bind.
  rewrite (for_each_ext _ _ _ (collect_body draws fuel text_ token_class parts_of)); [done|].
  intros acc m s0. unfold collect_body, parts_of.
  destruct (0 <? length (groupdict m))%nat; [done|].
  unfold _multipart_replace, bind. simpl. unfold bind.
  destruct (_get_unique_string draws fuel text_ s0); done.
Qed.

Lemma replace_abbreviation_instances_replace_with self fuel text_ s :
  replace_abbreviation_instances U draws self fuel text_ s
  = replace_with draws fuel text_ "abbreviation" (abbreviation_parts_of U)
      (finditer U (abbreviation (abbreviation_list self)) text_) s.
Proof.
  unfold replace_abbreviation_instances, replace_with, bind.
  rewrite (for_each_ext _ _ _
             (collect_body draws fuel text_ "abbreviation" (abbreviation_parts_of U)));
    [done|].
  intros acc m s0. unfold collect_body, abbreviation_parts_of.
  destruct (fullmatch U multipart_abbreviation (group0 m)); [done|].
  unfold _multipart_replace, bind. simpl. unfold bind.
  destruct (_get_unique_string draws fuel text_ s0); done.
Qed.

Lemma group0_slice (m : Match) (text_ : text) :
  m_string m = text_ -> group0 m = slice text_ (m_span m).1 (m_span m).2.
Proof. intros <-. done. Qed.

(** What a pass does when it returns: every match got fresh, distinct
    placeholders, one per part; they are registered with the parts;
    the text is the old one with every span replaced at once. *)
Lemma replace_with_spec fuel text_ token_class parts ms s :
  tiled 0 false (length text_) (map m_span ms) ->
  Forall (fun m => m_string m = text_) ms ->
  match replace_with draws fuel text_ token_class parts ms s with
  | Ok text' s' =>
      exists pss,
        Forall2 (fun m ps => length ps = length (parts m)) ms pss
        /\ NoDup (concat pss)
        /\ (forall p, p ∈ concat pss ->
              mapping s !! p = None /\ contains text_ p = false /\ is_placeholder p)
        /\ mapping s' = register_all (concat pss) (concat (map parts ms)) token_class
                          (mapping s)
        /\ (drawn s <= drawn s')%nat
        /\ (forall m, m ∈ ms -> is_Some (replacements_of (zip ms pss) ∅ !! group0 m))
        /\ text' = splice text_ 0 (map (edit_of (replacements_of (zip ms pss) ∅) text_)
                                     (map m_span ms))
  | KeyError _ => False
  | Looping _ _ => True
  end.
Proof.
  intros Ht Hstr. unfold replace_with, bind.
  destruct (for_each ms (∅, ∅) (collect_body draws fuel text_ token_class parts) s)
    as [found s1| key |] eqn:E; [| by apply collect_no_KeyError in E | done].
  apply collect_spec in E as (pss & Hf2 & Hnd & Hfresh & Hmap & Hr & Hsp & Hdr).
  simpl in Hr, Hsp. rewrite Hr, Hsp, (right_id_L ∅ (∪)).
  rewrite (sorted_spans_tiled _ _ _ _ Ht).
  assert (Hkeys : forall m, m ∈ ms ->
            is_Some (replacements_of (zip ms pss) ∅ !! group0 m)).
  { intros m Hm. apply replacements_of_is_Some; [by eapply Forall2_length | done]. }
  rewrite (replace_spans_splice _ _ _ _ 0 false Ht).
  - exists pss. split_and!; done.
  - intros sp Hsp'. apply list_elem_of_fmap in Hsp' as (m & -> & Hm).
    rewrite <- (group0_slice m text_); [by apply Hkeys|].
    rewrite Forall_forall in Hstr. by apply Hstr.
Qed.

Lemma finditer_strings regex text_ :
  Forall (fun m => m_string m = text_) (finditer U regex text_).
Proof. eapply Forall_impl; [apply finditer_string|]. by intros m [? _]. Qed.

Lemma replace_regex_spec fuel text_ regex token_class s :
  let ms := finditer U regex text_ in
  match _replace_regex U draws fuel text_ regex token_class s with
  | Ok text' s' =>
      exists pss,
        Forall2 (fun m ps => length ps = length (parts_of m)) ms pss
        /\ NoDup (concat pss)
        /\ (forall p, p ∈ concat pss ->
              mapping s !! p = None /\ contains text_ p = false /\ is_placeholder p)
        /\ mapping s' = register_all (concat pss) (concat (map parts_of ms)) token_class
                          (mapping s)
        /\ (drawn s <= drawn s')%nat
        /\ (forall m, m ∈ ms -> is_Some (replacements_of (zip ms pss) ∅ !! group0 m))
        /\ text' = splice text_ 0 (map (edit_of (replacements_of (zip ms pss) ∅) text_)
                                     (map m_span ms))
  | KeyError _ => False
  | Looping _ _ => True
  end.
Proof.
  intros ms. rewrite replace_regex_replace_with.
  apply replace_with_spec; [apply finditer_tiled | apply finditer_strings].
Qed.
End ReplaceFacts.

(** ** Whitespace splitting of a joined replacement *)

Lemma split_ws_word (acc w rest : text) :
  Forall (fun c => isspace c = false) w ->
  split_ws acc (w ++ rest) = split_ws (reverse w ++ acc) rest.
Proof.
  revert acc. induction w as [|c w IH]; intros acc Hw; [done|].
  apply Forall_cons in Hw as [Hc Hw]. simpl. rewrite Hc, IH by done.
  by rewrite reverse_cons, <- app_assoc.
Qed.

Lemma split_word_space (w rest : text) :
  is_word_ w -> split_ws [] (w ++ 32%N :: rest) = w :: split_ws [] rest.
Proof.
  intros [Hne Hw]. rewrite split_ws_word by done. rewrite app_nil_r. simpl.
  destruct (reverse w) as [|c r] eqn:E.
  - apply (f_equal reverse) in E. rewrite reverse_involutive in E. done.
  - rewrite <- E, rev_alt. change (rev_append (reverse w) []) with (reverse (reverse w)).
    by rewrite reverse_involutive.
Qed.

Lemma split_ws_join (ws : list text) :
  Forall is_word_ ws -> split_ws [] (join [32%N] ws ++ [32%N]) = ws.
Proof.
  induction 1 as [|w ws Hw Hws IH]; [done|].
  destruct ws as [|w' ws].
  - change (join [32%N] [w]) with w. by rewrite split_word_space.
  - change (join [32%N] (w :: w' :: ws)) with (w ++ [32%N] ++ join [32%N] (w' :: ws)).
    rewrite <- !app_assoc.
    change ([32%N] ++ ?x) with (32%N :: x).
    rewrite split_word_space by done. by rewrite IH.
Qed.

Lemma split_join_words (ws : list text) :
  Forall is_word_ ws -> split (str " " ++ join (str " ") ws ++ str " ") = ws.
Proof.
  intros H. unfold split. change (str " ") with [32%N].
  change ([32%N] ++ ?x) with (32%N :: x).
  change (split_ws [] (32%N :: ?x)) with (split_ws [] x).
  by apply split_ws_join.
Qed.

Lemma alphabet_no_space : Forall (fun c => isspace c = false) alphabet.
Proof. by vm_compute; repeat constructor. Qed.

Lemma placeholder_word (p : text) : is_placeholder p -> is_word_ p.
Proof.
  intros [Hlen Hall]. split.
  - intros ->. done.
  - eapply Forall_impl; [exact Hall|]. intros c Hc. simpl.
    pose proof alphabet_no_space as H. rewrite Forall_forall in H. by apply H.
Qed.
(** ** Facts shared by the statements on [_replace_regex] *)

Lemma tiled_pairwise from f len spans i j x y :
  tiled from f len spans -> (i < j)%nat ->
  spans !! i = Some x -> spans !! j = Some y -> (x.2 <= y.1)%nat.
Proof.
  revert from f i j. induction spans as [|[b e] rest IH]; intros from f i j Ht Hij Hi Hj;
    [done|].
  destruct Ht as (_ & _ & _ & Ht). destruct j as [|j]; [lia|]. simpl in Hj.
  destruct i as [|i]; simpl in Hi.
  - injection Hi as <-. apply tiled_bounds in Ht. rewrite Forall_forall in Ht.
    apply list_elem_of_lookup_2 in Hj. apply Ht in Hj as (Hj & _). done.
  - eapply (IH _ _ i j); [done | lia | done | done].
Qed.

Lemma item_le_total : Total item_le.
Proof.
  intros [a ?] [b ?]. unfold item_le. simpl.
  destruct (String.leb a b) eqn:E; [by left | right].
  unfold String.leb in *. rewrite String.compare_antisym.
  destruct (String.compare a b); simpl in *; done.
Qed.

Lemma sorted_items_spec (d : list (string * text)) :
  Sorted item_le (sorted_items d) /\ sorted_items d ≡ₚ d.
Proof.
  split.
  - apply Sorted_merge_sort, item_le_total.
  - apply merge_sort_Permutation.
Qed.

Lemma sorted_items_length (d : list (string * text)) :
  length (sorted_items d) = length d.
Proof. apply Permutation_length, merge_sort_Permutation. Qed.

Lemma groupdict_length (m : Match) : length (groupdict m) = length (m_names m).
Proof. unfold groupdict. apply length_map. Qed.

Lemma parts_of_length (m : Match) :
  length (parts_of m) = if decide (m_names m = []) then 1%nat else length (m_names m).
Proof.
  unfold parts_of. rewrite groupdict_length.
  destruct (m_names m) as [|n ns] eqn:E; [done|].
  change (0 <? length (n :: ns))%nat with true. cbv iota.
  rewrite length_map, sorted_items_length, groupdict_length, E.
  by destruct (decide (n :: ns = [])).
Qed.

Lemma parts_of_unnamed (m : Match) : m_names m = [] -> parts_of m = [group0 m].
Proof. intros H. unfold parts_of, groupdict. by rewrite H. Qed.

Lemma register_all_concat_lookup (parts : Match -> list text) (ms : list Match)
    (pss : list (list text)) (token_class : string) (m0 : gmap text Token)
    (i : nat) (m : Match) (ps : list text) (j : nat) (p part : text) :
  Forall2 (fun m ps => length ps = length (parts m)) ms pss ->
  NoDup (concat pss) ->
  ms !! i = Some m -> pss !! i = Some ps ->
  ps !! j = Some p -> parts m !! j = Some part ->
  register_all (concat pss) (concat (map parts ms)) token_class m0 !! p
  = Some (MkToken part token_class).
Proof.
  intros Hf2. revert m0 i. induction Hf2 as [|m' ps' ms pss Hlen Hf2 IH];
    intros m0 i Hnd Hm Hps Hj Hpart; [done|].
  simpl in Hnd. apply NoDup_app in Hnd as (Hnd1 & Hdisj & Hnd2).
  simpl. rewrite register_all_app by done.
  destruct i as [|i]; simpl in Hm, Hps.
  - injection Hm as ->. injection Hps as ->.
    rewrite register_all_other by (apply Hdisj; by eapply list_elem_of_lookup_2).
    by eapply register_all_lookup.
  - by eapply IH.
Qed.

(** The entry of the replacements dictionary for an instance comes
    from one of the matches with this instance. *)
Lemma replacements_of_from (ms : list Match) (pss : list (list text))
    (instance r : text) :
  replacements_of (zip ms pss) ∅ !! instance = Some r ->
  exists i m ps, ms !! i = Some m /\ pss !! i = Some ps
                 /\ group0 m = instance /\ r = join (str " ") ps.
Proof.
  rewrite replacements_of_lookup.
  destruct (list_find _ _) as [[k [m ps]]|] eqn:E; [|by rewrite lookup_empty].
  intros [= <-]. apply list_find_Some in E as (Hk & Hg & _). simpl in Hg.
  apply list_elem_of_lookup_2 in Hk. rewrite elem_of_reverse in Hk.
  apply list_elem_of_lookup in Hk as [i Hi].
  apply lookup_zip_with_Some in Hi as (m' & ps' & [= <- <-] & Hm & Hps).
  by exists i, m, ps.
Qed.

Lemma elem_of_concat (x : text) (ls : list (list text)) :
  x ∈ concat ls <-> exists l, l ∈ ls /\ x ∈ l.
Proof.
  induction ls as [|l ls IH]; simpl.
  - split; [by intros H%elem_of_nil | by intros (l & H%elem_of_nil & _)].
  - rewrite elem_of_app, IH. split.
    + intros [H | (l' & H1 & H2)].
      * exists l. split; [by left | done].
      * exists l'. split; [by right | done].
    + intros (l' & H1 & H2). apply elem_of_cons in H1 as [-> | H1]; [by left|].
      right. by exists l'.
Qed.

Lemma NoDup_concat_elem (pss : list (list text)) (ps : list text) :
  NoDup (concat pss) -> ps ∈ pss -> NoDup ps.
Proof.
  induction pss as [|ps0 pss IH]; simpl; [by intros _ H%elem_of_nil|].
  intros Hnd Hin. apply NoDup_app in Hnd as (H1 & _ & H2).
  apply elem_of_cons in Hin as [-> | Hin]; [done | by apply IH].
Qed.

Lemma NoDup_concat_disjoint (pss : list (list text)) (i j : nat) (ps1 ps2 : list text)
    (p : text) :
  NoDup (concat pss) -> i <> j -> pss !! i = Some ps1 -> pss !! j = Some ps2 ->
  p ∈ ps1 -> p ∈ ps2 -> False.
Proof.
  revert i j. induction pss as [|ps0 pss IH]; intros i j Hnd Hij Hi Hj Hp1 Hp2; [done|].
  simpl in Hnd. apply NoDup_app in Hnd as (_ & Hdisj & Hnd).
  destruct i as [|i], j as [|j]; simpl in Hi, Hj; try done.
  - injection Hi as ->. apply (Hdisj p Hp1). apply elem_of_concat.
    exists ps2. split; [by eapply list_elem_of_lookup_2 | done].
  - injection Hj as ->. apply (Hdisj p Hp2). apply elem_of_concat.
    exists ps1. split; [by eapply list_elem_of_lookup_2 | done].
  - eapply (IH i j); [done | lia | done | done | done | done].
Qed.
(** ** The replacement of each match *)

(** The entry of [replacements] for the text of a match is the one
    written for the last match with this text. *)
Lemma replacements_of_last (ms : list Match) (pss : list (list text)) (i : nat) (m : Match) :
  length ms = length pss -> ms !! i = Some m ->
  exists l psl,
    last_with ms (group0 m) l /\ (i <= l)%nat /\ pss !! l = Some psl
    /\ replacements_of (zip ms pss) ∅ !! group0 m = Some (join (str " ") psl).
Proof.
  revert pss i m. induction ms as [|mL ms IH] using rev_ind; intros pss i m Hlen Hi; [done|].
  destruct pss as [|psL pss _] using rev_ind.
  { rewrite length_app in Hlen. simpl in Hlen. lia. }
  rewrite !length_app in Hlen. simpl in Hlen.
  assert (Hlen' : length ms = length pss) by lia.
  rewrite zip_with_app by done. simpl zip_with.
  rewrite replacements_of_snoc. simpl fst. simpl snd.
  destruct (decide (group0 mL = group0 m)) as [E | E].
  - exists (length ms), psL. split_and!.
    + split.
      * exists mL. split; [|done]. by rewrite lookup_app_r, Nat.sub_diag by lia.
      * intros l' m' Hl' Hm'. apply lookup_lt_Some in Hm'.
        rewrite length_app in Hm'. simpl in Hm'. lia.
    + apply lookup_lt_Some in Hi. rewrite length_app in Hi. simpl in Hi. lia.
    + by rewrite Hlen', lookup_app_r, Nat.sub_diag by lia.
    + by rewrite E, lookup_insert_eq.
  - assert (Hi' : ms !! i = Some m).
    { destruct (decide (i < length ms)%nat) as [Hlt | Hge].
      - by rewrite lookup_app_l in Hi.
      - rewrite lookup_app_r in Hi by lia.
        destruct (i - length ms)%nat as [|n] eqn:En; simpl in Hi; [|by destruct n].
        injection Hi as ->. done. }
    destruct (IH pss i m Hlen' Hi') as (l & psl & [(ml & Hml & Hg) Hlater] & Hil & Hpsl & Hr).
    assert (Hl : (l < length ms)%nat) by (by eapply lookup_lt_Some).
    exists l, psl. split_and!.
    + split.
      * exists ml. split; [|done]. by rewrite lookup_app_l.
      * intros l' m' Hl' Hm'. destruct (decide (l' < length ms)%nat) as [Hlt | Hge].
        -- rewrite lookup_app_l in Hm' by done. by eapply Hlater.
        -- rewrite lookup_app_r in Hm' by lia.
           destruct (l' - length ms)%nat as [|n]; simpl in Hm'; [|by destruct n].
           injection Hm' as <-. done.
    + done.
    + rewrite lookup_app_l; [done|]. lia.
    + by rewrite lookup_insert_ne.
Qed.

Section Matches.
Context (draws : nat -> nat).

(** What a pass has done when it returns, match by match. *)
Lemma replace_with_matches (fuel : nat) (text_ : text) (token_class : string)
    (parts : Match -> list text) (ms : list Match) (s : state) (text' : text) (s' : state) :
  tiled 0 false (length text_) (map m_span ms) ->
  Forall (fun m => m_string m = text_) ms ->
  replace_with draws fuel text_ token_class parts ms s = Ok text' s' ->
  exists (pss : list (list text)) (rep : text -> text),
    Forall2 (fun m ps => length ps = length (parts m)) ms pss
    /\ NoDup (concat pss)
    /\ (forall p, p ∈ concat pss ->
          mapping s !! p = None /\ ~ substring p text_ /\ is_placeholder p)
    /\ (forall q, q ∉ concat pss -> mapping s' !! q = mapping s !! q)
    /\ (forall i m ps j p part,
          ms !! i = Some m -> pss !! i = Some ps ->
          ps !! j = Some p -> parts m !! j = Some part ->
          mapping s' !! p = Some (MkToken part token_class))
    /\ (forall i m, ms !! i = Some m ->
          exists l psl, last_with ms (group0 m) l /\ (i <= l)%nat /\ pss !! l = Some psl
                        /\ rep (group0 m) = join (str " ") psl)
    /\ text' = splice text_ 0
                 (map (fun m => (m_span m, str " " ++ rep (group0 m) ++ str " ")) ms).
Proof.
  intros Ht Hstr H.
  pose proof (replace_with_spec draws fuel text_ token_class parts ms s Ht Hstr) as Hs.
  rewrite H in Hs. destruct Hs as (pss & Hf2 & Hnd & Hfresh & Hmap & _ & _ & ->).
  exists pss, (fun instance => default [] (replacements_of (zip ms pss) ∅ !! instance)).
  split_and!; [done | done | | | | |].
  - intros p Hp. destruct (Hfresh p Hp) as (H1 & H2 & H3). split_and!; [done | | done].
    rewrite <- contains_substring. by rewrite H2.
  - intros q Hq. rewrite Hmap. by apply register_all_other.
  - intros i m ps j p part Hm Hps Hp Hpart. rewrite Hmap.
    exact (register_all_concat_lookup parts ms pss token_class _ i m ps j p part
             Hf2 Hnd Hm Hps Hp Hpart).
  - intros i m Hm.
    destruct (replacements_of_last ms pss i m (Forall2_length _ _ _ Hf2) Hm)
      as (l & psl & Hlast & Hil & Hpsl & Hr).
    exists l, psl. by rewrite Hr.
  - f_equal. rewrite map_map. apply map_ext_in. intros m Hm.
    unfold edit_of. simpl. rewrite <- (group0_slice m text_); [done|].
    rewrite Forall_forall in Hstr. by apply Hstr, list_elem_of_In.
Qed.

End Matches.

Lemma sorted_names_of (m : Match) :
  exists sorted_names : list (string * nat),
    sorted_names ≡ₚ m_names m
    /\ Sorted (fun a b => String.leb a.1 b.1 = true) sorted_names
    /\ map snd (sorted_items (groupdict m)) = map (fun ng => group m ng.2) sorted_names.
Proof.
  destruct (sorted_items_spec (groupdict m)) as [Hsorted Hperm].
  unfold groupdict in Hperm.
  apply Permutation_map_inv in Hperm as (sn & Heq & Hp).
  exists sn. split_and!.
  - done.
  - clear Hp. unfold groupdict in Hsorted. rewrite Heq in Hsorted. clear Heq.
    induction sn as [|a sn IH]; [constructor|].
    apply Sorted_inv in Hsorted as [Hs Hhd]. constructor; [by apply IH|].
    destruct sn as [|b sn]; [constructor|]. constructor.
    apply HdRel_inv in Hhd. unfold item_le in Hhd. by destruct a, b.
  - unfold groupdict. rewrite Heq, map_map. apply map_ext. by intros [name g].
Qed.
(** * Properties of the replacement passes *)

(** C2.  In [_replace_regex] the recorded spans are applied from right
    to left: the list [reversed(sorted(spans))] the second loop runs
    over is the list of the spans of the matches in reverse, and a span
    applied later ends at or before the start of every span applied
    earlier.  No lookup in [replacements] fails, so no offset of a span
    still to be applied is invalidated, and when the call returns the
    text is the old text with every span replaced at once by its
    replacement between one leading and one trailing space. *)
Theorem replace_regex_simultaneous (U : unicode) (draws : nat -> nat) (fuel : nat)
    (text_ : text) (regex : pattern) (token_class : string) (s : state) :
  let spans := map m_span (finditer U regex text_) in
  (forall key, _replace_regex U draws fuel text_ regex token_class s <> KeyError key)
  /\ reverse (sorted_spans (list_to_set spans)) = reverse spans
  /\ (forall i j a b, (i < j)%nat ->
        reverse spans !! i = Some a -> reverse spans !! j = Some b -> (b.2 <= a.1)%nat)
  /\ forall text' s',
       _replace_regex U draws fuel text_ regex token_class s = Ok text' s' ->
       exists replacements : gmap text text,
         (forall sp, sp ∈ spans -> is_Some (replacements !! slice text_ sp.1 sp.2))
         /\ replace_spans replacements (reverse spans) text_ s' = Ok text' s'
         /\ text' = splice text_ 0
                      (map (fun sp => (sp, str " "
                                           ++ default [] (replacements !! slice text_ sp.1 sp.2)
                                           ++ str " ")) spans).
Proof.
  intros spans. pose proof (finditer_tiled U regex text_) as Ht. fold spans in Ht.
  pose proof (replace_regex_spec U draws fuel text_ regex token_class s) as Hspec.
  cbv zeta in Hspec. split_and!.
  - intros key Hk. by rewrite Hk in Hspec.
  - by rewrite (sorted_spans_tiled _ _ _ _ Ht).
  - intros i j a b Hij Hi Hj.
    assert (Hjl : (j < length spans)%nat).
    { apply lookup_lt_Some in Hj. by rewrite length_reverse in Hj. }
    rewrite reverse_lookup in Hi by lia. rewrite reverse_lookup in Hj by lia.
    eapply (tiled_pairwise _ _ _ _ (length spans - S j) (length spans - S i));
      [exact Ht | lia | done | done].
  - intros text' s' Hok. rewrite Hok in Hspec.
    destruct Hspec as (pss & _ & _ & _ & _ & _ & Hkeys & ->).
    set (r := replacements_of (zip (finditer U regex text_) pss) ∅) in *.
    assert (Hk : forall sp, sp ∈ spans -> is_Some (r !! slice text_ sp.1 sp.2)).
    { intros sp Hsp. apply list_elem_of_fmap in Hsp as (m & -> & Hm).
      rewrite <- (group0_slice m text_); [by apply Hkeys|].
      pose proof (finditer_strings U regex text_) as Hs.
      rewrite Forall_forall in Hs. by apply Hs. }
    exists r. split_and!; [done | | done].
    by rewrite (replace_spans_splice _ _ _ _ 0 false Ht Hk).
Qed.

Lemma replace_regex_simultaneous_witness :
  exists text' s',
    _replace_regex ascii_tables count_up 1 (str "a.b.") dot "symbol" (State ∅ 0)
    = Ok text' s'
    /\ text' = str "a hijklmn b hijklmn "
    /\ exists replacements : gmap text text,
         (forall sp, sp ∈ [(1, 2); (3, 4)]%nat ->
            is_Some (replacements !! slice (str "a.b.") sp.1 sp.2))
         /\ replace_spans replacements (reverse [(1, 2); (3, 4)]%nat)
              (str "a.b.") s' = Ok text' s'
         /\ text' = splice (str "a.b.") 0
                      (map (fun sp => (sp, str " "
                              ++ default [] (replacements !! slice (str "a.b.") sp.1 sp.2)
                              ++ str " ")) [(1, 2); (3, 4)]%nat).
Proof.
  eexists _, _. split; [vm_compute; reflexivity|]. split; [reflexivity|].
  apply (replace_regex_simultaneous ascii_tables count_up 1 (str "a.b.") dot "symbol"
           (State ∅ 0)).
  vm_compute. reflexivity.
Defined.
(** C3.  When [_replace_regex] returns, every match it processed was
    cut into parts.  For a pattern with named groups the parts are the
    texts of the named groups, each the piece of the text at the span
    the match recorded for the group, in the sorted order of the names
    of the groups: one part per named group.  For a pattern without
    named groups the one part is the matched text.  Each part got a
    placeholder of its own, new to the mapping, and is registered under
    it with the class of the rule.  The replacement string made for the
    match is these placeholders joined by single spaces, so between its
    two spaces it has exactly as many whitespace-delimited units as the
    pattern has named groups, and exactly one when it has none.  It is
    the string substituted at the span of the match unless a later
    match has the same text: the string substituted is the one made for
    the last match with this text. *)
Theorem replace_regex_units (U : unicode) (draws : nat -> nat) (fuel : nat)
    (text_ : text) (regex : pattern) (token_class : string) (s : state)
    (text' : text) (s' : state) :
  _replace_regex U draws fuel text_ regex token_class s = Ok text' s' ->
  let ms := finditer U regex text_ in
  let names := named_groups (re regex) in
  let units := if decide (names = []) then 1%nat else length names in
  exists (pss : list (list text)) (rep : text -> text),
    length pss = length ms
    /\ NoDup (concat pss)
    /\ (forall i m, ms !! i = Some m ->
        exists ps,
          pss !! i = Some ps
          /\ length ps = units
          /\ Forall (fun p => is_placeholder p /\ mapping s !! p = None) ps
          /\ (names = [] ->
              exists p, ps = [p]
                /\ mapping s' !! p
                   = Some (MkToken (slice text_ (m_span m).1 (m_span m).2) token_class))
          /\ (names <> [] ->
              exists sorted_names : list (string * nat),
                sorted_names ≡ₚ names
                /\ Sorted (fun a b => String.leb a.1 b.1 = true) sorted_names
                /\ forall j p name g,
                     ps !! j = Some p -> sorted_names !! j = Some (name, g) ->
                     exists part,
                       mapping s' !! p = Some (MkToken part token_class)
                       /\ match assoc g (m_groups m) with
                          | Some (b, e) => part = slice text_ b e
                          | None => part = []
                          end)
          /\ split (str " " ++ join (str " ") ps ++ str " ") = ps
          /\ ((forall i' m', (i < i')%nat -> ms !! i' = Some m' -> group0 m' <> group0 m) ->
              rep (group0 m) = join (str " ") ps)
          /\ exists l psl,
               last_with ms (group0 m) l /\ (i <= l)%nat /\ pss !! l = Some psl
               /\ length psl = units
               /\ rep (group0 m) = join (str " ") psl)
    /\ text' = splice text_ 0
                 (map (fun m => (m_span m, str " " ++ rep (group0 m) ++ str " ")) ms).
Proof.
  intros Hok ms names units. rewrite replace_regex_replace_with in Hok.
  pose proof (finditer_strings U regex text_) as Hstr. fold ms in Hstr.
  destruct (replace_with_matches draws fuel text_ token_class parts_of ms s text' s'
              (finditer_tiled U regex text_) Hstr Hok)
    as (pss & rep & Hf2 & Hnd & Hfresh & _ & Hreg & Hrep & Htext).
  pose proof (finditer_string U regex text_) as Hnames. fold ms in Hnames.
  rewrite Forall_forall in Hstr, Hnames.
  assert (Hunits : forall i m ps, ms !! i = Some m -> pss !! i = Some ps ->
            length ps = units).
  { intros i m ps Hm Hps.
    rewrite (Forall2_lookup_lr _ ms pss i m ps Hf2 Hm Hps), parts_of_length.
    destruct (Hnames m) as [_ ->]; [by eapply list_elem_of_lookup_2 | done]. }
  exists pss, rep. split_and!; [symmetry; by eapply Forall2_length | done | | done].
  intros i m Hm.
  assert (Hin : m ∈ ms) by (by eapply list_elem_of_lookup_2).
  destruct (Hnames m Hin) as [Hs Hn].
  destruct (Forall2_lookup_l _ _ _ _ _ Hf2 Hm) as (ps & Hps & Hlen).
  assert (Hph : forall p, p ∈ ps -> is_placeholder p /\ mapping s !! p = None).
  { intros p Hp. destruct (Hfresh p) as (H1 & _ & H3); [|done].
    apply elem_of_concat. exists ps. split; [by eapply list_elem_of_lookup_2 | done]. }
  destruct (Hrep i m Hm) as (l & psl & Hlast & Hil & Hpsl & Hr).
  exists ps. split_and!.
  - done.
  - by eapply Hunits.
  - apply Forall_forall, Hph.
  - intros Hno. fold names in Hn. rewrite Hno in Hn.
    rewrite (parts_of_unnamed m Hn) in Hlen. destruct ps as [|p [|? ?]]; try done.
    exists p. split; [done|].
    rewrite <- (group0_slice m text_ Hs).
    apply (Hreg i m [p] 0%nat p (group0 m) Hm Hps eq_refl).
    by rewrite (parts_of_unnamed m Hn).
  - intros Hyes. destruct (sorted_names_of m) as (sn & Hperm & Hsorted & Hparts).
    exists sn. fold names in Hn. rewrite Hn in Hperm. split_and!; [done | done |].
    intros j p name g Hp Hj. exists (group m g). split.
    + apply (Hreg i m ps j p (group m g) Hm Hps Hp).
      unfold parts_of. rewrite groupdict_length, Hn.
      destruct names as [|n0 names0] eqn:En; [done|].
      change (0 <? length (n0 :: names0)) with true. cbv iota.
      rewrite Hparts.
      change (map (fun ng : string * nat => group m ng.2) sn)
        with ((fun ng : string * nat => group m ng.2) <$> sn).
      by rewrite list_lookup_fmap, Hj.
    + unfold group. rewrite Hs. by destruct (assoc g (m_groups m)) as [[b e]|].
  - apply split_join_words, Forall_forall. intros p Hp. apply placeholder_word.
    by apply Hph.
  - intros Hlater. destruct Hlast as [(ml & Hml & Hg) Hnolater].
    destruct (decide (l = i)) as [-> | Hne].
    + rewrite Hps in Hpsl. by injection Hpsl as <-.
    + destruct (Hlater l ml); [lia | done | done].
  - destruct Hlast as [(ml & Hml & Hg) Hnolater]. exists l, psl.
    split_and!; [by split; [exists ml|] | done | done | by eapply Hunits | done].
Qed.

Lemma replace_regex_units_witness :
  exists text' s',
    _replace_regex ascii_tables count_up 1 (str "12.03.2015") three_part_date_dmy "date"
      (State ∅ 0) = Ok text' s'
    /\ text' = str " abcdefg hijklmn opqrstu "
    /\ mapping s' !! str "abcdefg" = Some (MkToken (str "12.") "date")
    /\ mapping s' !! str "hijklmn" = Some (MkToken (str "03.") "date")
    /\ mapping s' !! str "opqrstu" = Some (MkToken (str "2015") "date")
    /\ let ms := finditer ascii_tables three_part_date_dmy (str "12.03.2015") in
       let names := named_groups (re three_part_date_dmy) in
       let units := if decide (names = []) then 1%nat else length names in
       exists (pss : list (list text)) (rep : text -> text),
         length pss = length ms
         /\ NoDup (concat pss)
         /\ (forall i m, ms !! i = Some m ->
             exists ps,
               pss !! i = Some ps
               /\ length ps = units
               /\ Forall (fun p => is_placeholder p
                                   /\ (∅ : gmap text Token) !! p = None) ps
               /\ (names = [] ->
                   exists p, ps = [p]
                     /\ mapping s' !! p
                        = Some (MkToken (slice (str "12.03.2015") (m_span m).1 (m_span m).2)
                                  "date"))
               /\ (names <> [] ->
                   exists sorted_names : list (string * nat),
                     sorted_names ≡ₚ names
                     /\ Sorted (fun a b => String.leb a.1 b.1 = true) sorted_names
                     /\ forall j p name g,
                          ps !! j = Some p -> sorted_names !! j = Some (name, g) ->
                          exists part,
                            mapping s' !! p = Some (MkToken part "date")
                            /\ match assoc g (m_groups m) with
                               | Some (b, e) => part = slice (str "12.03.2015") b e
                               | None => part = []
                               end)
               /\ split (str " " ++ join (str " ") ps ++ str " ") = ps
               /\ ((forall i' m', (i < i')%nat -> ms !! i' = Some m' ->
                                  group0 m' <> group0 m) ->
                   rep (group0 m) = join (str " ") ps)
               /\ exists l psl,
                    last_with ms (group0 m) l /\ (i <= l)%nat /\ pss !! l = Some psl
                    /\ length psl = units
                    /\ rep (group0 m) = join (str " ") psl)
         /\ text' = splice (str "12.03.2015") 0
                      (map (fun m => (m_span m, str " " ++ rep (group0 m) ++ str " ")) ms).
Proof.
  eexists _, _. split; [vm_compute; reflexivity|]. split; [reflexivity|].
  split; [by vm_compute|]. split; [by vm_compute|]. split; [by vm_compute|].
  apply (replace_regex_units ascii_tables count_up 1 (str "12.03.2015")
           three_part_date_dmy "date" (State ∅ 0)).
  vm_compute. reflexivity.
Defined.
(** C4, as stated, fails: when the same substring is matched at two
    spans, the mapping gets an entry for each of the two matches.  On
    the text a.b. the rule for dots registers the two placeholders
    abcdefg and hijklmn, both for the token of the dot. *)
Lemma two_placeholders_for_one_substring :
  exists text' s',
    _replace_regex ascii_tables count_up 1 (str "a.b.") dot "symbol" (State ∅ 0)
    = Ok text' s'
    /\ map group0 (finditer ascii_tables dot (str "a.b.")) = [str "."; str "."]
    /\ str "abcdefg" <> str "hijklmn"
    /\ mapping s' !! str "abcdefg" = Some (MkToken (str ".") "symbol")
    /\ mapping s' !! str "hijklmn" = Some (MkToken (str ".") "symbol")
    /\ size (mapping s') = 2%nat.
Proof.
  eexists _, _. split; [vm_compute; reflexivity|].
  split_and!; by vm_compute.
Qed.

(** C4, amended.  When the same substring is matched at two spans in
    one call of [_replace_regex], each of the two matches registers
    placeholders of its own in the mapping, one per part, all fresh and
    all different (for a pattern without named groups: two different
    placeholders, both for the substring and the class of the rule).
    The [replacements] dictionary, keyed by the text of the substring,
    keeps one entry for it: the one written for the last match with
    this text, that is the placeholders drawn for that last match,
    joined by single spaces.  This entry is substituted at both spans,
    so both spans restore to the parts of that last match and the class
    of the rule (for a pattern without named groups: to the substring
    itself). *)
Theorem replace_regex_same_instance (U : unicode) (draws : nat -> nat) (fuel : nat)
    (text_ : text) (regex : pattern) (token_class : string) (s : state)
    (text' : text) (s' : state) (i j : nat) (m1 m2 : Match) :
  _replace_regex U draws fuel text_ regex token_class s = Ok text' s' ->
  finditer U regex text_ !! i = Some m1 ->
  finditer U regex text_ !! j = Some m2 ->
  i <> j ->
  group0 m1 = group0 m2 ->
  let ms := finditer U regex text_ in
  exists (pss : list (list text)) (replacements : gmap text text),
    length pss = length ms
    /\ NoDup (concat pss)
    (* every match registers placeholders of its own *)
    /\ (forall k mk, ms !! k = Some mk ->
        exists psk,
          pss !! k = Some psk
          /\ length psk = length (parts_of mk) /\ psk <> []
          /\ Forall (fun p => is_placeholder p /\ mapping s !! p = None) psk
          /\ forall n p part, psk !! n = Some p -> parts_of mk !! n = Some part ->
               mapping s' !! p = Some (MkToken part token_class))
    (* the two matches: two registrations *)
    /\ (exists ps1 ps2,
          pss !! i = Some ps1 /\ pss !! j = Some ps2
          /\ ps1 <> [] /\ ps2 <> [] /\ NoDup (ps1 ++ ps2))
    /\ (named_groups (re regex) = [] ->
        exists p1 p2,
          pss !! i = Some [p1] /\ pss !! j = Some [p2] /\ p1 <> p2
          /\ mapping s' !! p1 = Some (MkToken (group0 m1) token_class)
          /\ mapping s' !! p2 = Some (MkToken (group0 m1) token_class))
    (* one entry of [replacements], of the last match with this text,
       substituted at both spans *)
    /\ (exists l m ps,
          last_with ms (group0 m1) l /\ ms !! l = Some m
          /\ (i <= l)%nat /\ (j <= l)%nat
          /\ pss !! l = Some ps
          /\ replacements !! group0 m1 = Some (join (str " ") ps)
          /\ edit_of replacements text_ (m_span m1)
             = (m_span m1, str " " ++ join (str " ") ps ++ str " ")
          /\ edit_of replacements text_ (m_span m2)
             = (m_span m2, str " " ++ join (str " ") ps ++ str " ")
          /\ (named_groups (re regex) = [] ->
              exists p, ps = [p]
                        /\ mapping s' !! p = Some (MkToken (group0 m1) token_class)))
    /\ text' = splice text_ 0 (map (edit_of replacements text_) (map m_span ms)).
Proof.
  intros Hok Hm1 Hm2 Hij Hg ms.
  pose proof (replace_regex_spec U draws fuel text_ regex token_class s) as Hspec.
  cbv zeta in Hspec. rewrite Hok in Hspec. fold ms in Hspec, Hm1, Hm2.
  destruct Hspec as (pss & Hf2 & Hnd & Hfresh & Hmap & _ & _ & ->).
  pose proof (finditer_string U regex text_) as Hstr. fold ms in Hstr.
  rewrite Forall_forall in Hstr.
  assert (Hlen : length ms = length pss) by (by eapply Forall2_length).
  assert (Hne : forall m0, length (parts_of m0) <> 0%nat).
  { intros m0. rewrite parts_of_length. destruct (decide (m_names m0 = [])); [done|].
    by destruct (m_names m0). }
  assert (Hall : forall k mk, ms !! k = Some mk ->
            exists psk,
              pss !! k = Some psk
              /\ length psk = length (parts_of mk) /\ psk <> []
              /\ Forall (fun p => is_placeholder p /\ mapping s !! p = None) psk
              /\ forall n p part, psk !! n = Some p -> parts_of mk !! n = Some part ->
                   mapping s' !! p = Some (MkToken part token_class)).
  { intros k mk Hk. destruct (Forall2_lookup_l _ _ _ _ _ Hf2 Hk) as (psk & Hpsk & Hl).
    exists psk. split_and!; [done | done | | |].
    - intros ->. by apply (Hne mk).
    - apply Forall_forall. intros p Hp. destruct (Hfresh p) as (H1 & _ & H3); [|done].
      apply elem_of_concat. exists psk. split; [by eapply list_elem_of_lookup_2 | done].
    - intros n p part Hn Hpart. rewrite Hmap.
      exact (register_all_concat_lookup parts_of ms pss token_class _ k mk psk n p part
               Hf2 Hnd Hk Hpsk Hn Hpart). }
  assert (Hone : named_groups (re regex) = [] -> forall k mk, ms !! k = Some mk ->
            exists p, pss !! k = Some [p]
                      /\ mapping s' !! p = Some (MkToken (group0 mk) token_class)).
  { intros Hno k mk Hk. destruct (Hall k mk Hk) as (psk & Hpsk & Hl & _ & _ & Hreg).
    assert (Hparts : parts_of mk = [group0 mk]).
    { apply parts_of_unnamed. destruct (Hstr mk) as [_ ->]; [|done].
      by eapply list_elem_of_lookup_2. }
    rewrite Hparts in Hl, Hreg. destruct psk as [|p [|? ?]]; try done.
    exists p. split; [done|]. by apply (Hreg 0%nat). }
  destruct (Hall i m1 Hm1) as (ps1 & Hps1 & _ & Hne1 & _).
  destruct (Hall j m2 Hm2) as (ps2 & Hps2 & _ & Hne2 & _).
  destruct (replacements_of_last ms pss i m1 Hlen Hm1)
    as (l & ps & Hlast & Hil & Hps & Hr).
  assert (Hlast' := Hlast). destruct Hlast' as [(m & Hm & Hgm) Hlater].
  assert (Hjl : (j <= l)%nat).
  { destruct (decide (j <= l)%nat) as [|Hgt]; [done|].
    destruct (Hlater j m2); [lia | done | done]. }
  exists pss, (replacements_of (zip ms pss) ∅). split_and!; [done | done | done | | | | done].
  - exists ps1, ps2. split_and!; try done.
    apply NoDup_app. split_and!.
    + eapply (NoDup_concat_elem pss); [done | by eapply list_elem_of_lookup_2].
    + intros p Hp1 Hp2. by eapply (NoDup_concat_disjoint pss i j).
    + eapply (NoDup_concat_elem pss); [done | by eapply list_elem_of_lookup_2].
  - intros Hno. destruct (Hone Hno i m1 Hm1) as (p1 & Hp1 & Hr1).
    destruct (Hone Hno j m2 Hm2) as (p2 & Hp2 & Hr2).
    exists p1, p2. split_and!; [done | done | | done | by rewrite Hg].
    intros ->. apply (NoDup_concat_disjoint pss i j [p2] [p2] p2 Hnd Hij Hp1 Hp2).
    + by apply list_elem_of_singleton.
    + by apply list_elem_of_singleton.
  - exists l, m, ps. split_and!; try done.
    + unfold edit_of. rewrite <- (group0_slice m1 text_).
      * by rewrite Hr.
      * apply Hstr. by eapply list_elem_of_lookup_2.
    + unfold edit_of. rewrite <- (group0_slice m2 text_).
      * by rewrite <- Hg, Hr.
      * apply Hstr. by eapply list_elem_of_lookup_2.
    + intros Hno. destruct (Hone Hno l m Hm) as (p & Hp & Hrp).
      exists p. rewrite Hps in Hp. injection Hp as ->. split; [done|]. by rewrite <- Hgm.
Qed.

Lemma replace_regex_same_instance_witness :
  exists text' s' m1 m2,
    _replace_regex ascii_tables count_up 1 (str "a.b.") dot "symbol" (State ∅ 0)
    = Ok text' s'
    /\ text' = str "a hijklmn b hijklmn "
    /\ finditer ascii_tables dot (str "a.b.") !! 0%nat = Some m1
    /\ finditer ascii_tables dot (str "a.b.") !! 1%nat = Some m2
    /\ group0 m1 = group0 m2
    /\ let ms := finditer ascii_tables dot (str "a.b.") in
       exists (pss : list (list text)) (replacements : gmap text text),
         length pss = length ms
         /\ NoDup (concat pss)
         /\ (forall k mk, ms !! k = Some mk ->
             exists psk,
               pss !! k = Some psk
               /\ length psk = length (parts_of mk) /\ psk <> []
               /\ Forall (fun p => is_placeholder p
                                   /\ (∅ : gmap text Token) !! p = None) psk
               /\ forall n p part, psk !! n = Some p -> parts_of mk !! n = Some part ->
                    mapping s' !! p = Some (MkToken part "symbol"))
         /\ (exists ps1 ps2,
               pss !! 0%nat = Some ps1 /\ pss !! 1%nat = Some ps2
               /\ ps1 <> [] /\ ps2 <> [] /\ NoDup (ps1 ++ ps2))
         /\ (named_groups (re dot) = [] ->
             exists p1 p2,
               pss !! 0%nat = Some [p1] /\ pss !! 1%nat = Some [p2] /\ p1 <> p2
               /\ mapping s' !! p1 = Some (MkToken (group0 m1) "symbol")
               /\ mapping s' !! p2 = Some (MkToken (group0 m1) "symbol"))
         /\ (exists l m ps,
               last_with ms (group0 m1) l /\ ms !! l = Some m
               /\ (0 <= l)%nat /\ (1 <= l)%nat
               /\ pss !! l = Some ps
               /\ replacements !! group0 m1 = Some (join (str " ") ps)
               /\ edit_of replacements (str "a.b.") (m_span m1)
                  = (m_span m1, str " " ++ join (str " ") ps ++ str " ")
               /\ edit_of replacements (str "a.b.") (m_span m2)
                  = (m_span m2, str " " ++ join (str " ") ps ++ str " ")
               /\ (named_groups (re dot) = [] ->
                   exists p, ps = [p]
                             /\ mapping s' !! p = Some (MkToken (group0 m1) "symbol")))
         /\ text' = splice (str "a.b.") 0
                      (map (edit_of replacements (str "a.b.")) (map m_span ms)).
Proof.
  eexists _, _, _, _.
  split; [vm_compute; reflexivity|].
  split; [vm_compute; reflexivity|].
  split; [vm_compute; reflexivity|].
  split; [vm_compute; reflexivity|].
  split; [vm_compute; reflexivity|].
  apply (replace_regex_same_instance ascii_tables count_up 1 (str "a.b.") dot "symbol"
           (State ∅ 0) _ _ 0 1).
  - vm_compute. reflexivity.
  - vm_compute. reflexivity.
  - vm_compute. reflexivity.
  - discriminate.
  - vm_compute. reflexivity.
Defined.
(** ** Multi-part abbreviations *)

Lemma lstrip_by_keep f (s : text) :
  match s with c :: _ => f c = false | [] => True end -> lstrip_by f s = s.
Proof. destruct s as [|c s]; [done|]. simpl. by intros ->. Qed.

Lemma rstrip_by_snoc_keep f (s : text) (c : N) :
  f c = false -> rstrip_by f (s ++ [c]) = s ++ [c].
Proof.
  intros Hc. unfold rstrip_by. rewrite rev_app_distr. simpl. rewrite Hc. simpl.
  by rewrite rev_involutive.
Qed.

Lemma rstrip_by_snoc_drop f (s : text) (c : N) :
  f c = true -> rstrip_by f (s ++ [c]) = rstrip_by f s.
Proof. intros Hc. unfold rstrip_by. rewrite rev_app_distr. simpl. by rewrite Hc. Qed.

Lemma strip_by_keep f (s : text) :
  Forall (fun c => f c = false) s -> strip_by f s = s.
Proof.
  intros H. unfold strip_by. rewrite lstrip_by_keep by (destruct H; done).
  induction s as [|c s _] using rev_ind; [done|].
  rewrite Forall_app, Forall_singleton in H. destruct H as [_ H].
  by apply rstrip_by_snoc_keep.
Qed.

Lemma split_on_aux_piece sep (piece l rest : text) :
  Forall (fun c => (c =? sep)%N = false) l ->
  split_on_aux sep piece (l ++ rest) = split_on_aux sep (reverse l ++ piece) rest.
Proof.
  revert piece. induction l as [|c l IH]; intros piece Hl; [done|].
  apply Forall_cons in Hl as [Hc Hl]. simpl. rewrite Hc, IH by done.
  by rewrite reverse_cons, <- app_assoc.
Qed.

Lemma split_on_join sep (ls : list text) :
  ls <> [] -> Forall (Forall (fun c => (c =? sep)%N = false)) ls ->
  split_on sep (join [sep] ls) = ls.
Proof.
  intros Hne H. unfold split_on. induction H as [|l ls Hl Hls IH]; [done|].
  destruct ls as [|l' ls].
  - change (join [sep] [l]) with l. rewrite <- (app_nil_r l) at 1.
    rewrite split_on_aux_piece by done. simpl. rewrite app_nil_r, rev_alt.
    change (rev_append (reverse l) []) with (reverse (reverse l)).
    by rewrite reverse_involutive.
  - change (join [sep] (l :: l' :: ls)) with (l ++ [sep] ++ join [sep] (l' :: ls)).
    rewrite split_on_aux_piece by done. simpl. rewrite N.eqb_refl.
    rewrite app_nil_r, rev_alt.
    change (rev_append (reverse l) []) with (reverse (reverse l)).
    rewrite reverse_involutive. f_equal. by apply IH.
Qed.

Lemma concat_groups_join (ls : list text) :
  ls <> [] -> concat (map (fun l => l ++ [46%N]) ls) = join [46%N] ls ++ [46%N].
Proof.
  induction ls as [|l ls IH]; [done|]. intros _. destruct ls as [|l' ls].
  - simpl. by rewrite app_nil_r.
  - change (join [46%N] (l :: l' :: ls)) with (l ++ [46%N] ++ join [46%N] (l' :: ls)).
    simpl map. simpl concat. simpl in IH. rewrite IH by done. by rewrite <- !app_assoc.
Qed.

Lemma join_last_letter U (ls : list text) :
  ls <> [] -> Forall (is_letters U) ls ->
  exists s c, join [46%N] ls = s ++ [c] /\ is_alpha U c = true.
Proof.
  induction ls as [|l ls IH]; [done|]. intros _ H.
  apply Forall_cons in H as [[Hne Hl] Hls]. destruct ls as [|l' ls].
  - change (join [46%N] [l]) with l. induction l as [|c l _] using rev_ind; [done|].
    exists l, c. split; [done|]. rewrite Forall_app, Forall_singleton in Hl.
    by destruct Hl.
  - destruct IH as (s & c & Hs & Hc); [done | done|].
    change (join [46%N] (l :: l' :: ls)) with (l ++ [46%N] ++ join [46%N] (l' :: ls)).
    rewrite Hs. exists (l ++ [46%N] ++ s), c. split; [by rewrite <- !app_assoc | done].
Qed.

Lemma join_first_letter U (ls : list text) :
  ls <> [] -> Forall (is_letters U) ls ->
  exists c s, join [46%N] ls = c :: s /\ is_alpha U c = true.
Proof.
  destruct ls as [|l ls]; [done|]. intros _ H.
  apply Forall_cons in H as [[Hne Hl] Hls]. destruct l as [|c l]; [done|].
  apply Forall_cons in Hl as [Hc Hl].
  destruct ls as [|l' ls]; [by exists c, l|].
  change (join [46%N] ((c :: l) :: l' :: ls))
    with (c :: l ++ [46%N] ++ join [46%N] (l' :: ls)). by eexists _, _.
Qed.

(** The parts of an instance made of letter-dot groups are its
    groups. *)
Lemma abbreviation_parts_groups U (ls : list text) (instance : text) :
  letters_ok U -> ls <> [] -> letter_dot_groups U ls instance ->
  abbreviation_parts instance = map (fun l => l ++ [46%N]) ls.
Proof.
  intros [Hdot Hsp] Hne [Hls ->]. unfold abbreviation_parts.
  assert (Hf : forall c, is_alpha U c = true -> bool_decide (c ∈ str ".") = false).
  { intros c Hc. apply bool_decide_eq_false. intros Hin.
    change (str ".") with [46%N] in Hin. apply list_elem_of_singleton in Hin. congruence. }
  assert (Hstrip : strip_chars (str ".") (concat (map (fun l => l ++ [46%N]) ls))
                   = join [46%N] ls).
  { rewrite concat_groups_join by done. unfold strip_chars, strip_by.
    destruct (join_first_letter U ls Hne Hls) as (c & s & Hj & Hc).
    rewrite lstrip_by_keep by (rewrite Hj; simpl; by apply Hf).
    rewrite rstrip_by_snoc_drop by done.
    destruct (join_last_letter U ls Hne Hls) as (s' & c' & Hj' & Hc').
    rewrite Hj'. apply rstrip_by_snoc_keep. by apply Hf. }
  rewrite Hstrip, split_on_join; [|done|].
  - apply map_ext_in. intros l Hl. f_equal. unfold strip. apply strip_by_keep.
    rewrite Forall_forall in Hls. apply list_elem_of_In in Hl.
    destruct (Hls l Hl) as [_ Hall]. eapply Forall_impl; [exact Hall|].
    intros c Hc. by apply Hsp.
  - apply Forall_forall. intros l Hl. rewrite Forall_forall in Hls.
    destruct (Hls l Hl) as [_ Hall]. eapply Forall_impl; [exact Hall|].
    intros c Hc. simpl. apply N.eqb_neq. intros ->. congruence.
Qed.

(** What [multipart_abbreviation.fullmatch] accepts is made of two or
    more letter-dot groups. *)
Lemma multipart_fullmatch_groups U (instance : text) :
  fullmatch U multipart_abbreviation instance = true ->
  exists ls, (2 <= length ls)%nat /\ letter_dot_groups U ls instance.
Proof.
  intros H. apply fullmatch_sound in H. cbn in H.
  destruct H as (pieces & -> & Hlen & Hp).
  assert (Hg : Forall (fun piece => exists l, is_letters U l /\ piece = l ++ [46%N]) pieces).
  { eapply Forall_impl; [exact Hp|]. intros piece (s1 & s2 & -> & H1 & H2).
    destruct H1 as (letters & -> & Hl1 & Hl).
    destruct H2 as (c' & -> & Hc). exists (concat letters). split.
    - split.
      + destruct letters as [|l letters]; [simpl in Hl1; lia|].
        apply Forall_cons in Hl as [(c & -> & _) _]. done.
      + clear Hl1. induction Hl as [|l letters (c & -> & Hc0) Hl IH]; [constructor|].
        simpl. constructor; [|done]. unfold set_has in Hc0. simpl in Hc0.
        by rewrite !orb_false_r in Hc0.
    - f_equal. f_equal. unfold chr_eq in Hc. rewrite andb_false_l, orb_false_r in Hc.
      apply N.eqb_eq in Hc. by rewrite <- Hc. }
  clear Hp. revert Hlen. generalize 2%nat. induction Hg as [|piece pieces (l & Hl & ->) Hg IH];
    intros n Hn.
  - exists []. split; [done|]. split; [constructor | done].
  - destruct (IH (Nat.pred n)) as (ls & Hlen & Hls & Heq); [simpl in Hn; lia|].
    exists (l :: ls). split; [simpl in *; lia|]. split; [by constructor|].
    simpl. by rewrite Heq.
Qed.

(** *** The matcher finds letter-dot groups *)

Lemma jump_nil st : jump [] st = st.
Proof. destruct st. unfold jump. simpl. by rewrite Nat.add_0_r. Qed.

Lemma jump_app m1 m2 st rest :
  after st = m1 ++ m2 ++ rest -> jump (m1 ++ m2) st = jump m2 (jump m1 st).
Proof.
  intros H. unfold jump. simpl. rewrite reverse_app, length_app, <- app_assoc, drop_drop.
  f_equal. lia.
Qed.

Lemma jump_after mid st rest : after st = mid ++ rest -> after (jump mid st) = rest.
Proof. intros H. unfold jump. simpl. by rewrite H, drop_app_length. Qed.

Lemma advance_jump st c a : after st = c :: a -> advance st = jump [c] st.
Proof. intros H. unfold advance, jump. rewrite H. simpl. f_equal. lia. Qed.

(** A greedy repetition succeeds when the text starts with pieces
    that the step can consume one by one. *)
Lemma iter_complete step (pieces : list text) lo fuel k st rest :
  (forall piece, piece ∈ pieces ->
     piece <> [] /\
     forall k st rest', after st = piece ++ rest' ->
       is_Some (k (jump piece st)) -> is_Some (step k st)) ->
  (lo <= length pieces)%nat -> (length pieces < fuel)%nat ->
  after st = concat pieces ++ rest ->
  is_Some (k (jump (concat pieces) st)) ->
  is_Some (iter step lo None false fuel k st).
Proof.
  revert lo fuel st. induction pieces as [|p ps IH]; intros lo fuel st Hstep Hlo Hfuel Ha Hk.
  - destruct fuel as [|fuel]; [lia|]. destruct lo; [|simpl in Hlo; lia].
    simpl in *. rewrite jump_nil in Hk.
    by destruct (step _ st).
  - destruct fuel as [|fuel]; [lia|]. simpl in Ha, Hk, Hfuel, Hlo.
    destruct (Hstep p) as [Hne Hp]; [by left|].
    assert (Hrec : forall lo', (lo' <= length ps)%nat ->
              is_Some (iter step lo' None false fuel k (jump p st))).
    { intros lo' Hlo'. eapply IH.
      - intros piece Hin. apply Hstep. by right.
      - done.
      - lia.
      - rewrite <- app_assoc in Ha. by eapply jump_after.
      - rewrite <- app_assoc in Ha. by rewrite <- (jump_app _ _ _ _ Ha). }
    rewrite <- app_assoc in Ha.
    destruct lo as [|lo]; simpl.
    + assert (Hs : is_Some (step (fun st' => if Nat.eqb (pos st') (pos st) then None
                              else iter step 0 None false fuel k st') st)).
      { eapply Hp; [done|]. simpl.
        destruct (Nat.eqb (pos st + length p) (pos st)) eqn:E.
        - apply Nat.eqb_eq in E. destruct p; [done | simpl in E; lia].
        - apply Hrec. lia. }
      destruct Hs as [r ->]. by eexists.
    + eapply Hp; [done|]. apply Hrec. lia.
Qed.

Lemma length_concat_groups (ls : list text) :
  (length ls <= length (concat (map (fun l => l ++ [46%N]) ls)))%nat.
Proof.
  induction ls as [|l ls IH]; simpl; [done|]. rewrite !length_app. simpl. lia.
Qed.

Lemma letter_dot_step U (l : text) k st rest :
  is_letters U l -> after st = (l ++ [46%N]) ++ rest ->
  is_Some (k (jump (l ++ [46%N]) st)) ->
  is_Some (exec U false (cat [plus alpha_; lit "."]) k st).
Proof.
  intros [Hne Hl] Ha Hk.
  change (exec U false (cat [plus alpha_; lit "."]) k st)
    with (iter (one (set_has U false false [Alpha])) 1 None false
            (1 + length (after st) + 1) (one (chr_eq U false 46) k) st).
  assert (Hc : l = concat (map (fun c => [c]) l)).
  { clear. induction l as [|c l IH]; [done|]. simpl. by rewrite <- IH. }
  rewrite <- app_assoc in Ha.
  eapply (iter_complete _ (map (fun c => [c]) l) _ _ _ _ ([46%N] ++ rest)).
  - intros piece Hin. apply list_elem_of_fmap in Hin as (c & -> & Hin).
    split; [done|]. intros k' st' rest' Ha' Hk'. unfold one. rewrite Ha'. simpl.
    rewrite Forall_forall in Hl. unfold set_has. simpl. rewrite (Hl c Hin). simpl.
    by rewrite (advance_jump st' c rest').
  - rewrite length_map. destruct l; [done | simpl; lia].
  - rewrite length_map, Ha, length_app. lia.
  - by rewrite <- Hc.
  - rewrite <- Hc. unfold one. rewrite (jump_after l st ([46%N] ++ rest)) by done.
    simpl.
    rewrite (advance_jump _ 46%N rest) by (by eapply jump_after).
    by rewrite <- (jump_app _ _ _ _ Ha).
Qed.

Lemma multipart_fullmatch_complete U (ls : list text) (instance : text) :
  (2 <= length ls)%nat -> letter_dot_groups U ls instance ->
  fullmatch U multipart_abbreviation instance = true.
Proof.
  intros Hlen [Hls ->]. unfold fullmatch. apply bool_decide_eq_true.
  set (s := concat (map (fun l => l ++ [46%N]) ls)).
  change (is_Some (iter (exec U false (cat [plus alpha_; lit "."])) 2 None false
                     (2 + length s + 1)
                     (fun st' => match after st' with [] => Some st' | _ => None end)
                     (MState [] s 0 []))).
  eapply (iter_complete _ (map (fun l => l ++ [46%N]) ls) _ _ _ _ []).
  - intros piece Hin. apply list_elem_of_fmap in Hin as (l & -> & Hin). split.
    + by destruct l.
    + intros k st rest Ha Hk. rewrite Forall_forall in Hls.
      eapply letter_dot_step; [by apply Hls | done | done].
  - by rewrite length_map.
  - rewrite length_map. pose proof (length_concat_groups ls). fold s in H. lia.
  - simpl. by rewrite app_nil_r.
  - fold s. rewrite (jump_after s _ []) by (simpl; by rewrite app_nil_r). done.
Qed.
Lemma ascii_letters_ok : letters_ok ascii_tables.
Proof.
  split; [done|]. intros c. unfold ascii_tables, isspace. simpl.
  rewrite !orb_true_iff, !andb_true_iff, !orb_false_iff, !andb_false_iff.
  rewrite !N.leb_le, !N.leb_gt, !N.eqb_neq. lia.
Qed.

(** C5, as stated, fails in its last part: a lexicon phrase that is
    not made of single-letter-dot groups can be split all the same.
    With Ph.D. in the abbreviation lexicon, the instance Ph.D. becomes
    the two tokens Ph. and D. *)
Lemma lexicon_phrase_is_split :
  exists text' s',
    str "Ph.D." ∈ abbreviation_list (sample_tokenizer false true)
    /\ _replace_abbreviations ascii_tables count_up (sample_tokenizer false true) 1
         (str "Ph.D.") (State ∅ 0) = Ok text' s'
    /\ text' = str " abcdefg hijklmn "
    /\ mapping s' !! str "abcdefg" = Some (MkToken (str "Ph.") "abbreviation")
    /\ mapping s' !! str "hijklmn" = Some (MkToken (str "D.") "abbreviation")
    /\ ~ exists letters : text, str "Ph.D." = concat (map (fun c => [c; 46%N]) letters).
Proof.
  eexists _, _. split; [by vm_compute; repeat constructor|].
  split; [vm_compute; reflexivity|].
  split_and!; try by vm_compute.
  intros ([|c [|c' letters]] & H); vm_compute in H; discriminate.
Qed.

(** C5, amended.  In the last pass of [_replace_abbreviations] a
    matched instance is split exactly when it is made of two or more
    groups of one or more letters followed by a full stop: each group
    is then registered as a token of its own with the class
    abbreviation; in particular an instance of two or more
    single-letter-dot groups such as z.B. gives one token per letter
    and its full stop.  A matched instance that is not of this shape is
    registered as a single token of the class abbreviation.  The
    placeholders of the pass are pairwise different, new to the mapping
    and absent from the text, and the pass changes no other entry of
    the mapping.  In the new text every instance is replaced, between
    two spaces, by the placeholders of the last match with the same
    text, joined by single spaces, which are as many as its own. *)
Theorem abbreviation_instances_split (U : unicode) (draws : nat -> nat) (self : Tokenizer)
    (fuel : nat) (text_ : text) (s : state) (text' : text) (s' : state) :
  letters_ok U ->
  replace_abbreviation_instances U draws self fuel text_ s = Ok text' s' ->
  let ms := finditer U (abbreviation (abbreviation_list self)) text_ in
  exists (pss : list (list text)) (rep : text -> text),
    length pss = length ms
    /\ NoDup (concat pss)
    /\ (forall p, p ∈ concat pss ->
          is_placeholder p /\ mapping s !! p = None /\ ~ substring p text_)
    /\ (forall q, q ∉ concat pss -> mapping s' !! q = mapping s !! q)
    /\ (forall i m, ms !! i = Some m ->
        exists ps,
          pss !! i = Some ps
          /\ group0 m = slice text_ (m_span m).1 (m_span m).2
          /\ (forall ls, (2 <= length ls)%nat -> letter_dot_groups U ls (group0 m) ->
                length ps = length ls
                /\ forall j p l, ps !! j = Some p -> ls !! j = Some l ->
                     mapping s' !! p = Some (MkToken (l ++ [46%N]) "abbreviation"))
          /\ (forall letters : text, (2 <= length letters)%nat ->
                Forall (fun c => is_alpha U c = true) letters ->
                group0 m = concat (map (fun c => [c; 46%N]) letters) ->
                length ps = length letters
                /\ forall j p c, ps !! j = Some p -> letters !! j = Some c ->
                     mapping s' !! p = Some (MkToken [c; 46%N] "abbreviation"))
          /\ ((~ exists ls, (2 <= length ls)%nat /\ letter_dot_groups U ls (group0 m)) ->
                exists p, ps = [p]
                          /\ mapping s' !! p = Some (MkToken (group0 m) "abbreviation"))
          /\ exists l psl,
               last_with ms (group0 m) l /\ (i <= l)%nat /\ pss !! l = Some psl
               /\ length psl = length ps
               /\ rep (group0 m) = join (str " ") psl)
    /\ text' = splice text_ 0
                 (map (fun m => (m_span m, str " " ++ rep (group0 m) ++ str " ")) ms).
Proof.
  intros Hok Hrun ms. rewrite replace_abbreviation_instances_replace_with in Hrun.
  fold ms in Hrun.
  pose proof (finditer_strings U (abbreviation (abbreviation_list self)) text_) as Hstr.
  fold ms in Hstr.
  destruct (replace_with_matches draws fuel text_ "abbreviation" (abbreviation_parts_of U)
              ms s text' s' (finditer_tiled U _ _) Hstr Hrun)
    as (pss & rep & Hf2 & Hnd & Hfresh & Hother & Hreg0 & Hrep & Htext).
  rewrite Forall_forall in Hstr.
  exists pss, rep.
  split_and!; [symmetry; by eapply Forall2_length | done | | done | | done].
  { intros p Hp. destruct (Hfresh p Hp) as (H1 & H2 & H3). done. }
  intros i m Hm.
  destruct (Forall2_lookup_l _ _ _ _ _ Hf2 Hm) as (ps & Hps & Hlen).
  assert (Hreg : forall j p part, ps !! j = Some p ->
            abbreviation_parts_of U m !! j = Some part ->
            mapping s' !! p = Some (MkToken part "abbreviation")).
  { intros j p part Hj Hpart. by eapply (Hreg0 i m ps j p part). }
  assert (Hgroups : forall ls, (2 <= length ls)%nat -> letter_dot_groups U ls (group0 m) ->
            length ps = length ls
            /\ forall j p l, ps !! j = Some p -> ls !! j = Some l ->
                 mapping s' !! p = Some (MkToken (l ++ [46%N]) "abbreviation")).
  { intros ls Hls Hshape.
    assert (Hparts : abbreviation_parts_of U m = map (fun l => l ++ [46%N]) ls).
    { unfold abbreviation_parts_of.
      rewrite (multipart_fullmatch_complete U ls) by done.
      apply (abbreviation_parts_groups U ls); [done | | done]. intros ->. simpl in Hls. lia. }
    rewrite Hparts in Hlen, Hreg. rewrite length_map in Hlen. split; [done|].
    intros j p l Hj Hl. apply (Hreg j); [done|]. rewrite list_lookup_fmap, Hl. done. }
  exists ps. split_and!.
  - done.
  - apply group0_slice, Hstr. by eapply list_elem_of_lookup_2.
  - done.
  - intros letters Hl2 Hall Hg.
    destruct (Hgroups (map (fun c => [c]) letters)) as [Hl Hr].
    + by rewrite length_map.
    + split.
      * apply Forall_forall. intros l Hl. apply list_elem_of_fmap in Hl as (c & -> & Hc).
        split; [done|]. constructor; [|constructor]. rewrite Forall_forall in Hall.
        by apply Hall.
      * rewrite Hg. by rewrite map_map.
    + rewrite length_map in Hl. split; [done|]. intros j p c Hj Hc.
      apply (Hr j p [c]); [done|]. by rewrite list_lookup_fmap, Hc.
  - intros Hno. assert (Hfm : fullmatch U multipart_abbreviation (group0 m) = false).
    { destruct (fullmatch U multipart_abbreviation (group0 m)) eqn:E; [|done].
      exfalso. apply Hno. by apply multipart_fullmatch_groups. }
    unfold abbreviation_parts_of in Hlen, Hreg. rewrite Hfm in Hlen, Hreg.
    destruct ps as [|p [|p' ps]]; try done. exists p. split; [done|].
    by apply (Hreg 0%nat).
  - destruct (Hrep i m Hm) as (l & psl & Hlast & Hil & Hpsl & Hr).
    exists l, psl. split_and!; try done.
    destruct Hlast as [(ml & Hml & Hg) _].
    rewrite (Forall2_lookup_lr _ ms pss l ml psl Hf2 Hml Hpsl), Hlen.
    unfold abbreviation_parts_of. by rewrite Hg.
Qed.

Lemma abbreviation_instances_split_witness :
  exists text' s',
    letters_ok ascii_tables
    /\ replace_abbreviation_instances ascii_tables count_up (sample_tokenizer false true) 1
         (str "z.B. usw.") (State ∅ 0) = Ok text' s'
    /\ text' = str " abcdefg hijklmn   opqrstu "
    /\ mapping s' !! str "abcdefg" = Some (MkToken (str "z.") "abbreviation")
    /\ mapping s' !! str "hijklmn" = Some (MkToken (str "B.") "abbreviation")
    /\ mapping s' !! str "opqrstu" = Some (MkToken (str "usw.") "abbreviation")
    /\ let ms := finditer ascii_tables
                   (abbreviation (abbreviation_list (sample_tokenizer false true)))
                   (str "z.B. usw.") in
       exists (pss : list (list text)) (rep : text -> text),
         length pss = length ms
         /\ NoDup (concat pss)
         /\ (forall p, p ∈ concat pss ->
               is_placeholder p /\ (∅ : gmap text Token) !! p = None
               /\ ~ substring p (str "z.B. usw."))
         /\ (forall q, q ∉ concat pss -> mapping s' !! q = (∅ : gmap text Token) !! q)
         /\ (forall i m, ms !! i = Some m ->
             exists ps,
               pss !! i = Some ps
               /\ group0 m = slice (str "z.B. usw.") (m_span m).1 (m_span m).2
               /\ (forall ls, (2 <= length ls)%nat ->
                     letter_dot_groups ascii_tables ls (group0 m) ->
                     length ps = length ls
                     /\ forall j p l, ps !! j = Some p -> ls !! j = Some l ->
                          mapping s' !! p = Some (MkToken (l ++ [46%N]) "abbreviation"))
               /\ (forall letters : text, (2 <= length letters)%nat ->
                     Forall (fun c => is_alpha ascii_tables c = true) letters ->
                     group0 m = concat (map (fun c => [c; 46%N]) letters) ->
                     length ps = length letters
                     /\ forall j p c, ps !! j = Some p -> letters !! j = Some c ->
                          mapping s' !! p = Some (MkToken [c; 46%N] "abbreviation"))
               /\ ((~ exists ls, (2 <= length ls)%nat
                                 /\ letter_dot_groups ascii_tables ls (group0 m)) ->
                     exists p, ps = [p]
                               /\ mapping s' !! p
                                  = Some (MkToken (group0 m) "abbreviation"))
               /\ exists l psl,
                    last_with ms (group0 m) l /\ (i <= l)%nat /\ pss !! l = Some psl
                    /\ length psl = length ps
                    /\ rep (group0 m) = join (str " ") psl)
         /\ text' = splice (str "z.B. usw.") 0
                      (map (fun m => (m_span m, str " " ++ rep (group0 m) ++ str " ")) ms).
Proof.
  eexists _, _. split; [apply ascii_letters_ok|].
  split; [vm_compute; reflexivity|]. split; [reflexivity|].
  split; [by vm_compute|]. split; [by vm_compute|]. split; [by vm_compute|].
  eapply (abbreviation_instances_split ascii_tables count_up (sample_tokenizer false true) 1
            (str "z.B. usw.") (State ∅ 0)).
  - apply ascii_letters_ok.
  - vm_compute. reflexivity.
Defined.
(** ** The final split *)

Lemma splits_space_cons (c : N) (s : text) (words : list text) :
  isspace c = true -> splits s words -> splits (c :: s) words.
Proof.
  intros Hc H. destruct H as [sp Hsp | sp w rest words Hsp Hw Hrest H].
  - apply splits_end. by constructor.
  - change (c :: sp ++ w ++ rest) with ((c :: sp) ++ w ++ rest).
    apply splits_word; [by constructor | done | done | done].
Qed.

Lemma split_ws_splits (acc s : text) :
  Forall (fun c => isspace c = false) acc ->
  splits (reverse acc ++ s) (split_ws acc s).
Proof.
  revert acc. induction s as [|c s IH]; intros acc Hacc; simpl.
  - destruct acc as [|a acc].
    + apply splits_end. constructor.
    + rewrite app_nil_r, rev_alt.
      change (rev_append (a :: acc) []) with (reverse (a :: acc)).
      rewrite <- (app_nil_l (reverse (a :: acc))), <- (app_nil_r (reverse (a :: acc))) at 1.
      apply splits_word; [constructor | | done | apply splits_end; constructor].
      split.
      * intros H. apply (f_equal reverse) in H. by rewrite reverse_involutive in H.
      * by apply Forall_reverse.
  - destruct (isspace c) eqn:Hc.
    + destruct acc as [|a acc].
      * simpl. apply splits_space_cons; [done|]. by apply (IH []).
      * rewrite rev_alt. change (rev_append (a :: acc) []) with (reverse (a :: acc)).
        rewrite <- (app_nil_l (reverse (a :: acc) ++ c :: s)).
        apply splits_word; [constructor | | done |].
        -- split.
           ++ intros H. apply (f_equal reverse) in H. by rewrite reverse_involutive in H.
           ++ by apply Forall_reverse.
        -- apply splits_space_cons; [done|]. by apply (IH []).
    + specialize (IH (c :: acc)). rewrite reverse_cons, <- app_assoc in IH.
      apply IH. by constructor.
Qed.

Lemma split_splits (s : text) : splits s (split s).
Proof. apply (split_ws_splits [] s). constructor. Qed.

Lemma split_ws_spaces (acc sp : text) :
  Forall (fun c => isspace c = true) sp -> split_ws acc sp = split_ws acc [].
Proof.
  intros H. revert acc. induction H as [|c sp Hc H IH]; intros acc; [done|].
  simpl. rewrite Hc. destruct acc; [apply IH|]. by rewrite IH.
Qed.

Lemma split_ws_app_spaces (acc s sp : text) :
  Forall (fun c => isspace c = true) sp -> split_ws acc (s ++ sp) = split_ws acc s.
Proof.
  intros H. revert acc. induction s as [|c s IH]; intros acc.
  - by apply split_ws_spaces.
  - simpl. destruct (isspace c); [|apply IH]. destruct acc; [apply IH | by rewrite IH].
Qed.

Lemma lstrip_by_decompose f (s : text) :
  exists sp, s = sp ++ lstrip_by f s /\ Forall (fun c => f c = true) sp.
Proof.
  induction s as [|c s (sp & IH & Hsp)]; simpl.
  - exists []. split; [done | constructor].
  - destruct (f c) eqn:Hc.
    + exists (c :: sp). split; [simpl; by rewrite <- IH | by constructor].
    + exists []. split; [done | constructor].
Qed.

Lemma rstrip_by_decompose f (s : text) :
  exists sp, s = rstrip_by f s ++ sp /\ Forall (fun c => f c = true) sp.
Proof.
  unfold rstrip_by. destruct (lstrip_by_decompose f (rev s)) as (sp & H & Hsp).
  exists (rev sp). split.
  - apply (f_equal (@rev N)) in H. by rewrite rev_involutive, rev_app_distr in H.
  - rewrite rev_alt. change (rev_append sp []) with (reverse sp). by apply Forall_reverse.
Qed.

Lemma strip_by_decompose f (s : text) :
  exists sp1 sp2, s = sp1 ++ strip_by f s ++ sp2
                  /\ Forall (fun c => f c = true) sp1 /\ Forall (fun c => f c = true) sp2.
Proof.
  unfold strip_by. destruct (lstrip_by_decompose f s) as (sp1 & H1 & Hsp1).
  destruct (rstrip_by_decompose f (lstrip_by f s)) as (sp2 & H2 & Hsp2).
  exists sp1, sp2. split; [|done]. by rewrite <- H2.
Qed.

Lemma split_strip (s : text) : split (strip s) = split s.
Proof.
  unfold strip. destruct (strip_by_decompose isspace s) as (sp1 & sp2 & H & H1 & H2).
  rewrite H at 2. unfold split.
  assert (Hl : forall t, split_ws [] (sp1 ++ t) = split_ws [] t).
  { intros t. clear H. induction H1 as [|c sp1 Hc H1 IH]; [done|]. simpl. by rewrite Hc. }
  by rewrite Hl, split_ws_app_spaces.
Qed.

Lemma substring_strip_by f (s : text) : substring (strip_by f s) s.
Proof. destruct (strip_by_decompose f s) as (sp1 & sp2 & H & _). by exists sp1, sp2. Qed.

Lemma splits_substring (s : text) (words : list text) (w : text) :
  splits s words -> w ∈ words -> substring w s.
Proof.
  induction 1 as [sp Hsp | sp w0 rest words Hsp Hw Hrest H IH]; intros Hin.
  - by apply elem_of_nil in Hin.
  - apply elem_of_cons in Hin as [-> | Hin].
    + by exists sp, rest.
    + eapply substring_trans; [by apply IH|]. exists (sp ++ w0), [].
      by rewrite app_nil_r, <- app_assoc.
Qed.

(** What a returning call of [tokenize] has done: cleared the mapping,
    run the pipeline, and looked up the words of the final text. *)
Lemma tokenize_Ok (U : unicode) (draws : nat -> nat) (self : Tokenizer)
    (fuel : nat) (paragraph : text) (s : state) (out : output) (s' : state) :
  tokenize U draws self fuel paragraph s = Ok out s' ->
  exists final_text : text,
    run U draws self fuel (stages self) paragraph (State ∅ (drawn s)) = Ok final_text s'
    /\ let tokens := map (fun w => default (MkToken w "regular") (mapping s' !! w))
                       (split (strip final_text)) in
       out = if token_classes self then Classified tokens else Plain (map token tokens).
Proof.
  unfold tokenize. intros H.
  apply bind_Ok in H as ([] & s0 & Hreset & H). injection Hreset as <-.
  apply bind_Ok in H as (final_text & s1 & Hrun & H).
  apply bind_Ok in H as (tokens & s2 & Hre & H).
  unfold _reintroduce_instances in Hre. injection Hre as <- <-.
  exists final_text.
  assert (Hs : s1 = s' /\ out = if token_classes self
                                 then Classified (map (fun t => default (MkToken t "regular")
                                                                  (mapping s1 !! t))
                                                    (split (strip final_text)))
                                 else Plain (map token
                                               (map (fun t => default (MkToken t "regular")
                                                                (mapping s1 !! t))
                                                  (split (strip final_text))))).
  { destruct (token_classes self); by injection H as <- <-. }
  by destruct Hs as [<- ->].
Qed.

(** C6.  When [tokenize] returns, the pipeline has returned a final
    working text; the tokens are the maximal runs of non-whitespace
    characters of that text, in their order from left to right, each
    looked up in the mapping and replaced by a token of the class
    regular when it is no key; without [token_classes] only the texts
    of these tokens are returned, in the same order. *)
Theorem tokenize_final_step (U : unicode) (draws : nat -> nat) (self : Tokenizer)
    (fuel : nat) (paragraph : text) (s : state) (out : output) (s' : state) :
  tokenize U draws self fuel paragraph s = Ok out s' ->
  exists (final_text : text) (words : list text),
    run U draws self fuel (stages self) paragraph (State ∅ (drawn s)) = Ok final_text s'
    /\ words = split (strip final_text)
    /\ splits final_text words
    /\ let tokens := map (fun w => default (MkToken w "regular") (mapping s' !! w)) words in
       out = if token_classes self then Classified tokens else Plain (map token tokens).
Proof.
  intros H. apply tokenize_Ok in H as (final_text & Hrun & Hout).
  exists final_text, (split (strip final_text)).
  split_and!; [done | done | | done].
  rewrite split_strip. apply split_splits.
Qed.

Lemma tokenize_final_step_witness :
  exists out s',
    tokenize ascii_tables count_up (sample_tokenizer false true) 1
      (str "Er kommt um 17:30 Uhr.") (State ∅ 0) = Ok out s'
    /\ out = Classified [MkToken (str "Er") "regular"; MkToken (str "kommt") "regular";
                         MkToken (str "um") "regular"; MkToken (str "17:30") "time";
                         MkToken (str "Uhr") "regular"; MkToken (str ".") "symbol"]
    /\ exists (final_text : text) (words : list text),
         run ascii_tables count_up (sample_tokenizer false true) 1
           (stages (sample_tokenizer false true)) (str "Er kommt um 17:30 Uhr.")
           (State ∅ 0) = Ok final_text s'
         /\ words = split (strip final_text)
         /\ splits final_text words
         /\ out = Classified (map (fun w => default (MkToken w "regular") (mapping s' !! w))
                                words).
Proof.
  eexists _, _. split; [vm_compute; reflexivity|]. split; [reflexivity|].
  apply (tokenize_final_step ascii_tables count_up (sample_tokenizer false true) 1
           (str "Er kommt um 17:30 Uhr.") (State ∅ 0)).
  vm_compute. reflexivity.
Defined.
(** ** Where the texts of the tokens come from *)


Lemma register_all_lookup_inv (ps parts : list text) (token_class : string)
    (m : gmap text Token) (p : text) (tok : Token) :
  register_all ps parts token_class m !! p = Some tok ->
  m !! p = Some tok \/ exists part, part ∈ parts /\ tok = MkToken part token_class.
Proof.
  revert parts m. induction ps as [|p0 ps IH]; intros [|part parts] m H; try (by left).
  change (register_all ps parts token_class (<[p0 := MkToken part token_class]> m) !! p
          = Some tok) in H.
  apply IH in H as [H | (part' & Hin & ->)].
  - destruct (decide (p0 = p)) as [-> | Hne].
    + rewrite lookup_insert_eq in H. injection H as <-. right. exists part.
      split; [by left | done].
    + rewrite lookup_insert_ne in H by done. by left.
  - right. exists part'. split; [by right | done].
Qed.

Lemma group_substring (m : Match) (i : nat) : substring (group m i) (m_string m).
Proof.
  unfold group. destruct (assoc i (m_groups m)) as [[b e]|].
  - apply substring_slice.
  - by exists [], (m_string m).
Qed.

Lemma parts_of_substring (m : Match) (part : text) :
  part ∈ parts_of m -> substring part (m_string m).
Proof.
  unfold parts_of. destruct (0 <? length (groupdict m))%nat.
  - intros H. apply list_elem_of_fmap in H as ([name v] & -> & H).
    unfold sorted_items in H. rewrite merge_sort_Permutation in H.
    unfold groupdict in H. apply list_elem_of_fmap in H as ([name' i] & [= -> ->] & _).
    apply group_substring.
  - intros H. apply list_elem_of_singleton in H as ->. apply substring_slice.
Qed.

Lemma group_in_concat (ls : list text) (l : text) :
  l ∈ ls -> substring (l ++ [46%N]) (concat (map (fun l => l ++ [46%N]) ls)).
Proof.
  induction ls as [|l0 ls IH]; intros H; [by apply elem_of_nil in H|].
  apply elem_of_cons in H as [-> | H]; simpl.
  - exists [], (concat (map (fun l => l ++ [46%N]) ls)). done.
  - destruct (IH H) as (a & b & ->). exists ((l0 ++ [46%N]) ++ a), b.
    by rewrite <- !app_assoc.
Qed.


Section Provenance.
Context (U : unicode) (draws : nat -> nat) (self : Tokenizer).
Context (Hok : letters_ok U).



End Provenance.
(** ** Captures lie inside the match *)

Lemma within_weaken b e b' e' g :
  (b' <= b)%nat -> (e <= e')%nat -> within b e g -> within b' e' g.
Proof. unfold within. lia. Qed.

Lemma moved_pos st mid st' : moved st mid st' -> (pos st <= pos st')%nat.
Proof. intros (_ & _ & ->). lia. Qed.

Lemma grouped_refl gf st : grouped gf st st.
Proof. exists []. split_and!; [done | constructor | done]. Qed.

Lemma grouped_trans gf1 gf2 st1 st2 st3 :
  (pos st1 <= pos st2)%nat -> (pos st2 <= pos st3)%nat ->
  grouped gf1 st1 st2 -> grouped gf2 st2 st3 -> grouped (gf1 && gf2) st1 st3.
Proof.
  intros H12 H23 (n1 & E1 & F1 & G1) (n2 & E2 & F2 & G2).
  exists (n2 ++ n1). split_and!.
  - by rewrite E2, E1, app_assoc.
  - apply Forall_app. split.
    + eapply Forall_impl; [done|]. intros g. apply within_weaken; lia.
    + eapply Forall_impl; [done|]. intros g. apply within_weaken; lia.
  - intros [-> ->]%andb_true_iff. by rewrite G1, G2.
Qed.

Lemma grouped_weaken gf st st' : grouped gf st st' -> grouped false st st'.
Proof. intros (n & E & F & _). by exists n. Qed.

Lemma grouped_same gf gf' st st' : gf' = gf -> grouped gf st st' -> grouped gf' st st'.
Proof. by intros ->. Qed.

Lemma grouped_advance st c a : after st = c :: a -> grouped true st (advance st).
Proof.
  intros H. exists []. unfold advance. rewrite H. split_and!; [done | constructor | done].
Qed.

Section GroupFacts.
Context (U : unicode) (ic : bool).

Lemma one_grouped f :
  forward_grouped (fun s => exists c, s = [c] /\ f c = true) true (one f).
Proof.
  intros k st res. unfold one. destruct (after st) as [|c a] eqn:Ha; [done|].
  destruct (f c) eqn:Hf; [|done]. intros H. exists (advance st), [c].
  split_and!; [by eapply moved_advance | by exists c | by eapply grouped_advance | done].
Qed.

Lemma literally_grouped s : forward_grouped (fun _ => True) true (literally U ic s).
Proof.
  induction s as [|c s IH]; intros k st res; simpl.
  - intros H. exists st, []. split_and!; [apply moved_nil | done | apply grouped_refl | done].
  - intros H. apply one_grouped in H as (st1 & m1 & E1 & _ & G1 & H).
    apply IH in H as (st2 & m2 & E2 & _ & G2 & H). exists st2, (m1 ++ m2).
    split_and!; [by eapply moved_app | done | | done].
    apply (grouped_trans true true st st1 st2); [by eapply moved_pos | by eapply moved_pos | done | done].
Qed.

Lemma iter_grouped L gf step lo hi lazy fuel :
  forward_grouped L gf step ->
  forward_grouped (fun s => exists pieces, s = concat pieces /\ (lo <= length pieces)%nat
                                           /\ Forall L pieces)
    gf (iter step lo hi lazy fuel).
Proof.
  intros Hstep. revert lo hi. induction fuel as [|fuel IH]; intros lo hi k st res; simpl;
    [done|].
  destruct lo as [|lo].
  - assert (Hk : k st = Some res ->
                 exists st' mid, moved st mid st'
                   /\ (exists pieces, mid = concat pieces /\ (0 <= length pieces)%nat
                                      /\ Forall L pieces)
                   /\ grouped gf st st'
                   /\ k st' = Some res).
    { intros H. exists st, []. split_and!; [apply moved_nil | | apply grouped_refl | done].
      exists []. split_and!; [done | done | constructor]. }
    assert (Hmore : step (fun st' => if Nat.eqb (pos st') (pos st) then None
                      else iter step 0 (Nat.pred <$> hi) lazy fuel k st') st = Some res ->
                    exists st' mid, moved st mid st'
                      /\ (exists pieces, mid = concat pieces /\ (0 <= length pieces)%nat
                                         /\ Forall L pieces)
                      /\ grouped gf st st'
                      /\ k st' = Some res).
    { intros H. apply Hstep in H as (st1 & m1 & E1 & HL & G1 & H).
      destruct (Nat.eqb (pos st1) (pos st)); [done|].
      apply IH in H as (st2 & m2 & E2 & (pieces & -> & _ & Hp) & G2 & H).
      exists st2, (m1 ++ concat pieces).
      split_and!; [by eapply moved_app | | | done].
      - exists (m1 :: pieces). split_and!; [done | simpl; lia | by constructor].
      - apply (grouped_same (gf && gf)); [by destruct gf|].
        apply (grouped_trans gf gf st st1 st2);
          [by eapply moved_pos | by eapply moved_pos | done | done]. }
    destruct hi as [[|hi]|]; [done | |].
    + destruct lazy.
      * destruct (k st) eqn:Ek; [intros [= <-]; by apply Hk | apply Hmore].
      * match goal with |- context [step ?f st] => destruct (step f st) eqn:Es end;
          [intros [= <-]; by apply Hmore | apply Hk].
    + destruct lazy.
      * destruct (k st) eqn:Ek; [intros [= <-]; by apply Hk | apply Hmore].
      * match goal with |- context [step ?f st] => destruct (step f st) eqn:Es end;
          [intros [= <-]; by apply Hmore | apply Hk].
  - intros H. apply Hstep in H as (st1 & m1 & E1 & HL & G1 & H).
    apply IH in H as (st2 & m2 & E2 & (pieces & -> & Hlen & Hp) & G2 & H).
    exists st2, (m1 ++ concat pieces). split_and!; [by eapply moved_app | | | done].
    + exists (m1 :: pieces). split_and!; [done | simpl; lia | by constructor].
    + apply (grouped_same (gf && gf)); [by destruct gf|].
      apply (grouped_trans gf gf st st1 st2);
        [by eapply moved_pos | by eapply moved_pos | done | done].
Qed.

(** The matcher records captures inside the text it consumes, and
    none for a pattern without groups. *)
Lemma exec_grouped r : forward_grouped (lang U ic r) (group_free r) (exec U ic r).
Proof.
  induction r as [| c | | negated items | r1 IH1 r2 IH2 | r1 IH1 r2 IH2
                 | r IH lo hi lazy | i name r IH | i | behind negated r IH | | | ];
    intros k st res; simpl.
  - intros H. exists st, []. split_and!; [apply moved_nil | done | apply grouped_refl | done].
  - apply one_grouped.
  - apply one_grouped.
  - apply one_grouped.
  - intros H. apply IH1 in H as (st1 & m1 & E1 & L1 & G1 & H).
    apply IH2 in H as (st2 & m2 & E2 & L2 & G2 & H).
    exists st2, (m1 ++ m2).
    split_and!; [by eapply moved_app | by exists m1, m2 | | done].
    apply (grouped_trans _ _ st st1 st2); [by eapply moved_pos | by eapply moved_pos | done | done].
  - destruct (exec U ic r1 k st) eqn:E1.
    + intros [= <-]. apply IH1 in E1 as (st1 & m1 & ? & ? & G & ?).
      exists st1, m1. split_and!; [done | by left | | done].
      destruct G as (n & E & F & G). exists n. split_and!; [done | done |].
      intros [Hgf _]%andb_true_iff. by apply G.
    + intros H. apply IH2 in H as (st1 & m1 & ? & ? & G & ?).
      exists st1, m1. split_and!; [done | by right | | done].
      destruct G as (n & E & F & G). exists n. split_and!; [done | done |].
      intros [_ Hgf]%andb_true_iff. by apply G.
  - by apply iter_grouped.
  - intros H. apply IH in H as (st1 & m1 & E1 & L1 & G1 & H).
    exists (set_group i (pos st) (pos st1) st1), m1.
    split_and!; [by apply moved_set_group | done | | done].
    destruct G1 as (n & E & F & _). exists ((i, (pos st, pos st1)) :: n).
    split_and!; [simpl; by rewrite E | | done].
    constructor; [|done]. unfold within. simpl. apply moved_pos in E1. lia.
  - destruct (assoc i (groups st)) as [[b e]|]; [|done]. intros H.
    apply literally_grouped in H as (st1 & m1 & ? & ? & ? & ?). by exists st1, m1.
  - intros H. exists st, []. split_and!; [apply moved_nil | done | apply grouped_refl |].
    destruct behind.
    + match type of H with (if ?c then _ else _) = _ => destruct c end;
        destruct negated; done.
    + destruct (exec U ic r Some st); destruct negated; done.
  - destruct (Nat.eqb (pos st) 0); [|done].
    intros H. exists st, []. split_and!; [apply moved_nil | done | apply grouped_refl | done].
  - intros H. exists st, []. split_and!; [apply moved_nil | done | apply grouped_refl |].
    destruct (after st) as [|c [|c' a]]; [done | | done].
    by destruct (c =? 10)%N.
  - destruct (at_boundary U st); [|done].
    intros H. exists st, []. split_and!; [apply moved_nil | done | apply grouped_refl | done].
Qed.
End GroupFacts.
(** ** The matches of [finditer], one by one *)

Section MatchFacts.
Context (U : unicode).

Lemma scan_all (Q : Match -> Prop) (p : pattern) :
  (forall f st st', wf st -> groups st = [] -> match_at U p f st = Some st' ->
                    Q (match_of p st st')) ->
  forall fuel f st, wf st -> groups st = [] -> Forall Q (scan U p fuel f st).
Proof.
  intros HQ. induction fuel as [|fuel IH]; intros f st Hwf Hg; simpl; [constructor|].
  destruct (match_at U p f st) as [st'|] eqn:Em.
  - constructor; [by eapply HQ|]. apply IH; [|done].
    apply match_at_inv in Em as [(m & Hb & Ha & Hp) _].
    apply (extends_wf st); [done|]. by exists m.
  - destruct (after st) as [|c a] eqn:Ha; [constructor|].
    apply IH.
    + eapply extends_wf; [done|]. by eapply extends_advance.
    + unfold advance. by rewrite Ha.
Qed.

Lemma finditer_all (Q : Match -> Prop) (p : pattern) (s : text) :
  (forall f st st', wf st -> groups st = [] -> subject st = s ->
                    match_at U p f st = Some st' -> Q (match_of p st st')) ->
  Forall Q (finditer U p s).
Proof.
  intros HQ.
  assert (H : Forall (fun m => m_string m = s -> Q m) (finditer U p s)).
  { unfold finditer. apply scan_all; [|done|done].
    intros f st st' Hwf Hg Hm Hs. by eapply HQ. }
  pose proof (finditer_strings U p s) as Hs.
  rewrite Forall_forall in H, Hs. apply Forall_forall. intros m Hm. by apply H, Hs.
Qed.

Lemma match_at_grouped (p : pattern) (f : bool) (st st' : mstate) :
  match_at U p f st = Some st' ->
  exists mid, moved st mid st' /\ lang U (ignorecase p) (re p) mid
              /\ grouped (group_free (re p)) st st'.
Proof.
  unfold match_at. intros H.
  apply exec_grouped in H as (st1 & mid & Hm & Hl & Hg & Hk).
  destruct (f && Nat.eqb (pos st1) (pos st)); [done|]. injection Hk as <-.
  by exists mid.
Qed.

(** Every group of a match lies inside the match. *)
Lemma finditer_within (p : pattern) (s : text) :
  Forall (fun m => Forall (within (m_span m).1 (m_span m).2) (m_groups m))
    (finditer U p s).
Proof.
  apply finditer_all. intros f st st' Hwf Hg Hs Hm.
  apply match_at_grouped in Hm as (mid & _ & _ & new & E & F & _).
  simpl. rewrite E, Hg, app_nil_r. done.
Qed.
End MatchFacts.

Lemma assoc_elem {A} (i : nat) (l : list (nat * A)) (a : A) :
  assoc i l = Some a -> (i, a) ∈ l.
Proof.
  induction l as [|[j b] l IH]; simpl; [done|].
  destruct (Nat.eqb i j) eqn:E.
  - intros [= ->]. apply Nat.eqb_eq in E as ->. by left.
  - intros H. right. by apply IH.
Qed.

Lemma slice_slice (s : text) (b0 e0 b e : nat) :
  (b0 <= b)%nat -> (e <= e0)%nat ->
  slice (slice s b0 e0) (b - b0) (e - b0) = slice s b e.
Proof.
  intros Hb He. unfold slice. rewrite skipn_firstn_comm, drop_drop, take_take.
  replace (b0 + (b - b0))%nat with b by lia. f_equal. lia.
Qed.

Lemma slice_substring_slice (s : text) (b0 e0 b e : nat) :
  (b0 <= b)%nat -> (e <= e0)%nat -> substring (slice s b e) (slice s b0 e0).
Proof.
  intros Hb He. rewrite <- (slice_slice s b0 e0 b e Hb He). apply substring_slice.
Qed.

(** A captured group is a piece of the text of its match. *)
Lemma group_in_match (m : Match) (i : nat) :
  Forall (within (m_span m).1 (m_span m).2) (m_groups m) ->
  substring (group m i) (group0 m).
Proof.
  intros H. unfold group, group0. destruct (assoc i (m_groups m)) as [[b e]|] eqn:E.
  - apply assoc_elem in E. rewrite Forall_forall in H. destruct (H _ E) as (H1 & H2 & H3).
    simpl in *. by apply slice_substring_slice.
  - by exists [], (slice (m_string m) (m_span m).1 (m_span m).2).
Qed.

Lemma parts_of_in_match (m : Match) (part : text) :
  Forall (within (m_span m).1 (m_span m).2) (m_groups m) ->
  part ∈ parts_of m -> substring part (group0 m).
Proof.
  intros Hw. unfold parts_of. destruct (0 <? length (groupdict m))%nat.
  - intros H. apply list_elem_of_fmap in H as ([name v] & -> & H).
    unfold sorted_items in H. rewrite merge_sort_Permutation in H.
    unfold groupdict in H. apply list_elem_of_fmap in H as ([name' i] & [= -> ->] & _).
    by apply group_in_match.
  - intros H. apply list_elem_of_singleton in H as ->. apply substring_refl.
Qed.

Lemma abbreviation_parts_of_in_match U (m : Match) (part : text) :
  letters_ok U -> part ∈ abbreviation_parts_of U m -> substring part (group0 m).
Proof.
  intros Hok. unfold abbreviation_parts_of.
  destruct (fullmatch U multipart_abbreviation (group0 m)) eqn:E.
  - apply multipart_fullmatch_groups in E as (ls & Hlen & Hshape).
    rewrite (abbreviation_parts_groups U ls) by (try done; intros ->; simpl in Hlen; lia).
    intros H. apply list_elem_of_fmap in H as (l & -> & Hl).
    destruct Hshape as [_ Hg]. rewrite Hg. by apply group_in_concat.
  - intros H. apply list_elem_of_singleton in H as ->. apply substring_refl.
Qed.

(** ** The matches of a pattern made of pieces *)

Lemma exec_cat U ic (r : regex) (rs : list regex) k st :
  exec U ic (cat (r :: rs)) k st = exec U ic r (exec U ic (cat rs) k) st.
Proof. by destruct rs. Qed.

Lemma exec_pieces U ic (ps : list piece) k st res :
  Forall (fun pc => group_free (piece_body pc) = true) ps ->
  exec U ic (cat (map piece_re ps)) k st = Some res ->
  exists ts st',
    Forall2 (fun pc tx => lang U ic (piece_body pc) tx) ps ts
    /\ moved st (concat ts) st'
    /\ groups st' = caps (pos st) ps ts ++ groups st
    /\ k st' = Some res.
Proof.
  intros Hgf. revert k st. induction Hgf as [|pc ps Hpc Hgf IH]; intros k st H.
  - exists [], st. split_and!; [constructor | apply moved_nil | done | done].
  - rewrite map_cons, exec_cat in H. destruct pc as [r | i r]; simpl in Hpc, H.
    + apply exec_grouped in H as (st1 & mid & Hm & Hl & (new & E & _ & Hn) & H).
      rewrite (Hn Hpc) in E. simpl in E.
      apply IH in H as (ts & st' & Hf & Hm' & Hg' & Hk).
      exists (mid :: ts), st'. split_and!; [by constructor | by eapply moved_app | | done].
      simpl. rewrite app_nil_r, Hg', E. destruct Hm as (_ & _ & ->). done.
    + apply exec_grouped in H as (st1 & mid & Hm & Hl & (new & E & _ & Hn) & H).
      rewrite (Hn Hpc) in E. simpl in E.
      apply IH in H as (ts & st' & Hf & Hm' & Hg' & Hk).
      exists (mid :: ts), st'. split_and!; [by constructor | | | done].
      * apply (moved_app st mid (set_group i (pos st) (pos st1) st1) (concat ts) st');
          [by apply moved_set_group | done].
      * simpl. simpl in Hg'. rewrite Hg', E. destruct Hm as (_ & _ & ->).
        by rewrite <- app_assoc.
Qed.

Lemma finditer_pieces U (p : pattern) (ps : list piece) (s : text) :
  re p = cat (map piece_re ps) ->
  Forall (fun pc => group_free (piece_body pc) = true) ps ->
  Forall (in_pieces U (ignorecase p) ps s) (finditer U p s).
Proof.
  intros Hre Hgf. apply finditer_all. intros f st st' Hwf Hg Hs Hm.
  unfold match_at in Hm. rewrite Hre in Hm.
  apply exec_pieces in Hm as (ts & st1 & Hf & Hmv & Hg1 & Hk); [|done].
  destruct (f && Nat.eqb (pos st1) (pos st)); [done|]. injection Hk as <-.
  exists (reverse (before st)), ts, (after st1).
  destruct Hmv as (Hb & Ha & Hp). unfold wf in Hwf.
  split_and!.
  - rewrite <- Hs. unfold subject. by rewrite Ha.
  - done.
  - done.
  - simpl. by rewrite length_reverse, <- Hwf, Hp.
  - simpl. by rewrite Hg1, Hg, app_nil_r, length_reverse, <- Hwf.
Qed.
(** ** Texts that keep track of the paragraph *)

Lemma squeeze_app (a b : text) : squeeze (a ++ b) = squeeze a ++ squeeze b.
Proof. apply List.filter_app. Qed.

Lemma squeeze_spaces (ws : text) :
  Forall (fun c => isspace c = true) ws -> squeeze ws = [].
Proof.
  induction 1 as [|c ws Hc _ IH]; [done|]. unfold squeeze in *. simpl. by rewrite Hc.
Qed.

Lemma squeeze_substring (u s : text) : substring u s -> substring (squeeze u) (squeeze s).
Proof. intros (l & r & ->). rewrite !squeeze_app. by exists (squeeze l), (squeeze r). Qed.

Lemma substring_app_r (a b s : text) : substring (a ++ b) s -> substring b s.
Proof. intros (l & r & ->). exists (l ++ a), r. by rewrite <- !app_assoc. Qed.

Lemma substring_app_l (a b s : text) : substring (a ++ b) s -> substring a s.
Proof. intros (l & r & ->). exists l, (b ++ r). by rewrite <- !app_assoc. Qed.

Lemma tiled_ordered from f len spans : tiled from f len spans -> ordered from len spans.
Proof.
  revert from f. induction spans as [|[b e] rest IH]; intros from f; simpl; [done|].
  intros (H1 & H2 & _ & H4). split_and!; [done | done | by eapply IH].
Qed.

Lemma ordered_le from len spans : ordered from len spans -> (from <= len)%nat.
Proof.
  revert from. induction spans as [|[b e] rest IH]; intros from; simpl; [done|].
  intros (H1 & H2 & H3). apply IH in H3. lia.
Qed.

Lemma drop_slice_app (s : text) (from b : nat) :
  (from <= b)%nat -> drop from s = slice s from b ++ drop b s.
Proof.
  intros H. unfold slice. rewrite <- (take_drop (b - from) (drop from s)) at 1.
  rewrite drop_drop. by replace (from + (b - from))%nat with b by lia.
Qed.

Lemma length_slice (s : text) (b e : nat) :
  (b <= e)%nat -> (e <= length s)%nat -> length (slice s b e) = (e - b)%nat.
Proof. intros Hb He. unfold slice. rewrite length_take, length_drop. lia. Qed.

Lemma app_split_le {A} (a b c d : list A) :
  a ++ b = c ++ d -> (length a <= length c)%nat -> exists x, c = a ++ x /\ b = x ++ d.
Proof.
  revert c. induction a as [|y a IH]; intros c H Hlen; simpl in *.
  - by exists c.
  - destruct c as [|z c]; simpl in *; [lia|]. injection H as -> H.
    destruct (IH c H) as (x & -> & ->); [lia|]. by exists x.
Qed.

Section Tracked.
Context (K K' : text -> Prop) (P : text).
Context (Hmono : forall p, K p -> K' p).

Lemma tracked_mono q x : tracked K P q x -> tracked K' P q x.
Proof.
  induction 1 as [q u Hu | q u p rest Hu Hp _ IH].
  - by apply tracked_end.
  - apply tracked_key; [done | by apply Hmono | done].
Qed.
End Tracked.

Section TrackedFacts.
Context (K : text -> Prop) (P : text).

Lemma tracked_weaken q q' x : q' `suffix_of` q -> tracked K P q x -> tracked K P q' x.
Proof.
  intros [k ->] H. inversion H as [q0 u Hu | q0 u p rest Hu Hp Hrest]; subst.
  - apply tracked_end. rewrite <- app_assoc in Hu. by eapply substring_app_r.
  - apply tracked_key; [|done|done]. rewrite <- app_assoc in Hu. by eapply substring_app_r.
Qed.

Lemma tracked_shift q g x : tracked K P (q ++ squeeze g) x -> tracked K P q (g ++ x).
Proof.
  intros H. inversion H as [q0 u Hu | q0 u p rest Hu Hp Hrest]; subst.
  - apply tracked_end. by rewrite squeeze_app, app_assoc.
  - rewrite app_assoc. apply tracked_key; [|done|done]. by rewrite squeeze_app, app_assoc.
Qed.

Lemma tracked_before q x : tracked K P q x -> substring q (squeeze P).
Proof.
  intros H. inversion H as [q0 u Hu | q0 u p rest Hu Hp Hrest]; subst;
    by eapply substring_app_l.
Qed.

(** A stretch of whitespace is an empty stretch of plain text. *)
Lemma tracked_skip q ws x :
  Forall (fun c => isspace c = true) ws -> tracked K P q x -> tracked K P q (ws ++ x).
Proof.
  intros Hws H. apply tracked_shift. by rewrite (squeeze_spaces ws), app_nil_r.
Qed.

Lemma tracked_at_key p x : K p -> tracked K P [] x -> tracked K P [] (p ++ x).
Proof.
  intros Hp H. apply (tracked_key K P [] [] p x); [|done|done].
  by exists [], (squeeze P).
Qed.

Lemma join_cons_app (p : text) (ps : list text) (y : text) :
  join (str " ") (p :: ps) ++ y
  = p ++ match ps with [] => y | _ :: _ => str " " ++ join (str " ") ps ++ y end.
Proof. destruct ps as [|p' ps]; [done|]. simpl. by rewrite <- !app_assoc. Qed.

Lemma tracked_joined ps y :
  Forall K ps -> tracked K P [] y ->
  tracked K P [] match ps with [] => y | _ :: _ => str " " ++ join (str " ") ps ++ y end.
Proof.
  intros Hps Hy. induction Hps as [|p ps Hp Hps IH]; [done|].
  apply (tracked_skip [] (str " ")); [by repeat constructor|].
  rewrite join_cons_app. by apply tracked_at_key.
Qed.

(** The replacement of a match by a replacement pass: placeholders
    between spaces. *)
Lemma fits_keys m ps :
  ps <> [] -> Forall K ps -> fits K P m (str " " ++ join (str " ") ps ++ str " ").
Proof.
  intros Hne Hps q x H. rewrite <- !app_assoc.
  apply (tracked_skip q (str " ")); [by repeat constructor|].
  assert (Hq : substring q (squeeze P)).
  { apply tracked_before in H. by eapply substring_app_l. }
  assert (Hx : tracked K P [] (str " " ++ x)).
  { apply (tracked_skip [] (str " ")); [by repeat constructor|].
    eapply tracked_weaken; [|done]. apply suffix_nil. }
  destruct ps as [|p ps]; [done|]. inversion Hps as [|? ? Hp Hps']; subst.
  rewrite join_cons_app.
  apply (tracked_key K P q [] p); [by rewrite app_nil_r | done |].
  by apply tracked_joined.
Qed.

(** The replacement of a stretch of plain text by one that differs in
    whitespace only. *)
Lemma fits_squeeze m r : squeeze r = squeeze m -> fits K P m r.
Proof. intros E q x H. apply tracked_shift. by rewrite E. Qed.
End TrackedFacts.
(** ** Edits of a tracked text *)

Lemma splice_cons (t : text) (from b e : nat) (r : text) (edits : list (nat * nat * text)) :
  splice t from ((b, e, r) :: edits) = slice t from b ++ r ++ splice t e edits.
Proof. done. Qed.

Lemma slice_app_length (a x c : text) :
  slice (a ++ x ++ c) (length a) (length a + length x) = x.
Proof.
  unfold slice. rewrite drop_app_length.
  replace (length a + length x - length a)%nat with (length x) by lia.
  by rewrite take_app_length.
Qed.

Section Edits.
Context (K K' : text -> Prop) (P : text) (t : text).
Context (Hmono : forall p, K p -> K' p).

Lemma splice_tracked_end (edits : list (nat * nat * text)) :
  forall from q q' u,
    substring (q ++ squeeze u) (squeeze P) ->
    u = drop from t -> q' `suffix_of` q ->
    ordered from (length t) (map fst edits) ->
    Forall (edit_ok K K' P t) edits ->
    tracked K' P q' (splice t from edits).
Proof.
  induction edits as [|[[b e] r] edits IH]; intros from q q' u Hu Hdrop Hsuf Hord Hok.
  - simpl. rewrite <- Hdrop. eapply tracked_weaken; [done|]. by apply tracked_end.
  - simpl in Hord. destruct Hord as (Hb & He & Hord).
    apply Forall_cons in Hok as [[_ Hfit] Hok]. simpl in Hfit.
    rewrite splice_cons. apply tracked_shift. apply Hfit.
    rewrite (drop_slice_app t from b Hb), (drop_slice_app t b e He) in Hdrop.
    destruct Hsuf as [k ->].
    apply (IH e (k ++ q' ++ squeeze (slice t from b) ++ squeeze (slice t b e))
             _ (drop e t)); [| done | | done | done].
    + rewrite Hdrop, !squeeze_app, <- !app_assoc in Hu. by rewrite <- !app_assoc.
    + exists k. by rewrite <- !app_assoc.
Qed.

Lemma splice_tracked_key (p rest : text) :
  K p -> tracked K P [] rest ->
  (forall from edits,
     rest = drop from t ->
     ordered from (length t) (map fst edits) -> Forall (edit_ok K K' P t) edits ->
     tracked K' P [] (splice t from edits)) ->
  forall edits from q q' u,
    substring (q ++ squeeze u) (squeeze P) ->
    u ++ p ++ rest = drop from t -> q' `suffix_of` q ->
    ordered from (length t) (map fst edits) ->
    Forall (edit_ok K K' P t) edits ->
    tracked K' P q' (splice t from edits).
Proof.
  intros Hp Hrest IHrest.
  induction edits as [|[[b e] r] edits IH]; intros from q q' u Hu Hdrop Hsuf Hord Hok.
  - simpl. rewrite <- Hdrop. eapply tracked_weaken; [done|].
    apply tracked_key; [done | by apply Hmono | by eapply tracked_mono].
  - pose proof Hord as Hord0. pose proof Hok as Hok0.
    simpl in Hord. destruct Hord as (Hb & He & Hord).
    apply Forall_cons in Hok as [[Hun Hfit] Hok]. simpl in Hun, Hfit.
    assert (Hlen : (e <= length t)%nat) by (by eapply ordered_le).
    assert (Hocc : slice t (from + length u) (from + length u + length p) = p).
    { unfold slice. rewrite <- drop_drop, <- Hdrop, drop_app_length.
      replace (from + length u + length p - (from + length u))%nat with (length p) by lia.
      by rewrite take_app_length. }
    pose proof (Hun p (from + length u)%nat Hp Hocc) as Hno. simpl in Hno.
    destruct (decide (e <= from + length u)%nat) as [Hin | Hout].
    + (* the edit lies in the stretch of plain text before the key *)
      pose proof Hdrop as Hdrop'.
      rewrite (drop_slice_app t from b Hb), (drop_slice_app t b e He),
        (app_assoc (slice t from b)) in Hdrop'.
      symmetry in Hdrop'.
      destruct (app_split_le _ _ _ _ Hdrop') as (u2 & Hu2 & Hrest2).
      { rewrite length_app, !length_slice by lia. lia. }
      rewrite splice_cons. apply tracked_shift. apply Hfit.
      destruct Hsuf as [k ->].
      apply (IH e (k ++ q' ++ squeeze (slice t from b) ++ squeeze (slice t b e))
               _ u2); [| by rewrite Hrest2 | | done | done].
      * rewrite Hu2, !squeeze_app, <- !app_assoc in Hu. by rewrite <- !app_assoc.
      * exists k. by rewrite <- !app_assoc.
    + (* the edit, and those after it, lie after the key *)
      assert (Hb' : (from + length u + length p <= b)%nat) by lia.
      assert (Hrest' : rest = drop (from + length u + length p) t).
      { rewrite <- drop_drop, <- drop_drop, <- Hdrop, drop_app_length.
        by rewrite drop_app_length. }
      assert (Hsplit : splice t from ((b, e, r) :: edits)
                       = u ++ p ++ splice t (from + length u + length p) ((b, e, r) :: edits)).
      { rewrite !splice_cons.
        assert (Hs : slice t from b
                     = u ++ p ++ slice t (from + length u + length p) b).
        { assert (Hd : drop from t = u ++ p ++ drop (from + length u + length p) t).
          { by rewrite <- Hrest'. }
          rewrite (drop_slice_app t from b Hb),
            (drop_slice_app t (from + length u + length p) b Hb') in Hd.
          rewrite (app_assoc p), (app_assoc u) in Hd.
          by apply app_inv_tail in Hd. }
        rewrite Hs. by rewrite <- !app_assoc. }
      rewrite Hsplit. apply tracked_key.
      * eapply substring_app_r with (a := take (length q - length q') q).
        destruct Hsuf as [k ->]. rewrite length_app.
        replace (length k + length q' - length q')%nat with (length k) by lia.
        rewrite take_app_length. by rewrite <- !app_assoc in Hu.
      * by apply Hmono.
      * apply IHrest; [done | | done].
        simpl. split_and!; [done | done | done].
Qed.

(** A tracked text stays tracked when spans no key occurs in are
    replaced by texts that fit. *)
Lemma splice_tracked (q x : text) :
  tracked K P q x ->
  forall from edits q',
    x = drop from t -> q' `suffix_of` q ->
    ordered from (length t) (map fst edits) ->
    Forall (edit_ok K K' P t) edits ->
    tracked K' P q' (splice t from edits).
Proof.
  induction 1 as [q u Hu | q u p rest Hu Hp Hrest IH]; intros from edits q' Hdrop Hsuf Hord Hok.
  - by eapply splice_tracked_end.
  - eapply (splice_tracked_key p rest); try done.
    intros from' edits' Hd Ho Hk. by apply IH.
Qed.

(** A span of a tracked text that no key occurs in is plain text. *)
Lemma tracked_untouched (q x : text) :
  tracked K P q x ->
  forall from b e,
    x = drop from t -> (from <= b)%nat -> (b <= e)%nat -> (e <= length t)%nat ->
    untouched K t (b, e) ->
    substring (squeeze (slice t b e)) (squeeze P).
Proof.
  induction 1 as [q u Hu | q u p rest Hu Hp Hrest IH]; intros from b e Hdrop Hb He Hlen Hun.
  - apply substring_app_r in Hu. eapply substring_trans; [|done].
    apply squeeze_substring. rewrite Hdrop, (drop_slice_app t from b Hb),
      (drop_slice_app t b e He). by exists (slice t from b), (drop e t).
  - assert (Hocc : slice t (from + length u) (from + length u + length p) = p).
    { unfold slice. rewrite <- drop_drop, <- Hdrop, drop_app_length.
      replace (from + length u + length p - (from + length u))%nat with (length p) by lia.
      by rewrite take_app_length. }
    pose proof (Hun p (from + length u)%nat Hp Hocc) as Hno. simpl in Hno.
    destruct (decide (e <= from + length u)%nat) as [Hin | Hout].
    + pose proof Hdrop as Hdrop'.
      rewrite (drop_slice_app t from b Hb), (drop_slice_app t b e He),
        (app_assoc (slice t from b)) in Hdrop'.
      symmetry in Hdrop'.
      destruct (app_split_le _ _ _ _ Hdrop') as (u2 & Hu2 & _).
      { rewrite length_app, !length_slice by lia. lia. }
      apply substring_app_r in Hu. eapply substring_trans; [|done].
      apply squeeze_substring. rewrite Hu2, <- app_assoc.
      by exists (slice t from b), u2.
    + apply (IH (from + length u + length p)%nat); [| lia | done | done | done].
      rewrite <- drop_drop, <- drop_drop, <- Hdrop, drop_app_length.
      by rewrite drop_app_length.
Qed.
End Edits.
(** ** The replacement passes keep track of the paragraph *)

Section ReplaceFaithful.
Context (draws : nat -> nat).

Lemma replace_with_faithful (P : text) (fuel : nat) (text_ : text) (token_class : string)
    (parts : Match -> list text) (ms : list Match) (s : state) (text' : text) (s' : state) :
  tiled 0 false (length text_) (map m_span ms) ->
  Forall (fun m => m_string m = text_) ms ->
  Forall (fun m => untouched (key_of (mapping s)) text_ (m_span m)) ms ->
  (forall m part, m ∈ ms -> part ∈ parts m -> substring part (group0 m)) ->
  (forall m, parts m <> []) ->
  faithful P text_ (mapping s) ->
  replace_with draws fuel text_ token_class parts ms s = Ok text' s' ->
  faithful P text' (mapping s').
Proof.
  intros Htiled Hstr Hun Hparts Hne [Htr Htok] Hrun.
  destruct (replace_with_matches draws fuel text_ token_class parts ms s text' s'
              Htiled Hstr Hrun)
    as (pss & rep & Hf2 & Hnd & Hfresh & Hother & Hreg & Hrep & ->).
  assert (Hkeys : forall i m ps p, ms !! i = Some m -> pss !! i = Some ps -> p ∈ ps ->
            exists part, part ∈ parts m
                         /\ mapping s' !! p = Some (MkToken part token_class)).
  { intros i m ps p Hm Hps Hp. apply list_elem_of_lookup_1 in Hp as [j Hj].
    pose proof (Forall2_lookup_lr _ ms pss i m ps Hf2 Hm Hps) as Hlen.
    destruct (lookup_lt_is_Some_2 (parts m) j) as [part Hpart].
    { rewrite <- Hlen. by eapply lookup_lt_Some. }
    exists part. split; [by eapply list_elem_of_lookup_2|]. by eapply Hreg. }
  assert (Hmono : forall p, key_of (mapping s) p -> key_of (mapping s') p).
  { intros p [tok Hp]. unfold key_of. destruct (decide (p ∈ concat pss)) as [Hin | Hout].
    - destruct (Hfresh p Hin) as [Hnone _]. by rewrite Hnone in Hp.
    - rewrite (Hother p Hout), Hp. by eexists. }
  rewrite Forall_forall in Hstr, Hun.
  pose proof (tiled_bounds _ _ _ _ Htiled) as Hbounds. rewrite Forall_forall in Hbounds.
  split.
  - apply (splice_tracked (key_of (mapping s)) (key_of (mapping s')) P text_ Hmono
             [] text_ Htr 0%nat); [done | done | |].
    + rewrite map_map. simpl. by eapply tiled_ordered.
    + apply Forall_forall. intros ed Hed.
      apply list_elem_of_fmap in Hed as (m & -> & Hm). split; simpl.
      * by apply Hun.
      * apply list_elem_of_lookup_1 in Hm as [i Hi].
        destruct (Hrep i m Hi) as (l & psl & [(ml & Hml & _) _] & _ & Hpsl & ->).
        apply fits_keys.
        -- pose proof (Forall2_lookup_lr _ ms pss l ml psl Hf2 Hml Hpsl) as Hlen.
           intros ->. simpl in Hlen. symmetry in Hlen. apply length_zero_iff_nil in Hlen.
           by apply (Hne ml).
        -- apply Forall_forall. intros p Hp.
           destruct (Hkeys l ml psl p Hml Hpsl Hp) as (part & _ & Hr).
           unfold key_of. rewrite Hr. by eexists.
  - intros p tok Hp. destruct (decide (p ∈ concat pss)) as [Hin | Hout].
    + split; [by apply Hfresh|].
      apply elem_of_concat in Hin as (ps & Hps & Hpin).
      apply list_elem_of_lookup_1 in Hps as [i Hi].
      destruct (lookup_lt_is_Some_2 ms i) as [m Hm].
      { rewrite (Forall2_length _ _ _ Hf2). by eapply lookup_lt_Some. }
      destruct (Hkeys i m ps p Hm Hi Hpin) as (part & Hpart & Hr).
      rewrite Hr in Hp. injection Hp as <-. simpl.
      assert (Hmin : m ∈ ms) by (by eapply list_elem_of_lookup_2).
      eapply substring_trans; [apply squeeze_substring; by apply Hparts|].
      rewrite (group0_slice m text_ (Hstr m Hmin)).
      assert (Hsp : m_span m ∈ map m_span ms) by (by apply list_elem_of_fmap_2).
      destruct (Hbounds _ Hsp) as (_ & Hb & He & _).
      apply (tracked_untouched (key_of (mapping s)) P text_ [] text_ Htr 0%nat);
        [done | lia | done | done |].
      specialize (Hun m Hmin). by destruct (m_span m).
    + rewrite (Hother p Hout) in Hp. by apply Htok.
Qed.
End ReplaceFaithful.



(** C1.  The placeholder generator keeps its part: what
    [_get_unique_string] returns is no key of the mapping and no
    substring of the working text.  The tokens [tokenize] returns are
    not free of placeholders, though: in the paragraph below the
    placeholder abcdefg that stands for the tag is matched, together
    with the words after it, by the rule for obfuscated email addresses,
    and the token returned for the address contains the placeholder. *)
Theorem placeholder_leaks_into_output :
  (forall draws fuel text_ s u s',
     _get_unique_string draws fuel text_ s = Ok u s' ->
     mapping s !! u = None /\ ~ substring u text_ /\ is_placeholder u)
  /\ exists s',
       tokenize ascii_tables count_up (sample_tokenizer false true) 1
         (str "<a>at b dot com") (State ∅ 0)
       = Ok (Classified [MkToken (str "abcdefg at b dot com") "email_address"]) s'
       /\ mapping s' !! str "abcdefg" = Some (MkToken (str "<a>") "XML_tag")
       /\ substring (str "abcdefg") (str "abcdefg at b dot com").
Proof.
  split.
  - intros draws fuel text_ s u s' H.
    apply get_unique_string_Ok in H as (_ & _ & H1 & H2 & H3). split_and!; [done | | done].
    rewrite <- contains_substring. by rewrite H2.
  - eexists. split; [vm_compute; reflexivity|]. split; [by vm_compute|].
    rewrite <- contains_substring. by vm_compute.
Qed.

(** C10.  The tokens depend on the random draws: for the same
    tokenizer and paragraph, the run whose first placeholder is abcdefg
    and the run whose first placeholder is hijklmn both return, with
    different tokens. *)
Theorem tokenize_depends_on_draws :
  exists s1 s2,
    tokenize ascii_tables count_up (sample_tokenizer false true) 1
      (str "<a>at b dot com") (State ∅ 0)
    = Ok (Classified [MkToken (str "abcdefg at b dot com") "email_address"]) s1
    /\ tokenize ascii_tables (fun i => (i + 7)%nat) (sample_tokenizer false true) 1
         (str "<a>at b dot com") (State ∅ 0)
       = Ok (Classified [MkToken (str "hijklmn at b dot com") "email_address"]) s2
    /\ Classified [MkToken (str "abcdefg at b dot com") "email_address"]
       <> Classified [MkToken (str "hijklmn at b dot com") "email_address"].
Proof.
  eexists _, _. split; [vm_compute; reflexivity|]. split; [vm_compute; reflexivity|].
  intros H. vm_compute in H. discriminate.
Qed.
(** ** What [strip] removes *)

Lemma lstrip_by_spaces f (ws s : text) :
  Forall (fun c => f c = true) ws -> lstrip_by f (ws ++ s) = lstrip_by f s.
Proof. induction 1 as [|c ws Hc _ IH]; [done|]. simpl. by rewrite Hc. Qed.

Lemma lstrip_by_head f (s : text) (c : N) :
  head (lstrip_by f s) = Some c -> f c = false.
Proof.
  induction s as [|x s IH]; simpl; [done|]. destruct (f x) eqn:E; [done|].
  simpl. by intros [= <-].
Qed.

Lemma last_rev (s : text) : last (rev s) = head s.
Proof. destruct s as [|c s]; [done|]. simpl. by rewrite last_snoc. Qed.

Lemma head_rev (s : text) : head (rev s) = last s.
Proof. by rewrite <- last_rev, rev_involutive. Qed.

Lemma rstrip_by_last f (s : text) (c : N) :
  last (rstrip_by f s) = Some c -> f c = false.
Proof. unfold rstrip_by. rewrite last_rev. apply lstrip_by_head. Qed.

Lemma rstrip_by_spaces f (s ws : text) :
  Forall (fun c => f c = true) ws -> rstrip_by f (s ++ ws) = rstrip_by f s.
Proof.
  intros H. unfold rstrip_by. rewrite rev_app_distr, lstrip_by_spaces; [done|].
  rewrite rev_alt. change (rev_append ws []) with (reverse ws). by apply Forall_reverse.
Qed.

Lemma rstrip_by_keep f (s : text) :
  (forall c, last s = Some c -> f c = false) -> rstrip_by f s = s.
Proof.
  intros H. unfold rstrip_by. rewrite lstrip_by_keep; [apply rev_involutive|].
  destruct (rev s) as [|c r] eqn:E; [done|]. apply H.
  by rewrite <- head_rev, E.
Qed.

(** [strip] gives the non-empty text [e] exactly for the lines that
    are [e] between whitespace, when [e] has no whitespace at its
    ends. *)
Lemma strip_padded (line e : text) :
  (e = strip line /\ e <> []) <-> (padded line e /\ trimmed e).
Proof.
  split.
  - intros [-> Hne]. split.
    + destruct (strip_by_decompose isspace line) as (ws1 & ws2 & H & H1 & H2).
      by exists ws1, ws2.
    + split; [done|]. unfold strip, strip_by. split.
      * intros c Hc.
        destruct (rstrip_by_decompose isspace (lstrip_by isspace line)) as (sp & Hs & _).
        destruct (rstrip_by isspace (lstrip_by isspace line)) as [|x r] eqn:E; [done|].
        injection Hc as ->. apply (lstrip_by_head isspace line). by rewrite Hs.
      * apply rstrip_by_last.
  - intros [(ws1 & ws2 & -> & H1 & H2) (Hne & Hhead & Hlast)]. split; [|done].
    unfold strip, strip_by. rewrite lstrip_by_spaces by done.
    rewrite lstrip_by_keep.
    + rewrite rstrip_by_spaces by done. symmetry. by apply rstrip_by_keep.
    + destruct e as [|c e]; [done|]. simpl. by apply Hhead.
Qed.

(** ** Lexicon files *)

#[global] Instance longer_first_trans : Transitive longer_first.
Proof. intros a b c. unfold longer_first. lia. Qed.

#[global] Instance longer_first_total : Total longer_first.
Proof. intros a b. unfold longer_first. lia. Qed.

Lemma read_lines_elem (fh : list text) (acc : gset text) (e : text) :
  e ∈ foldl (fun (abbreviations : gset text) line =>
               let line := strip line in
               if startswith (str "#") line then abbreviations
               else if bool_decide (line = []) then abbreviations
               else {[ line ]} ∪ abbreviations) acc fh
  <-> e ∈ acc \/ exists line, line ∈ fh /\ e = strip line
                              /\ startswith (str "#") e = false /\ e <> [].
Proof.
  set (step := fun (abbreviations : gset text) line =>
                 let line := strip line in
                 if startswith (str "#") line then abbreviations
                 else if bool_decide (line = []) then abbreviations
                 else {[ line ]} ∪ abbreviations).
  revert acc. induction fh as [|l fh IH]; intros acc.
  - split; [by left|]. intros [H | (line & H & _)]; [done | by apply elem_of_nil in H].
  - change (foldl step acc (l :: fh)) with (foldl step (step acc l) fh).
    rewrite IH. clear IH. unfold step. cbv zeta.
    destruct (startswith (str "#") (strip l)) eqn:E1;
      [|destruct (bool_decide (strip l = [])) eqn:E2].
    + split; (intros [H | (line & Hin & -> & H1 & H2)]; [by left|]).
      * right. exists line. split_and!; [by right | done | done | done].
      * apply elem_of_cons in Hin as [-> | Hin]; [congruence|].
        right. by exists line.
    + apply bool_decide_eq_true in E2.
      split; (intros [H | (line & Hin & -> & H1 & H2)]; [by left|]).
      * right. exists line. split_and!; [by right | done | done | done].
      * apply elem_of_cons in Hin as [-> | Hin]; [congruence|].
        right. by exists line.
    + apply bool_decide_eq_false in E2. split.
      * intros [H | (line & Hin & -> & H1 & H2)].
        -- apply elem_of_union in H as [H | H]; [|by left].
           apply elem_of_singleton in H as ->. right. exists l.
           split_and!; [by left | done | done | done].
        -- right. exists line. split_and!; [by right | done | done | done].
      * intros [H | (line & Hin & -> & H1 & H2)].
        -- left. apply elem_of_union. by right.
        -- apply elem_of_cons in Hin as [-> | Hin].
           ++ left. apply elem_of_union. left. by apply elem_of_singleton.
           ++ right. by exists line.
Qed.



(** ** Termination *)

Section Settling.
Context (draws : nat -> nat).





(** *** The generator *)


Lemma loop_finds (text_ : text) (mapping_ : gmap text Token) (k : nat) :
forall (u : text) (n : nat),
  blocked text_ mapping_ (random_string draws (n + k * unique_string_length)) = false ->
  is_Some (_get_unique_string_loop draws (S k) text_ mapping_ u n).
Proof.
induction k as [|k IH]; intros u n Hk.
- simpl. destruct (bool_decide (is_Some (mapping_ !! u)) || contains text_ u); [|done].
  rewrite Nat.add_0_r in Hk. unfold blocked in Hk. by rewrite Hk.
- change (_get_unique_string_loop draws (S (S k)) text_ mapping_ u n)
    with (if bool_decide (is_Some (mapping_ !! u)) || contains text_ u
          then _get_unique_string_loop draws (S k) text_ mapping_
                 (random_string draws n) (n + unique_string_length)
          else Some (u, n)).
  destruct (bool_decide (is_Some (mapping_ !! u)) || contains text_ u); [|done].
  apply IH.
  replace (n + unique_string_length + k * unique_string_length)%nat
    with (n + S k * unique_string_length)%nat by lia. done.
Qed.

Lemma loop_mono (text_ : text) (mapping_ : gmap text Token) (fuel fuel' : nat)
  (u : text) (n : nat) (r : text * nat) :
(fuel <= fuel')%nat ->
_get_unique_string_loop draws fuel text_ mapping_ u n = Some r ->
_get_unique_string_loop draws fuel' text_ mapping_ u n = Some r.
Proof.
revert fuel' u n. induction fuel as [|fuel IH]; intros fuel' u n Hle; simpl.
- destruct (bool_decide (is_Some (mapping_ !! u)) || contains text_ u) eqn:E; [done|].
  intros <-. destruct fuel'; simpl; by rewrite E.
- destruct fuel' as [|fuel']; [lia|]. simpl.
  destruct (bool_decide (is_Some (mapping_ !! u)) || contains text_ u); [|done].
  apply IH. lia.
Qed.






Context (U : unicode) (self : Tokenizer).




(** *** No [KeyError] *)




End Settling.

(** *** A paragraph on which no call of the generator ends *)










Lemma run_quiet (U : unicode) (draws : nat -> nat) (self : Tokenizer) (fuel : nat)
    (sts : list stage) (text_ : text) (s : state) :
  quiet U self sts text_ = true ->
  run U draws self fuel sts text_ s = Ok (substituted U sts text_) s.
Proof.
  revert text_. induction sts as [|st sts IH]; intros text_ H; [done|].
  destruct st as [regex token_class | regex template |]; simpl in *; unfold bind.
  - destruct (finditer U regex text_) eqn:E; [|done].
    unfold _replace_regex. rewrite E. simpl. by apply IH.
  - unfold ret. by apply IH.
  - destruct (finditer U (abbreviation (abbreviation_list self)) text_) eqn:E; [|done].
    unfold replace_abbreviation_instances. rewrite E. simpl. by apply IH.
Qed.



(** The empty paragraph has no tokens: no rule matches, no placeholder
    is drawn. *)
Example tokenize_empty_paragraph (draws : nat -> nat) (fuel : nat) (s : state) :
  tokenize ascii_tables draws (sample_tokenizer false true) fuel [] s
  = Ok (Classified []) (State ∅ (drawn s)).
Proof. vm_compute. reflexivity. Qed.
(** * Further properties *)

(** ** The placeholder generator *)

Lemma loop_first_free (draws : nat -> nat) (fuel : nat) (text_ : text)
    (mapping_ : gmap text Token) (u : text) (n : nat) (u' : text) (n' : nat) :
  _get_unique_string_loop draws fuel text_ mapping_ u n = Some (u', n') ->
  (blocked text_ mapping_ u = false /\ u' = u /\ n' = n)
  \/ (blocked text_ mapping_ u = true
      /\ exists k, (k < fuel)%nat
           /\ u' = random_string draws (n + k * unique_string_length)
           /\ n' = (n + S k * unique_string_length)%nat
           /\ blocked text_ mapping_ u' = false
           /\ forall j, (j < k)%nat ->
                blocked text_ mapping_
                  (random_string draws (n + j * unique_string_length)) = true).
Proof.
  unfold unique_string_length.
  revert u n. induction fuel as [|fuel IH]; intros u n; simpl;
    fold (blocked text_ mapping_ u); destruct (blocked text_ mapping_ u) eqn:E.
  - done.
  - intros [= <- <-]. by left.
  - intros H. right. split; [done|]. apply IH in H as [(Hfree & -> & ->) | (Hb & k & Hk & -> & -> & Hfree & Hbefore)].
    + exists 0%nat. replace (n + 0 * 7)%nat with n by (unfold unique_string_length in *; lia).
      split_and!; [(unfold unique_string_length in *; lia) | done | (unfold unique_string_length in *; lia) | done |]. intros j Hj. (unfold unique_string_length in *; lia).
    + exists (S k). split_and!; [(unfold unique_string_length in *; lia) | f_equal; (unfold unique_string_length in *; lia) | (unfold unique_string_length in *; lia) | |].
      * replace (n + S k * 7)%nat with (n + 7 + k * 7)%nat by (unfold unique_string_length in *; lia). done.
      * intros [|j] Hj.
        -- by replace (n + 0 * 7)%nat with n by (unfold unique_string_length in *; lia).
        -- replace (n + S j * 7)%nat with (n + 7 + j * 7)%nat by (unfold unique_string_length in *; lia).
           apply Hbefore. (unfold unique_string_length in *; lia).
  - intros [= <- <-]. by left.
Qed.

(** X1.  What [_get_unique_string] returns is the first string it
    draws that is neither a key of the mapping nor a substring of the
    working text: every string drawn before is one or the other, each
    string costs seven calls of [random.choice], at least one string is
    drawn (the result is never the empty string), and the mapping is
    left as it was. *)
Theorem get_unique_string_first_free (draws : nat -> nat) (fuel : nat) (text_ : text)
    (s : state) (u : text) (s' : state) :
  _get_unique_string draws fuel text_ s = Ok u s' ->
  exists k : nat,
    (k < fuel)%nat
    /\ u = random_string draws (drawn s + k * unique_string_length)
    /\ blocked text_ (mapping s) u = false
    /\ (forall j, (j < k)%nat ->
          blocked text_ (mapping s)
            (random_string draws (drawn s + j * unique_string_length)) = true)
    /\ length u = unique_string_length
    /\ s' = State (mapping s) (drawn s + S k * unique_string_length).
Proof.
  unfold _get_unique_string.
  destruct (_get_unique_string_loop draws fuel text_ (mapping s) [] (drawn s))
    as [[u0 n0]|] eqn:E; [|done].
  intros [= <- <-].
  apply loop_first_free in E as [(Hfree & _) | (_ & k & Hk & -> & -> & Hfree & Hbefore)].
  - unfold blocked in Hfree. by rewrite contains_nil, orb_true_r in Hfree.
  - exists k. split_and!; done.
Qed.

Lemma get_unique_string_first_free_witness :
  exists u s',
    _get_unique_string count_up 2 (str "abcdefg") (State ∅ 0) = Ok u s'
    /\ u = str "hijklmn"
    /\ exists k : nat,
         (k < 2)%nat
         /\ u = random_string count_up (0 + k * unique_string_length)
         /\ blocked (str "abcdefg") ∅ u = false
         /\ (forall j, (j < k)%nat ->
               blocked (str "abcdefg") ∅
                 (random_string count_up (0 + j * unique_string_length)) = true)
         /\ length u = unique_string_length
         /\ s' = State ∅ (0 + S k * unique_string_length).
Proof.
  eexists _, _. split; [vm_compute; reflexivity|]. split; [reflexivity|].
  apply (get_unique_string_first_free count_up 2 (str "abcdefg") (State ∅ 0)).
  vm_compute. reflexivity.
Defined.

(** X2.  A call of [_get_unique_string] returns exactly when one of the
    strings it draws passes the test of the loop; it then returns for
    every larger bound on the rounds, with the same result. *)
Theorem get_unique_string_returns_iff (draws : nat -> nat) (text_ : text) (s : state) :
  ((exists fuel u s', _get_unique_string draws fuel text_ s = Ok u s')
   <-> exists k : nat,
         blocked text_ (mapping s)
           (random_string draws (drawn s + k * unique_string_length)) = false)
  /\ forall fuel fuel' u s',
       _get_unique_string draws fuel text_ s = Ok u s' -> (fuel <= fuel')%nat ->
       _get_unique_string draws fuel' text_ s = Ok u s'.
Proof.
  split; [split|].
  - intros (fuel & u & s' & H).
    unfold _get_unique_string in H.
    destruct (_get_unique_string_loop draws fuel text_ (mapping s) [] (drawn s))
      as [[u0 n0]|] eqn:E; [|done].
    apply loop_first_free in E as [(Hfree & _) | (_ & k & _ & -> & _ & Hfree & _)].
    + unfold blocked in Hfree. by rewrite contains_nil, orb_true_r in Hfree.
    + by exists k.
  - intros [k Hk].
    destruct (loop_finds draws text_ (mapping s) k [] (drawn s) Hk) as [[u n] Hr].
    exists (S k), u, (State (mapping s) n). unfold _get_unique_string. by rewrite Hr.
  - intros fuel fuel' u s' H Hle. unfold _get_unique_string in *.
    destruct (_get_unique_string_loop draws fuel text_ (mapping s) [] (drawn s))
      as [[u0 n0]|] eqn:E; [|done].
    by rewrite (loop_mono draws _ _ _ _ _ _ _ Hle E).
Qed.
(** ** [_multipart_replace] *)

Lemma split_join_placeholders (ps : list text) :
  Forall is_word_ ps -> split (join (str " ") ps) = ps.
Proof.
  intros H. unfold split.
  rewrite <- (split_ws_app_spaces [] (join (str " ") ps) [32%N]).
  - by apply split_ws_join.
  - by repeat constructor.
Qed.

Lemma register_all_size (ps parts : list text) (token_class : string)
    (m : gmap text Token) :
  length ps = length parts -> NoDup ps -> (forall p, p ∈ ps -> m !! p = None) ->
  size (register_all ps parts token_class m) = (size m + length ps)%nat.
Proof.
  revert parts m. induction ps as [|p ps IH]; intros parts m Hlen Hnd Hfresh.
  - simpl. unfold register_all. destruct parts; simpl; lia.
  - destruct parts as [|part parts]; [done|]. injection Hlen as Hlen.
    apply NoDup_cons in Hnd as [Hp Hnd].
    change (register_all (p :: ps) (part :: parts) token_class m)
      with (register_all ps parts token_class (<[p := MkToken part token_class]> m)).
    rewrite IH; [| done | done |].
    + rewrite map_size_insert_None; [simpl; lia|]. apply Hfresh. by left.
    + intros q Hq. rewrite lookup_insert_ne; [apply Hfresh; by right|].
      intros ->. done.
Qed.

(** X3.  [_multipart_replace] returns as many placeholders as there
    are parts, joined by single spaces: splitting the result on
    whitespace gives them back.  The placeholders are pairwise
    distinct, new to the mapping and absent from the working text; the
    placeholder of each part is registered with the part and the token
    class, every other entry of the mapping is left as it was, and the
    mapping grows by one entry per part. *)
Theorem multipart_replace_registers (draws : nat -> nat) (fuel : nat)
    (text_ instance : text) (parts : list text) (token_class : string)
    (s : state) (r : text) (s' : state) :
  _multipart_replace draws fuel text_ instance parts token_class s = Ok r s' ->
  exists ps : list text,
    r = join (str " ") ps
    /\ split r = ps
    /\ length ps = length parts
    /\ NoDup ps
    /\ (forall p, p ∈ ps ->
          is_placeholder p /\ mapping s !! p = None /\ ~ substring p text_)
    /\ (forall j p part, ps !! j = Some p -> parts !! j = Some part ->
          mapping s' !! p = Some (MkToken part token_class))
    /\ (forall q, q ∉ ps -> mapping s' !! q = mapping s !! q)
    /\ size (mapping s') = (size (mapping s) + length parts)%nat.
Proof.
  intros H.
  apply multipart_replace_Ok in H as (ps & -> & Hlen & Hnd & Hfresh & Hmap & _).
  exists ps. split_and!; try done.
  - apply split_join_placeholders, Forall_forall. intros p Hp.
    apply placeholder_word. by apply Hfresh.
  - intros p Hp. destruct (Hfresh p Hp) as (H1 & H2 & H3). split_and!; [done | done |].
    rewrite <- contains_substring. by rewrite H2.
  - intros j p part Hp Hpart. rewrite Hmap. by eapply register_all_lookup.
  - intros q Hq. rewrite Hmap. by apply register_all_other.
  - rewrite Hmap, register_all_size; [lia | done | done |].
    intros p Hp. by apply Hfresh.
Qed.

Lemma multipart_replace_registers_witness :
  exists r s',
    _multipart_replace count_up 1 (str "12.03.") (str "12.03.") [str "12."; str "03."]
      "date" (State ∅ 0) = Ok r s'
    /\ r = str "abcdefg hijklmn"
    /\ exists ps : list text,
         r = join (str " ") ps
         /\ split r = ps
         /\ length ps = length [str "12."; str "03."]
         /\ NoDup ps
         /\ (forall p, p ∈ ps ->
               is_placeholder p /\ (∅ : gmap text Token) !! p = None
               /\ ~ substring p (str "12.03."))
         /\ (forall j p part, ps !! j = Some p ->
               [str "12."; str "03."] !! j = Some part ->
               mapping s' !! p = Some (MkToken part "date"))
         /\ (forall q, q ∉ ps -> mapping s' !! q = (∅ : gmap text Token) !! q)
         /\ size (mapping s') = (size (∅ : gmap text Token) + 2)%nat.
Proof.
  eexists _, _. split; [vm_compute; reflexivity|]. split; [reflexivity|].
  apply (multipart_replace_registers count_up 1 (str "12.03.") (str "12.03.")
           [str "12."; str "03."] "date" (State ∅ 0)).
  vm_compute. reflexivity.
Defined.
(** ** What a replacement pass does to the mapping *)

Lemma length_concat_Forall2 (parts : Match -> list text) (ms : list Match)
    (pss : list (list text)) :
  Forall2 (fun m ps => length ps = length (parts m)) ms pss ->
  length (concat pss) = length (concat (map parts ms)).
Proof.
  induction 1 as [|m ps ms pss Hlen _ IH]; [done|].
  simpl. rewrite !length_app. lia.
Qed.

Lemma elem_of_concat_parts (parts : Match -> list text) (ms : list Match) (part : text) :
  part ∈ concat (map parts ms) -> exists m, m ∈ ms /\ part ∈ parts m.
Proof.
  intros H. apply elem_of_concat in H as (l & Hl & Hp).
  apply list_elem_of_fmap in Hl as (m & -> & Hm). by exists m.
Qed.

Section Frame.
Context (draws : nat -> nat).

Lemma replace_with_frame (fuel : nat) (text_ : text) (token_class : string)
    (parts : Match -> list text) (ms : list Match) (s : state) (text' : text) (s' : state) :
  tiled 0 false (length text_) (map m_span ms) ->
  Forall (fun m => m_string m = text_) ms ->
  replace_with draws fuel text_ token_class parts ms s = Ok text' s' ->
  (forall k tok, mapping s !! k = Some tok -> mapping s' !! k = Some tok)
  /\ (forall k tok, mapping s' !! k = Some tok ->
        mapping s !! k = Some tok
        \/ (mapping s !! k = None /\ is_placeholder k /\ contains text_ k = false
            /\ exists m part, m ∈ ms /\ part ∈ parts m /\ tok = MkToken part token_class))
  /\ size (mapping s') = (size (mapping s) + length (concat (map parts ms)))%nat.
Proof.
  intros Ht Hstr H.
  pose proof (replace_with_spec draws fuel text_ token_class parts ms s Ht Hstr) as Hs.
  rewrite H in Hs. destruct Hs as (pss & Hf2 & Hnd & Hfresh & Hmap & _).
  split_and!.
  - intros k tok Hk. rewrite Hmap, register_all_other; [done|].
    intros Hin. apply Hfresh in Hin as (Hnone & _). congruence.
  - intros k tok Hk. destruct (decide (k ∈ concat pss)) as [Hin | Hout].
    + destruct (Hfresh k Hin) as (Hnone & Hsub & Hph). right.
      rewrite Hmap in Hk. apply register_all_lookup_inv in Hk as [Hk | (part & Hpart & ->)];
        [congruence|].
      split_and!; [done | done | done |].
      apply elem_of_concat_parts in Hpart as (m & Hm & Hpart). by exists m, part.
    + left. by rewrite Hmap, register_all_other in Hk.
  - rewrite Hmap, register_all_size.
    + by rewrite (length_concat_Forall2 parts ms pss).
    + by apply length_concat_Forall2.
    + done.
    + intros p Hp. by apply Hfresh.
Qed.

End Frame.

(** X5.  [_replace_regex] only adds to the mapping: every entry that
    was there is kept with its token; every entry that is new has a
    placeholder for its key that does not occur in the text the pass
    was given, and for its token a piece of that text with the token
    class of the pass; and the mapping grows by one entry for each part
    of each match. *)
Theorem replace_regex_mapping_grows (U : unicode) (draws : nat -> nat) (fuel : nat) (text_ : text) (regex : pattern)
    (token_class_ : string) (s : state) (text' : text) (s' : state) :
  _replace_regex U draws fuel text_ regex token_class_ s = Ok text' s' ->
  (forall k tok, mapping s !! k = Some tok -> mapping s' !! k = Some tok)
  /\ (forall k tok, mapping s' !! k = Some tok ->
        mapping s !! k = Some tok
        \/ (mapping s !! k = None /\ is_placeholder k /\ ~ substring k text_
            /\ token_class tok = token_class_ /\ substring (token tok) text_))
  /\ size (mapping s')
     = (size (mapping s) + length (concat (map parts_of (finditer U regex text_))))%nat.
Proof.
  intros H. rewrite replace_regex_replace_with in H.
  pose proof (finditer_strings U regex text_) as Hstr.
  destruct (replace_with_frame draws fuel text_ token_class_ parts_of (finditer U regex text_)
              s text' s' (finditer_tiled U regex text_) Hstr H) as (Hkeep & Hnew & Hsize).
  split_and!; [done | | done].
  intros k tok Hk. destruct (Hnew k tok Hk) as [Hold | (Hnone & Hph & Hsub & m & part & Hm & Hpart & ->)];
    [by left|].
  right. split_and!; [done | done | | done |].
  - rewrite <- contains_substring. by rewrite Hsub.
  - simpl. rewrite Forall_forall in Hstr. rewrite <- (Hstr m Hm).
    by apply parts_of_substring.
Qed.

Lemma replace_regex_mapping_grows_witness :
  exists text' s',
    _replace_regex ascii_tables count_up 1 (str "12.03.2015") three_part_date_dmy "date"
      (State ∅ 0) = Ok text' s'
    /\ size (mapping s') = 3%nat
    /\ (forall k tok, (∅ : gmap text Token) !! k = Some tok -> mapping s' !! k = Some tok)
    /\ (forall k tok, mapping s' !! k = Some tok ->
          (∅ : gmap text Token) !! k = Some tok
          \/ ((∅ : gmap text Token) !! k = None /\ is_placeholder k
              /\ ~ substring k (str "12.03.2015")
              /\ token_class tok = "date"%string
              /\ substring (token tok) (str "12.03.2015")))
    /\ size (mapping s')
       = (size (∅ : gmap text Token)
          + length (concat (map parts_of
                              (finditer ascii_tables three_part_date_dmy
                                 (str "12.03.2015")))))%nat.
Proof.
  eexists _, _. split; [vm_compute; reflexivity|]. split; [by vm_compute|].
  eapply (replace_regex_mapping_grows ascii_tables count_up 1 (str "12.03.2015") three_part_date_dmy "date"
           (State ∅ 0)).
  vm_compute. reflexivity.
Defined.
(** ** A pass without matches *)

Lemma substring_join_head (sep p : text) (ps : list text) :
  substring p (join sep (p :: ps)).
Proof.
  destruct ps as [|q ps]; simpl.
  - apply substring_refl.
  - by exists [], (sep ++ join sep (q :: ps)).
Qed.

(** X4.  [_replace_regex] returns the text it was given exactly when
    the pattern has no match in it, and it leaves the mapping and the
    random source untouched exactly then.  With a match, the mapping
    has gained an entry: there is a placeholder that was no key before
    and is one now, that the old text does not contain and the new
    text does, and the mapping is larger than it was. *)
Theorem replace_regex_unchanged_iff (U : unicode) (draws : nat -> nat) (fuel : nat)
    (text_ : text) (regex : pattern) (token_class : string) (s : state)
    (text' : text) (s' : state) :
  _replace_regex U draws fuel text_ regex token_class s = Ok text' s' ->
  (finditer U regex text_ = [] <-> text' = text_)
  /\ (finditer U regex text_ = [] <-> s' = s)
  /\ (finditer U regex text_ <> [] ->
      exists p, is_placeholder p
                /\ mapping s !! p = None /\ is_Some (mapping s' !! p)
                /\ ~ substring p text_ /\ substring p text'
                /\ (size (mapping s) < size (mapping s'))%nat).
Proof.
  intros H.
  assert (Hnone : finditer U regex text_ = [] -> text' = text_ /\ s' = s).
  { intros Hms. unfold _replace_regex in H. rewrite Hms in H. by injection H as <- <-. }
  assert (Hsome : finditer U regex text_ <> [] ->
            exists p, is_placeholder p
                      /\ mapping s !! p = None /\ is_Some (mapping s' !! p)
                      /\ ~ substring p text_ /\ substring p text'
                      /\ (size (mapping s) < size (mapping s'))%nat).
  { intros Hms.
    assert (Hsize : size (mapping s')
                    = (size (mapping s)
                       + length (concat (map parts_of (finditer U regex text_))))%nat).
    { rewrite replace_regex_replace_with in H.
      by destruct (replace_with_frame draws fuel text_ token_class parts_of
                     (finditer U regex text_) s text' s'
                     (finditer_tiled U regex text_) (finditer_strings U regex text_) H)
        as (_ & _ & ?). }
    pose proof (replace_regex_spec U draws fuel text_ regex token_class s) as Hs.
    cbv zeta in Hs. rewrite H in Hs.
    destruct Hs as (pss & Hf2 & Hnd & Hfresh & Hmap & _ & Hkeys & ->).
    pose proof (finditer_strings U regex text_) as Hstr.
    destruct (finditer U regex text_) as [|m0 ms] eqn:Ems; [done|].
    destruct (Hkeys m0 ltac:(by left)) as [r0 Hr0].
    destruct (replacements_of_from _ _ _ _ Hr0) as (i & m & ps & Hi & Hpi & Hg & ->).
    assert (Hlen : length ps = length (parts_of m)).
    { exact (Forall2_lookup_lr _ _ _ i m ps Hf2 Hi Hpi). }
    destruct ps as [|p ps].
    { rewrite parts_of_length in Hlen. simpl in Hlen.
      destruct (decide (m_names m = [])) as [|Hn]; [done|]. by destruct (m_names m). }
    assert (Hp : p ∈ concat (pss)).
    { apply elem_of_concat. exists (p :: ps). split; [by eapply list_elem_of_lookup_2 | by left]. }
    destruct (Hfresh p Hp) as (Hpnone & Hpsub & Hph).
    exists p. split_and!.
    - done.
    - done.
    - rewrite Hmap.
      destruct (lookup_lt_is_Some_2 (parts_of m) 0) as [part Hpart].
      { rewrite <- Hlen. simpl. lia. }
      exists (MkToken part token_class).
      exact (register_all_concat_lookup parts_of (m0 :: ms) pss token_class (mapping s)
               i m (p :: ps) 0 p part Hf2 Hnd Hi Hpi eq_refl Hpart).
    - rewrite <- contains_substring. by rewrite Hpsub.
    - rewrite !map_cons. destruct (m_span m0) as [b e] eqn:Esp.
      rewrite splice_edit.
      assert (Hg0 : slice text_ b e = group0 m0).
      { rewrite (group0_slice m0 text_), Esp; [done|].
        rewrite Forall_forall in Hstr. apply Hstr. by left. }
      rewrite Hg0, Hr0. simpl default.
      eapply substring_trans; [apply (substring_join_head (str " ") p ps)|].
      exists (slice text_ 0 b ++ str " "),
             (str " " ++ splice text_ e
                (map (edit_of (replacements_of (zip (m0 :: ms) pss) ∅) text_)
                   (map m_span ms))).
      by rewrite <- !app_assoc.
    - rewrite Hsize. rewrite map_cons. simpl concat. rewrite length_app.
      pose proof (parts_of_length m0) as Hl0.
      destruct (decide (m_names m0 = [])) as [|Hn]; [lia|].
      destruct (m_names m0); [done | simpl in Hl0; lia]. }
  split_and!; [split | split | done].
  - intros Hms. by apply Hnone.
  - intros ->. destruct (finditer U regex text_) eqn:E; [done|].
    destruct Hsome as (p & _ & _ & _ & Hnot & Hin & _); done.
  - intros Hms. by apply Hnone.
  - intros ->. destruct (finditer U regex text_) eqn:E; [done|].
    destruct Hsome as (p & _ & _ & _ & _ & _ & Hlt); [done | lia].
Qed.

Lemma replace_regex_unchanged_iff_witness :
  (exists text' s',
     _replace_regex ascii_tables count_up 1 (str "a.b") dot "symbol" (State ∅ 0)
     = Ok text' s'
     /\ text' = str "a abcdefg b"
     /\ mapping s' !! str "abcdefg" = Some (MkToken (str ".") "symbol")
     /\ (finditer ascii_tables dot (str "a.b") = [] <-> text' = str "a.b")
     /\ (finditer ascii_tables dot (str "a.b") = [] <-> s' = State ∅ 0)
     /\ (finditer ascii_tables dot (str "a.b") <> [] ->
         exists p, is_placeholder p
                   /\ (∅ : gmap text Token) !! p = None /\ is_Some (mapping s' !! p)
                   /\ ~ substring p (str "a.b") /\ substring p text'
                   /\ (size (∅ : gmap text Token) < size (mapping s'))%nat))
  /\ exists text' s',
       _replace_regex ascii_tables count_up 1 (str "no dates here") three_part_date_dmy
         "date" (State ∅ 0) = Ok text' s'
       /\ text' = str "no dates here"
       /\ (finditer ascii_tables three_part_date_dmy (str "no dates here") = []
           <-> text' = str "no dates here")
       /\ (finditer ascii_tables three_part_date_dmy (str "no dates here") = []
           <-> s' = State ∅ 0)
       /\ (finditer ascii_tables three_part_date_dmy (str "no dates here") <> [] ->
           exists p, is_placeholder p
                     /\ (∅ : gmap text Token) !! p = None /\ is_Some (mapping s' !! p)
                     /\ ~ substring p (str "no dates here") /\ substring p text'
                     /\ (size (∅ : gmap text Token) < size (mapping s'))%nat).
Proof.
  split.
  - eexists _, _. split; [vm_compute; reflexivity|]. split; [by vm_compute|].
    split; [by vm_compute|].
    eapply (replace_regex_unchanged_iff ascii_tables count_up 1 (str "a.b") dot "symbol"
              (State ∅ 0)).
    vm_compute. reflexivity.
  - eexists _, _. split; [vm_compute; reflexivity|]. split; [by vm_compute|].
    eapply (replace_regex_unchanged_iff ascii_tables count_up 1 (str "no dates here")
              three_part_date_dmy "date" (State ∅ 0)).
    vm_compute. reflexivity.
Defined.
(** ** The tokens of a text after one pass *)

Lemma split_ws_app_space (acc a : text) (c : N) (b : text) :
  isspace c = true ->
  split_ws acc (a ++ c :: b) = split_ws acc a ++ split_ws [] b.
Proof.
  intros Hc. revert acc. induction a as [|x a IH]; intros acc; simpl.
  - rewrite Hc. by destruct acc.
  - destruct (isspace x).
    + destruct acc; simpl; by rewrite IH.
    + apply IH.
Qed.

Lemma split_app_space (a : text) (c : N) (b : text) :
  isspace c = true -> split (a ++ c :: b) = split a ++ split b.
Proof. apply split_ws_app_space. Qed.

Lemma split_word (w : text) : is_word_ w -> split w = [w].
Proof.
  intros H. by rewrite <- (split_join_placeholders [w]) at 1 by (by constructor).
Qed.

Lemma split_around (gap p rest : text) :
  is_word_ p ->
  split (gap ++ (str " " ++ p ++ str " ") ++ rest) = split gap ++ p :: split rest.
Proof.
  intros Hp.
  change (gap ++ (str " " ++ p ++ str " ") ++ rest)
    with (gap ++ 32%N :: ((p ++ [32%N]) ++ rest)).
  rewrite split_app_space by done. f_equal.
  rewrite <- app_assoc. change ([32%N] ++ rest) with (32%N :: rest).
  rewrite split_app_space by done. by rewrite split_word.
Qed.

Lemma substring_drop (s : text) (n : nat) : substring (drop n s) s.
Proof. exists (take n s), []. by rewrite app_nil_r, take_drop. Qed.

Lemma map_get_token_ext (m m' : gmap text Token) (ws : list text) :
  (forall w, w ∈ ws -> m' !! w = m !! w) ->
  map (get_token m') ws = map (get_token m) ws.
Proof.
  intros H. induction ws as [|w ws IH]; [done|]. simpl. f_equal.
  - unfold get_token. rewrite H; [done | by left].
  - apply IH. intros w' Hw'. apply H. by right.
Qed.

Lemma splice_tokens (r : gmap text text) (m0 m' : gmap text Token) (token_class : string)
    (text_ : text) (ms : list Match) :
  (forall w, substring w text_ -> m' !! w = m0 !! w) ->
  Forall (fun m => m_string m = text_
                   /\ exists p, r !! group0 m = Some p /\ is_word_ p
                                /\ m' !! p = Some (MkToken (group0 m) token_class)) ms ->
  forall from,
    map (get_token m') (split (splice text_ from (map (edit_of r text_) (map m_span ms))))
    = tokens_between m0 token_class text_ from ms.
Proof.
  intros Hgap. induction 1 as [|m ms (Hstr & p & Hr & Hw & Hp) _ IH]; intros from.
  - simpl. apply map_get_token_ext. intros w Hw. apply Hgap.
    eapply substring_trans; [|apply substring_drop].
    eapply splits_substring; [apply split_splits | done].
  - rewrite !map_cons. destruct (m_span m) as [b e] eqn:Esp.
    rewrite splice_edit.
    assert (Hg : slice text_ b e = group0 m).
    { by rewrite (group0_slice m text_), Esp. }
    rewrite Hg, Hr. simpl default. rewrite split_around by done.
    rewrite map_app, map_cons, IH.
    cbn [tokens_between]. rewrite Esp. cbn [fst snd]. f_equal.
    + apply map_get_token_ext. intros w Hw'. apply Hgap.
      eapply substring_trans; [|apply substring_slice].
      eapply splits_substring; [apply split_splits | done].
    + f_equal. unfold get_token. by rewrite Hp.
Qed.

(** The tokens read back after one pass, for a pattern without named
    groups. *)
Lemma replace_regex_reintroduced (U : unicode) (draws : nat -> nat) (fuel : nat)
    (text_ : text) (regex : pattern) (token_class : string) (s : state)
    (text' : text) (s' : state) :
  named_groups (re regex) = [] ->
  _replace_regex U draws fuel text_ regex token_class s = Ok text' s' ->
  _reintroduce_instances (split text') s'
  = Ok (tokens_between (mapping s) token_class text_ 0 (finditer U regex text_)) s'.
Proof.
  intros Hnames H.
  pose proof (replace_regex_spec U draws fuel text_ regex token_class s) as Hs.
  cbv zeta in Hs. rewrite H in Hs.
  destruct Hs as (pss & Hf2 & Hnd & Hfresh & Hmap & _ & Hkeys & ->).
  unfold _reintroduce_instances. f_equal.
  change (map (fun t => default (MkToken t "regular") (mapping s' !! t)))
    with (map (get_token (mapping s'))).
  apply splice_tokens.
  - intros w Hw. rewrite Hmap. apply register_all_other. intros Hin.
    apply Hfresh in Hin as (_ & Hsub & _). apply contains_substring in Hw. congruence.
  - pose proof (finditer_string U regex text_) as Hstr.
    apply Forall_forall. intros m Hm.
    rewrite Forall_forall in Hstr. destruct (Hstr m Hm) as [Hs Hn]. split; [done|].
    destruct (Hkeys m Hm) as [r0 Hr0].
    destruct (replacements_of_from _ _ _ _ Hr0) as (i & m1 & ps & Hi & Hpi & Hg & ->).
    assert (Hm1 : m_names m1 = []).
    { rewrite <- Hnames. apply (Hstr m1). by eapply list_elem_of_lookup_2. }
    assert (Hlen : length ps = length (parts_of m1)).
    { exact (Forall2_lookup_lr _ _ _ i m1 ps Hf2 Hi Hpi). }
    rewrite (parts_of_unnamed m1 Hm1) in Hlen.
    destruct ps as [|p [|? ?]]; try done.
    exists p. split_and!.
    + by rewrite Hr0.
    + apply placeholder_word. apply Hfresh, elem_of_concat.
      exists [p]. split; [by eapply list_elem_of_lookup_2 | by left].
    + rewrite Hmap, <- Hg.
      apply (register_all_concat_lookup parts_of (finditer U regex text_) pss token_class
               (mapping s) i m1 [p] 0 p (group0 m1) Hf2 Hnd Hi Hpi eq_refl).
      by rewrite (parts_of_unnamed m1 Hm1).
Qed.

(** X6.  For a pattern without named groups, splitting the text that
    [_replace_regex] returns on whitespace and putting the tokens back
    with [_reintroduce_instances] gives, from left to right, the words
    of the text before the first match, the first match as one token
    of the class of the pass, the words between the first and the
    second match, and so on; the words between the matches are looked
    up in the mapping as it was before the pass. *)
Theorem replace_regex_tokens (U : unicode) (draws : nat -> nat) (fuel : nat)
    (text_ : text) (regex : pattern) (token_class : string) (s : state)
    (text' : text) (s' : state) :
  named_groups (re regex) = [] ->
  _replace_regex U draws fuel text_ regex token_class s = Ok text' s' ->
  _reintroduce_instances (split text') s'
  = Ok (tokens_between (mapping s) token_class text_ 0 (finditer U regex text_)) s'.
Proof.
  intros Hnames H.
  exact (replace_regex_reintroduced U draws fuel text_ regex token_class s text' s'
           Hnames H).
Qed.

Lemma replace_regex_tokens_witness :
  exists text' s',
    named_groups (re dot) = []
    /\ _replace_regex ascii_tables count_up 1 (str "a b.c.") dot "symbol" (State ∅ 0)
       = Ok text' s'
    /\ _reintroduce_instances (split text') s'
       = Ok [MkToken (str "a") "regular"; MkToken (str "b") "regular";
             MkToken (str ".") "symbol"; MkToken (str "c") "regular";
             MkToken (str ".") "symbol"] s'
    /\ _reintroduce_instances (split text') s'
       = Ok (tokens_between ∅ "symbol" (str "a b.c.") 0
               (finditer ascii_tables dot (str "a b.c."))) s'.
Proof.
  eexists _, _. split; [reflexivity|]. split; [vm_compute; reflexivity|].
  split; [vm_compute; reflexivity|].
  apply (replace_regex_tokens ascii_tables count_up 1 (str "a b.c.") dot "symbol" (State ∅ 0)).
  - reflexivity.
  - vm_compute. reflexivity.
Defined.

(** X18.  For a pattern without named groups, the tokens read back
    after one pass of [_replace_regex] do not depend on the random
    choices: two runs of the pass on the same text and mapping, with
    any two sequences of draws, give the same tokens in the same
    order. *)
Theorem replace_regex_tokens_independent (U : unicode) (draws1 draws2 : nat -> nat)
    (fuel1 fuel2 : nat) (text_ : text) (regex : pattern) (token_class : string)
    (s1 s2 : state) (text1 text2 : text) (s1' s2' : state) :
  named_groups (re regex) = [] ->
  mapping s1 = mapping s2 ->
  _replace_regex U draws1 fuel1 text_ regex token_class s1 = Ok text1 s1' ->
  _replace_regex U draws2 fuel2 text_ regex token_class s2 = Ok text2 s2' ->
  map (get_token (mapping s1')) (split text1) = map (get_token (mapping s2')) (split text2).
Proof.
  intros Hnames Hmap H1 H2.
  apply (replace_regex_reintroduced U draws1 fuel1 text_ regex token_class s1 text1 s1'
           Hnames) in H1.
  apply (replace_regex_reintroduced U draws2 fuel2 text_ regex token_class s2 text2 s2'
           Hnames) in H2.
  unfold _reintroduce_instances in H1, H2.
  injection H1 as H1. injection H2 as H2. unfold get_token.
  rewrite H1, H2. by rewrite Hmap.
Qed.

Lemma replace_regex_tokens_independent_witness :
  exists text1 text2 s1' s2',
    _replace_regex ascii_tables count_up 1 (str "a b.c.") dot "symbol" (State ∅ 0)
    = Ok text1 s1'
    /\ _replace_regex ascii_tables (fun i => (i + 7)%nat) 1 (str "a b.c.") dot "symbol"
         (State ∅ 0) = Ok text2 s2'
    /\ text1 <> text2
    /\ map (get_token (mapping s1')) (split text1)
       = map (get_token (mapping s2')) (split text2).
Proof.
  eexists _, _, _, _. split; [vm_compute; reflexivity|].
  split; [vm_compute; reflexivity|]. split; [by vm_compute|].
  eapply (replace_regex_tokens_independent ascii_tables count_up (fun i => (i + 7)%nat) 1 1
            (str "a b.c.") dot "symbol" (State ∅ 0) (State ∅ 0)).
  - reflexivity.
  - reflexivity.
  - vm_compute. reflexivity.
  - vm_compute. reflexivity.
Defined.
(** ** The mapping along the pipeline *)

Lemma classes_of_cons (st : stage) (sts : list stage) :
  classes_of (st :: sts) = classes_of [st] ++ classes_of sts.
Proof. unfold classes_of. simpl. by rewrite app_nil_r. Qed.

Section PipelineFrame.
Context (U : unicode) (draws : nat -> nat) (self : Tokenizer).

Lemma run_stage_frame (fuel : nat) (st : stage) (text_ : text) (s : state)
    (text' : text) (s' : state) :
  run_stage U draws self fuel st text_ s = Ok text' s' ->
  (forall k tok, mapping s !! k = Some tok -> mapping s' !! k = Some tok)
  /\ (forall k tok, mapping s' !! k = Some tok ->
        mapping s !! k = Some tok
        \/ (mapping s !! k = None /\ is_placeholder k
            /\ token_class tok ∈ classes_of [st])).
Proof.
  destruct st as [regex token_class_ | regex template |]; simpl; intros H.
  - rewrite replace_regex_replace_with in H.
    destruct (replace_with_frame draws fuel text_ token_class_ parts_of
                (finditer U regex text_) s text' s'
                (finditer_tiled U regex text_) (finditer_strings U regex text_) H)
      as (Hkeep & Hnew & _).
    split; [done|]. intros k tok Hk.
    destruct (Hnew k tok Hk) as [? | (? & ? & _ & m & part & _ & _ & ->)]; [by left|].
    right. split_and!; [done | done | by left].
  - injection H as <- <-. split; [done|]. intros k tok Hk. by left.
  - rewrite replace_abbreviation_instances_replace_with in H.
    destruct (replace_with_frame draws fuel text_ "abbreviation" (abbreviation_parts_of U)
                (finditer U (abbreviation (abbreviation_list self)) text_) s text' s'
                (finditer_tiled U _ text_) (finditer_strings U _ text_) H)
      as (Hkeep & Hnew & _).
    split; [done|]. intros k tok Hk.
    destruct (Hnew k tok Hk) as [? | (? & ? & _ & m & part & _ & _ & ->)]; [by left|].
    right. split_and!; [done | done | by left].
Qed.

Lemma run_frame (fuel : nat) (sts : list stage) (text_ : text) (s : state)
    (text' : text) (s' : state) :
  run U draws self fuel sts text_ s = Ok text' s' ->
  (forall k tok, mapping s !! k = Some tok -> mapping s' !! k = Some tok)
  /\ (forall k tok, mapping s' !! k = Some tok ->
        mapping s !! k = Some tok
        \/ (mapping s !! k = None /\ is_placeholder k
            /\ token_class tok ∈ classes_of sts)).
Proof.
  revert text_ s. induction sts as [|st sts IH]; intros text_ s H; simpl in H.
  - injection H as <- <-. split; [done|]. intros k tok Hk. by left.
  - apply bind_Ok in H as (text1 & s1 & H1 & H).
    apply run_stage_frame in H1 as [Hkeep1 Hnew1].
    apply IH in H as [Hkeep Hnew]. split.
    + intros k tok Hk. by apply Hkeep, Hkeep1.
    + intros k tok Hk.
      rewrite classes_of_cons.
      destruct (Hnew k tok Hk) as [Hold | (Hnone & Hph & Hc)].
      * destruct (Hnew1 k tok Hold) as [? | (? & ? & Hc)]; [by left|].
        right. split_and!; [done | done |]. apply elem_of_app. by left.
      * right. split_and!; [| done | apply elem_of_app; by right].
        destruct (mapping s !! k) as [tok0|] eqn:E; [|done].
        apply Hkeep1 in E. congruence.
Qed.

End PipelineFrame.

(** X7.  [_replace_abbreviations] only adds to the mapping: the entries
    that were there are kept, and every new entry has a placeholder for
    its key and a token of the class abbreviation. *)
Theorem replace_abbreviations_mapping (U : unicode) (draws : nat -> nat) (self : Tokenizer)
    (fuel : nat) (text_ : text) (s : state) (text' : text) (s' : state) :
  _replace_abbreviations U draws self fuel text_ s = Ok text' s' ->
  (forall k tok, mapping s !! k = Some tok -> mapping s' !! k = Some tok)
  /\ (forall k tok, mapping s' !! k = Some tok ->
        mapping s !! k = Some tok
        \/ (mapping s !! k = None /\ is_placeholder k
            /\ token_class tok = "abbreviation"%string)).
Proof.
  intros H. apply run_frame in H as [Hkeep Hnew]. split; [done|].
  intros k tok Hk. destruct (Hnew k tok Hk) as [? | (? & ? & Hc)]; [by left|].
  right. split_and!; [done | done |].
  simpl in Hc. repeat (apply elem_of_cons in Hc as [Hc | Hc]; [done|]).
  by apply elem_of_nil in Hc.
Qed.

Lemma replace_abbreviations_mapping_witness :
  exists text' s',
    _replace_abbreviations ascii_tables count_up (sample_tokenizer false true) 1
      (str "Dr. Who usw.") (State ∅ 0) = Ok text' s'
    /\ size (mapping s') = 2%nat
    /\ (forall k tok, (∅ : gmap text Token) !! k = Some tok -> mapping s' !! k = Some tok)
    /\ (forall k tok, mapping s' !! k = Some tok ->
          (∅ : gmap text Token) !! k = Some tok
          \/ ((∅ : gmap text Token) !! k = None /\ is_placeholder k
              /\ token_class tok = "abbreviation"%string)).
Proof.
  eexists _, _. split; [vm_compute; reflexivity|]. split; [by vm_compute|].
  eapply (replace_abbreviations_mapping ascii_tables count_up (sample_tokenizer false true) 1
            (str "Dr. Who usw.") (State ∅ 0)).
  vm_compute. reflexivity.
Defined.

Lemma classes_of_stages (self : Tokenizer) (c : string) :
  c ∈ classes_of (stages self) -> c ∈ token_class_names.
Proof.
  unfold stages. intros H. destruct (split_camel_case self); vm_compute in H;
    repeat (apply elem_of_cons in H as [-> | H];
            [by repeat first [apply list_elem_of_here | apply list_elem_of_further] |]);
    by apply elem_of_nil in H.
Qed.

(** X8.  When [tokenize] returns, every key of [self.mapping] is a
    string of seven letters of the alphabet; so a word that is not of
    this form is given back by [_reintroduce_instances] as it is, with
    the class regular. *)
Theorem tokenize_mapping_keys (U : unicode) (draws : nat -> nat) (self : Tokenizer)
    (fuel : nat) (paragraph : text) (s : state) (out : output) (s' : state) :
  tokenize U draws self fuel paragraph s = Ok out s' ->
  (forall k, is_Some (mapping s' !! k) -> is_placeholder k)
  /\ forall w, ~ is_placeholder w ->
       _reintroduce_instances [w] s' = Ok [MkToken w "regular"] s'.
Proof.
  intros H. apply tokenize_Ok in H as (final_text & Hrun & _).
  apply run_frame in Hrun as [_ Hnew].
  assert (Hkeys : forall k, is_Some (mapping s' !! k) -> is_placeholder k).
  { intros k [tok Hk]. destruct (Hnew k tok Hk) as [Hold | (_ & Hph & _)]; [|done].
    simpl in Hold. by rewrite lookup_empty in Hold. }
  split; [done|]. intros w Hw. unfold _reintroduce_instances. simpl.
  destruct (mapping s' !! w) as [tok|] eqn:E; [|done].
  destruct Hw. apply Hkeys. by eexists.
Qed.

Lemma tokenize_mapping_keys_witness :
  exists out s',
    tokenize ascii_tables count_up (sample_tokenizer false true) 1
      (str "Er kommt um 17:30 Uhr.") (State ∅ 0) = Ok out s'
    /\ size (mapping s') = 2%nat
    /\ (forall k, is_Some (mapping s' !! k) -> is_placeholder k)
    /\ forall w, ~ is_placeholder w ->
         _reintroduce_instances [w] s' = Ok [MkToken w "regular"] s'.
Proof.
  eexists _, _. split; [vm_compute; reflexivity|]. split; [by vm_compute|].
  eapply (tokenize_mapping_keys ascii_tables count_up (sample_tokenizer false true) 1
            (str "Er kommt um 17:30 Uhr.") (State ∅ 0)).
  vm_compute. reflexivity.
Defined.

(** X9.  The class of every token that [tokenize] returns is one of
    the nineteen class names of the source: regular, or the class of
    the rule that registered the token. *)
Theorem tokenize_token_classes (U : unicode) (draws : nat -> nat) (self : Tokenizer)
    (fuel : nat) (paragraph : text) (s : state) (tokens : list Token) (s' : state) :
  tokenize U draws self fuel paragraph s = Ok (Classified tokens) s' ->
  Forall (fun t => token_class t ∈ token_class_names) tokens.
Proof.
  intros H. apply tokenize_Ok in H as (final_text & Hrun & Hout).
  apply run_frame in Hrun as [_ Hnew]. cbv zeta in Hout.
  destruct (token_classes self); [|done]. injection Hout as ->.
  apply Forall_forall. intros t Ht. apply list_elem_of_fmap in Ht as (w & -> & _).
  destruct (mapping s' !! w) as [tok|] eqn:E; simpl.
  - destruct (Hnew w tok E) as [Hold | (_ & _ & Hc)].
    + simpl in Hold. by rewrite lookup_empty in Hold.
    + by apply (classes_of_stages self).
  - by left.
Qed.

Lemma tokenize_token_classes_witness :
  exists tokens s',
    tokenize ascii_tables count_up (sample_tokenizer false true) 1
      (str "Er kommt um 17:30 Uhr.") (State ∅ 0) = Ok (Classified tokens) s'
    /\ map token_class tokens
       = ["regular"; "regular"; "regular"; "time"; "regular"; "symbol"]%string
    /\ Forall (fun t => token_class t ∈ token_class_names) tokens.
Proof.
  eexists _, _. split; [vm_compute; reflexivity|]. split; [reflexivity|].
  eapply (tokenize_token_classes ascii_tables count_up (sample_tokenizer false true) 1
            (str "Er kommt um 17:30 Uhr.") (State ∅ 0)).
  vm_compute. reflexivity.
Defined.
(** ** The options and the rules that do not apply *)

(** X10.  The option [token_classes] does not change what [tokenize]
    does to the paragraph: with the option unset it returns the texts
    of the tokens it returns with the option set, in the same order,
    and ends in the same state. *)
Theorem tokenize_token_classes_option (U : unicode) (draws : nat -> nat) (self : Tokenizer)
    (fuel : nat) (paragraph : text) (s : state) :
  tokenize U draws (with_token_classes false self) fuel paragraph s
  = match tokenize U draws (with_token_classes true self) fuel paragraph s with
    | Ok out s' => Ok (Plain (token_texts out)) s'
    | KeyError key => KeyError key
    | Looping text_ s0 => Looping text_ s0
    end.
Proof.
  assert (Hrun : forall sts text_ s0,
            run U draws (with_token_classes false self) fuel sts text_ s0
            = run U draws (with_token_classes true self) fuel sts text_ s0).
  { induction sts as [|st sts IH]; intros text_ s0; [done|]. simpl. unfold bind.
    assert (Hst : run_stage U draws (with_token_classes false self) fuel st text_ s0
                  = run_stage U draws (with_token_classes true self) fuel st text_ s0).
    { by destruct st. }
    rewrite Hst. destruct (run_stage _ _ _ _ _ _ _); [apply IH | done | done]. }
  unfold tokenize, bind, reset_mapping.
  change (stages (with_token_classes false self))
    with (stages (with_token_classes true self)).
  rewrite Hrun.
  destruct (run U draws (with_token_classes true self) fuel
              (stages (with_token_classes true self)) paragraph (State ∅ (drawn s)));
    done.
Qed.

(** X11.  When none of the replacement passes of [tokenize] finds a
    match in its working text, [tokenize] returns the words of the
    paragraph as the substitutions have rewritten it, split on
    whitespace, each with the class regular; it registers nothing and
    draws no random string. *)
Theorem tokenize_no_match (U : unicode) (draws : nat -> nat) (self : Tokenizer)
    (fuel : nat) (paragraph : text) (s : state) :
  quiet U self (stages self) paragraph = true ->
  tokenize U draws self fuel paragraph s
  = Ok (if token_classes self
        then Classified (map (fun w => MkToken w "regular")
                           (split (substituted U (stages self) paragraph)))
        else Plain (split (substituted U (stages self) paragraph)))
       (State ∅ (drawn s)).
Proof.
  intros H. unfold tokenize. unfold bind at 1. unfold reset_mapping. unfold bind at 1.
  rewrite (run_quiet U draws self fuel (stages self) paragraph _ H).
  generalize (substituted U (stages self) paragraph). intros final_text.
  unfold bind, _reintroduce_instances, ret. rewrite split_strip.
  assert (Hmap : map (fun t => default (MkToken t "regular") ((∅ : gmap text Token) !! t))
                   (split final_text)
                 = map (fun w => MkToken w "regular") (split final_text)).
  { apply map_ext. intros w. by rewrite lookup_empty. }
  cbn [mapping]. rewrite Hmap. destruct (token_classes self); [done|].
  do 2 f_equal. rewrite map_map. cbn [token]. apply map_id.
Qed.

Lemma tokenize_no_match_witness :
  quiet ascii_tables (sample_tokenizer false true) (stages (sample_tokenizer false true))
    (str " ab  cd ") = true
  /\ split (substituted ascii_tables (stages (sample_tokenizer false true)) (str " ab  cd "))
     = [str "ab"; str "cd"]
  /\ tokenize ascii_tables count_up (sample_tokenizer false true) 1 (str " ab  cd ")
       (State ∅ 0)
     = Ok (if token_classes (sample_tokenizer false true)
           then Classified (map (fun w => MkToken w "regular")
                              (split (substituted ascii_tables
                                        (stages (sample_tokenizer false true))
                                        (str " ab  cd "))))
           else Plain (split (substituted ascii_tables
                                (stages (sample_tokenizer false true)) (str " ab  cd "))))
          (State ∅ 0).
Proof.
  split; [by vm_compute|]. split; [by vm_compute|].
  apply (tokenize_no_match ascii_tables count_up (sample_tokenizer false true) 1
           (str " ab  cd ") (State ∅ 0)).
  by vm_compute.
Defined.
(** ** Splitting abbreviations and reading lexicons *)

(** X12.  An instance that [multipart_abbreviation] matches in full is
    cut by [_replace_abbreviations] into two or more parts, each a run
    of letters followed by a full stop, and the parts put together are
    the instance: no character is lost or added. *)
Theorem abbreviation_parts_concat (U : unicode) (instance : text) :
  letters_ok U ->
  fullmatch U multipart_abbreviation instance = true ->
  concat (abbreviation_parts instance) = instance
  /\ (2 <= length (abbreviation_parts instance))%nat
  /\ Forall (fun part => exists l, part = l ++ str "." /\ is_letters U l)
       (abbreviation_parts instance).
Proof.
  intros Hok Hfull.
  destruct (multipart_fullmatch_groups U instance Hfull) as (ls & Hlen & Hg).
  assert (Hne : ls <> []) by (destruct ls; [simpl in Hlen; lia | done]).
  rewrite (abbreviation_parts_groups U ls instance Hok Hne Hg).
  destruct Hg as [Hletters ->]. split_and!.
  - done.
  - by rewrite length_map.
  - apply Forall_forall. intros part Hpart.
    apply list_elem_of_fmap in Hpart as (l & -> & Hl).
    exists l. split; [done|]. rewrite Forall_forall in Hletters. by apply Hletters.
Qed.

Lemma abbreviation_parts_concat_witness :
  letters_ok ascii_tables
  /\ fullmatch ascii_tables multipart_abbreviation (str "z.B.") = true
  /\ abbreviation_parts (str "z.B.") = [str "z."; str "B."]
  /\ concat (abbreviation_parts (str "z.B.")) = str "z.B."
  /\ (2 <= length (abbreviation_parts (str "z.B.")))%nat
  /\ Forall (fun part => exists l, part = l ++ str "." /\ is_letters ascii_tables l)
       (abbreviation_parts (str "z.B.")).
Proof.
  split; [apply ascii_letters_ok|]. split; [by vm_compute|]. split; [by vm_compute|].
  apply (abbreviation_parts_concat ascii_tables (str "z.B.")).
  - apply ascii_letters_ok.
  - by vm_compute.
Defined.

Lemma read_abbreviation_file_elem (fh : list text) (e : text) :
  e ∈ _read_abbreviation_file fh
  <-> exists line, line ∈ fh /\ e = strip line
                   /\ startswith (str "#") e = false /\ e <> [].
Proof.
  unfold _read_abbreviation_file, sorted_by_len.
  rewrite merge_sort_Permutation, elem_of_elements, read_lines_elem. split.
  - intros [H | H]; [by apply not_elem_of_empty in H | done].
  - by right.
Qed.

Lemma read_abbreviation_file_NoDup (fh : list text) : NoDup (_read_abbreviation_file fh).
Proof.
  unfold _read_abbreviation_file, sorted_by_len.
  rewrite merge_sort_Permutation. apply NoDup_elements.
Qed.

(** X13.  The entries [_read_abbreviation_file] returns are not empty
    and have no whitespace at their first or last character, and
    reading them again as the lines of a file gives the same entries:
    nothing is dropped and nothing new appears. *)
Theorem read_abbreviation_file_stable (fh : list text) :
  let entries := _read_abbreviation_file fh in
  Forall trimmed entries
  /\ _read_abbreviation_file entries ≡ₚ entries.
Proof.
  intros entries.
  assert (Htrim : Forall trimmed entries).
  { apply Forall_forall. intros e He.
    apply read_abbreviation_file_elem in He as (line & _ & Hs & _ & Hne).
    by destruct (proj1 (strip_padded line e) (conj Hs Hne)). }
  assert (Hstrip : forall e, e ∈ entries -> strip e = e).
  { intros e He. rewrite Forall_forall in Htrim.
    assert (Hp : padded e e).
    { exists [], []. by rewrite app_nil_r. }
    by destruct (proj2 (strip_padded e e) (conj Hp (Htrim e He))). }
  split; [done|].
  apply NoDup_Permutation; [apply read_abbreviation_file_NoDup.. |].
  intros e. rewrite read_abbreviation_file_elem. split.
  - intros (line & Hline & -> & _). by rewrite (Hstrip line Hline).
  - intros He. exists e.
    split_and!; [done | by rewrite (Hstrip e He) | |].
    + apply read_abbreviation_file_elem in He as (line & _ & _ & H & _). done.
    + apply read_abbreviation_file_elem in He as (line & _ & _ & _ & H). done.
Qed.
(** ** The last loop of [_replace_abbreviations] and [_replace_regex] *)

Lemma named_groups_lit_text (s : text) : named_groups (lit_text s) = [].
Proof.
  induction s as [|c s IH]; [done|]. destruct s as [|c' s]; [done|].
  change (named_groups (lit_text (c :: c' :: s)))
    with (named_groups (Lit c) ++ named_groups (lit_text (c' :: s))).
  by rewrite IH.
Qed.

Lemma named_groups_join_escaped (entries : list text) :
  named_groups (join_escaped entries) = [].
Proof.
  unfold join_escaped. induction entries as [|e entries IH]; [done|].
  destruct entries as [|e' entries]; [apply named_groups_lit_text|].
  change (named_groups (alt (map lit_text (e :: e' :: entries))))
    with (named_groups (lit_text e) ++ named_groups (alt (map lit_text (e' :: entries)))).
  by rewrite named_groups_lit_text, IH.
Qed.

Lemma named_groups_abbreviation (entries : list text) :
  named_groups (re (abbreviation entries)) = [].
Proof.
  change (named_groups (re (abbreviation entries)))
    with (named_groups no_word_or_dot_before
          ++ (named_groups (at_least 2 (cat [alpha_; lit "."]))
              ++ named_groups (join_escaped entries))
          ++ named_groups no_abbreviation_follows).
  by rewrite named_groups_join_escaped.
Qed.

Lemma for_each_ext_Forall {A B} (l : list A) (acc : B) (f g : B -> A -> M B) (s : state) :
  Forall (fun a => forall acc s, f acc a s = g acc a s) l ->
  for_each l acc f s = for_each l acc g s.
Proof.
  intros H. revert acc s. induction H as [|a l Ha _ IH]; intros acc s; simpl; [done|].
  unfold bind. rewrite Ha. destruct (g acc a s); [apply IH | done | done].
Qed.

(** X14.  When no match of the abbreviation pattern is a multi-part
    abbreviation, the loop at the end of [_replace_abbreviations] does
    what [_replace_regex] does with the same pattern and the class
    abbreviation: the same text, the same mapping, the same random
    strings. *)
Theorem replace_abbreviation_instances_as_replace_regex (U : unicode) (draws : nat -> nat)
    (self : Tokenizer) (fuel : nat) (text_ : text) (s : state) :
  Forall (fun m => fullmatch U multipart_abbreviation (group0 m) = false)
    (finditer U (abbreviation (abbreviation_list self)) text_) ->
  replace_abbreviation_instances U draws self fuel text_ s
  = _replace_regex U draws fuel text_ (abbreviation (abbreviation_list self))
      "abbreviation" s.
Proof.
  intros H. unfold replace_abbreviation_instances, _replace_regex.
  unfold bind at 1 5.
  rewrite (for_each_ext_Forall _ _ _
             (fun (acc : gmap text text * gset (nat * nat)) match_ =>
                let replacements := acc.1 in
                let instance := group0 match_ in
                let spans := {[ m_span match_ ]} ∪ acc.2 in
                if (0 <? length (groupdict match_))%nat then
                  let parts := map snd (sorted_items (groupdict match_)) in
                  let* multipart :=
                    _multipart_replace draws fuel text_ instance parts "abbreviation" in
                  ret (<[instance := multipart]> replacements, spans)
                else
                  let* replacement := _get_unique_string draws fuel text_ in
                  let* _ := set_mapping replacement (MkToken instance "abbreviation") in
                  ret (<[instance := replacement]> replacements, spans))); [done|].
  pose proof (finditer_string U (abbreviation (abbreviation_list self)) text_) as Hn.
  rewrite Forall_forall in H, Hn. apply Forall_forall. intros m Hm acc s0.
  rewrite (H m Hm). destruct (Hn m Hm) as [_ Hnames].
  rewrite named_groups_abbreviation in Hnames.
  assert (Hd : groupdict m = []) by (unfold groupdict; by rewrite Hnames).
  by rewrite Hd.
Qed.

Lemma replace_abbreviation_instances_as_replace_regex_witness :
  Forall (fun m => fullmatch ascii_tables multipart_abbreviation (group0 m) = false)
    (finditer ascii_tables (abbreviation (abbreviation_list (sample_tokenizer false true)))
       (str "Dr. Who usw."))
  /\ map group0 (finditer ascii_tables
                   (abbreviation (abbreviation_list (sample_tokenizer false true)))
                   (str "Dr. Who usw."))
     = [str "Dr."; str "usw."]
  /\ replace_abbreviation_instances ascii_tables count_up (sample_tokenizer false true) 1
       (str "Dr. Who usw.") (State ∅ 0)
     = _replace_regex ascii_tables count_up 1 (str "Dr. Who usw.")
         (abbreviation (abbreviation_list (sample_tokenizer false true)))
         "abbreviation" (State ∅ 0).
Proof.
  assert (H : Forall (fun m => fullmatch ascii_tables multipart_abbreviation (group0 m)
                               = false)
                (finditer ascii_tables
                   (abbreviation (abbreviation_list (sample_tokenizer false true)))
                   (str "Dr. Who usw."))).
  { apply Forall_forall. intros m Hm. vm_compute in Hm.
    repeat (apply elem_of_cons in Hm as [-> | Hm]; [by vm_compute|]).
    by apply elem_of_nil in Hm. }
  split; [done|]. split; [by vm_compute|].
  exact (replace_abbreviation_instances_as_replace_regex ascii_tables count_up
           (sample_tokenizer false true) 1 (str "Dr. Who usw.") (State ∅ 0) H).
Defined.
(** ** What the matches of a pattern look like *)

Lemma moved_slice (st st' : mstate) (mid : text) :
  wf st -> moved st mid st' -> slice (subject st) (pos st) (pos st') = mid.
Proof.
  unfold wf, moved, subject, slice. intros Hwf (_ & Ha & Hp).
  rewrite Hp, Hwf, Ha.
  replace (length (before st) + length mid - length (before st))%nat
    with (length mid) by lia.
  rewrite drop_app_length'; [|by rewrite length_reverse].
  by rewrite take_app_length.
Qed.

Section Language.
Context (U : unicode).

Lemma match_at_lang (p : pattern) (f : bool) (st st' : mstate) :
  wf st -> match_at U p f st = Some st' ->
  extends st st'
  /\ lang U (ignorecase p) (re p) (slice (subject st) (pos st) (pos st')).
Proof.
  intros Hwf H. unfold match_at in H.
  apply exec_sound in H as (st1 & mid & Hm & Hl & Hk).
  destruct (f && Nat.eqb (pos st1) (pos st)); [done|]. injection Hk as <-.
  split; [by eapply moved_extends|]. by rewrite (moved_slice st st1 mid).
Qed.

Lemma scan_lang (p : pattern) (fuel : nat) (f : bool) (st : mstate) :
  wf st ->
  Forall (fun m => lang U (ignorecase p) (re p) (group0 m)) (scan U p fuel f st).
Proof.
  revert f st. induction fuel as [|fuel IH]; intros f st Hwf; simpl; [constructor|].
  destruct (match_at U p f st) as [st'|] eqn:Em.
  - apply match_at_lang in Em as [E Hl]; [|done]. constructor; [done|].
    apply IH. destruct E as (m & Hb & Ha & Hp).
    apply (extends_wf st); [done|]. by exists m.
  - destruct (after st) as [|c a] eqn:Ha; [constructor|].
    apply IH. eapply extends_wf; [done|]. by eapply extends_advance.
Qed.

(** Every match [finditer] yields is a text of the language of the
    pattern. *)
Lemma finditer_lang (p : pattern) (s : text) :
  Forall (fun m => lang U (ignorecase p) (re p) (group0 m)) (finditer U p s).
Proof. unfold finditer. by apply scan_lang. Qed.

End Language.

(** ** Whitespace normalisation keeps the words *)

Lemma re_space_isspace (c : N) : re_space c = true -> isspace c = true.
Proof.
  unfold re_space, isspace. intros H.
  repeat (apply orb_true_iff in H as [H | H]);
    try (rewrite H; by rewrite ?orb_true_r).
  apply N.eqb_eq in H. by subst c.
Qed.

Lemma split_ws_leading (ws s : text) :
  Forall (fun c => isspace c = true) ws -> split_ws [] (ws ++ s) = split_ws [] s.
Proof.
  induction 1 as [|c ws Hc _ IH]; [done|]. simpl. by rewrite Hc.
Qed.

Lemma split_app_spaces (a ws b : text) :
  ws <> [] -> Forall (fun c => isspace c = true) ws ->
  split (a ++ ws ++ b) = split a ++ split b.
Proof.
  intros Hne Hws. destruct ws as [|c ws]; [done|].
  apply Forall_cons in Hws as [Hc Hws].
  change (a ++ (c :: ws) ++ b) with (a ++ c :: (ws ++ b)).
  rewrite split_app_space by done. f_equal. by apply split_ws_leading.
Qed.

Lemma lang_spaces (U : unicode) (s : text) :
  lang U (ignorecase spaces) (re spaces) s ->
  s <> [] /\ Forall (fun c => isspace c = true) s.
Proof.
  simpl. intros (pieces & -> & Hlen & Hall).
  assert (Hc : Forall (fun piece => exists c, piece = [c] /\ isspace c = true) pieces).
  { eapply Forall_impl; [done|]. intros piece (c & -> & Hc). exists c. split; [done|].
    apply re_space_isspace. unfold set_has in Hc. simpl in Hc.
    by rewrite !orb_false_r in Hc. }
  clear Hall. split.
  - destruct pieces as [|piece pieces]; [simpl in Hlen; lia|].
    apply Forall_cons in Hc as [(c & -> & _) _]. done.
  - clear Hlen. induction Hc as [|piece pieces (c & -> & Hc) _ IH]; [constructor|].
    simpl. constructor; [done|]. apply IH.
Qed.

Lemma drop_slice (s : text) (from b : nat) :
  (from <= b)%nat -> drop from s = slice s from b ++ drop b s.
Proof.
  intros H. unfold slice. rewrite <- (take_drop (b - from) (drop from s)) at 1.
  rewrite drop_drop. by replace (from + (b - from))%nat with b by lia.
Qed.

Lemma splice_spaces_split (text_ : text) (ms : list Match) (r : Match -> text) :
  Forall (fun m => m_string m = text_ /\ group0 m <> []
                   /\ Forall (fun c => isspace c = true) (group0 m)
                   /\ r m = str " ") ms ->
  forall from f,
    tiled from f (length text_) (map m_span ms) ->
    split (splice text_ from (map (fun m => (m_span m, r m)) ms))
    = split (drop from text_).
Proof.
  induction 1 as [|m ms (Hstr & Hne & Hws & Hr) _ IH]; intros from f Ht; [done|].
  rewrite map_cons in Ht. rewrite map_cons. destruct (m_span m) as [b e] eqn:Esp.
  destruct Ht as (Hfb & Hbe & _ & Ht).
  cbn [splice]. rewrite Hr.
  change (slice text_ from b ++ str " " ++ splice text_ e (map (fun m => (m_span m, r m)) ms))
    with (slice text_ from b ++ 32%N :: splice text_ e (map (fun m => (m_span m, r m)) ms)).
  rewrite split_app_space by done. rewrite (IH e _ Ht).
  rewrite (drop_slice text_ from b Hfb), (drop_slice text_ b e Hbe).
  assert (Hg : slice text_ b e = group0 m) by (by rewrite (group0_slice m text_), Esp).
  rewrite Hg. by rewrite split_app_spaces.
Qed.

(** X15.  [self.spaces.sub(" ", text)] keeps the words of the text:
    splitting the result on whitespace gives what splitting the text
    gives. *)
Theorem spaces_sub_keeps_words (U : unicode) (text_ : text) :
  split (sub U spaces [TLit (str " ")] text_) = split text_.
Proof.
  unfold sub.
  rewrite (splice_spaces_split text_ (finditer U spaces text_)
             (expand [TLit (str " ")]) ) with (f := false).
  - done.
  - pose proof (finditer_string U spaces text_) as Hs.
    pose proof (finditer_lang U spaces text_) as Hl.
    rewrite Forall_forall in Hs, Hl. apply Forall_forall. intros m Hm.
    destruct (lang_spaces U (group0 m) (Hl m Hm)) as [Hne Hws].
    split_and!; [by apply Hs | done | done | done].
  - apply finditer_tiled.
Qed.
(** ** The shape of the tokens of some classes *)

Lemma lang_cat3 (U : unicode) (ic : bool) (a b c : regex) (x : text) :
  lang U ic (Cat a (Cat b c)) x ->
  exists s1 s2 s3, x = s1 ++ s2 ++ s3 /\ lang U ic a s1 /\ lang U ic b s2 /\ lang U ic c s3.
Proof.
  simpl. intros (s1 & s23 & -> & H1 & s2 & s3 & -> & H2 & H3). by exists s1, s2, s3.
Qed.

Lemma lang_lit_caseless (U : unicode) (ic : bool) (a : N) (x : text) :
  (ic = true -> caseless U a) -> lang U ic (Lit a) x -> x = [a].
Proof.
  simpl. intros Hc (c & -> & H). unfold chr_eq in H.
  apply orb_true_iff in H as [H | H].
  - apply N.eqb_eq in H. by subst.
  - apply andb_true_iff in H as [-> H]. apply N.eqb_eq in H. by rewrite (Hc eq_refl c H).
Qed.

Lemma lang_tag (U : unicode) (x : text) :
  caseless U 60 -> caseless U 62 ->
  lang U (ignorecase tag) (re tag) x -> exists mid, x = str "<" ++ mid ++ str ">".
Proof.
  intros H60 H62 H. apply lang_cat3 in H as (s1 & s2 & s3 & -> & H1 & _ & H3).
  apply lang_lit_caseless in H1; [|done]. apply lang_lit_caseless in H3; [|done].
  subst. by exists s2.
Qed.

Section ClassShape.
Context (U : unicode) (draws : nat -> nat) (self : Tokenizer).

(** The tokens of the class [c] have the shape [P] when each pass that
    registers tokens of the class has a pattern without named groups
    whose matches have the shape. *)
Lemma run_class_shape (fuel : nat) (sts : list stage) (c : string) (P : text -> Prop) :
  Forall (fun st => match st with
                    | Replace regex token_class =>
                        token_class = c ->
                        named_groups (re regex) = []
                        /\ forall x, lang U (ignorecase regex) (re regex) x -> P x
                    | Sub _ _ => True
                    | ReplaceAbbreviationInstances => c <> "abbreviation"%string
                    end) sts ->
  forall (text_ : text) (s : state) (text' : text) (s' : state),
    run U draws self fuel sts text_ s = Ok text' s' ->
    (forall k tok, mapping s !! k = Some tok -> token_class tok = c -> P (token tok)) ->
    forall k tok, mapping s' !! k = Some tok -> token_class tok = c -> P (token tok).
Proof.
  induction 1 as [|st sts Hst _ IH]; intros text_ s text' s' H Hin; simpl in H.
  - by injection H as <- <-.
  - apply bind_Ok in H as (text1 & s1 & H1 & H). apply (IH _ _ _ _ H). clear IH H.
    intros k tok Hk Hc.
    destruct st as [regex token_class_ | regex template |]; simpl in H1.
    + rewrite replace_regex_replace_with in H1.
      destruct (replace_with_frame draws fuel text_ token_class_ parts_of
                  (finditer U regex text_) s text1 s1
                  (finditer_tiled U regex text_) (finditer_strings U regex text_) H1)
        as (_ & Hnew & _).
      destruct (Hnew k tok Hk) as [Hold | (_ & _ & _ & m & part & Hm & Hpart & ->)];
        [by eapply Hin|].
      simpl in Hc. destruct (Hst Hc) as [Hnames Hshape]. simpl.
      pose proof (finditer_string U regex text_) as Hs.
      pose proof (finditer_lang U regex text_) as Hl.
      rewrite Forall_forall in Hs, Hl. destruct (Hs m Hm) as [_ Hn].
      rewrite Hnames in Hn. rewrite (parts_of_unnamed m Hn) in Hpart.
      apply list_elem_of_singleton in Hpart as ->. by apply Hshape, Hl.
    + injection H1 as <- <-. by eapply Hin.
    + rewrite replace_abbreviation_instances_replace_with in H1.
      destruct (replace_with_frame draws fuel text_ "abbreviation" (abbreviation_parts_of U)
                  (finditer U (abbreviation (abbreviation_list self)) text_) s text1 s1
                  (finditer_tiled U _ text_) (finditer_strings U _ text_) H1)
        as (_ & Hnew & _).
      destruct (Hnew k tok Hk) as [Hold | (_ & _ & _ & m & part & Hm & Hpart & ->)];
        [by eapply Hin|].
      simpl in Hc. by subst c.
Qed.

End ClassShape.

(** X16.  Every token of the class XML_tag that [tokenize] returns is
    a contiguous piece of the paragraph that starts with the sign < and
    ends with the sign >. *)
Theorem tokenize_xml_tags (U : unicode) (draws : nat -> nat) (self : Tokenizer)
    (fuel : nat) (paragraph : text) (s : state) (tokens : list Token) (s' : state) :
  caseless U 60 -> caseless U 62 ->
  tokenize U draws self fuel paragraph s = Ok (Classified tokens) s' ->
  Forall (fun t => token_class t = "XML_tag"%string ->
                   substring (token t) paragraph
                   /\ exists mid, token t = str "<" ++ mid ++ str ">") tokens.
Proof.
  intros H60 H62 H. apply tokenize_Ok in H as (final_text & Hrun & Hout).
  cbv zeta in Hout. destruct (token_classes self); [|done]. injection Hout as ->.
  change (stages self) with (Replace tag "XML_tag" :: tail (stages self)) in Hrun.
  cbn [run] in Hrun. apply bind_Ok in Hrun as (text1 & s1 & H1 & Hrun).
  assert (Hfirst : forall k tok, mapping s1 !! k = Some tok ->
            substring (token tok) paragraph
            /\ exists mid, token tok = str "<" ++ mid ++ str ">").
  { intros k tok Hk. cbn [run_stage] in H1. rewrite replace_regex_replace_with in H1.
    pose proof (finditer_strings U tag paragraph) as Hstr.
    destruct (replace_with_frame draws fuel paragraph "XML_tag" parts_of
                (finditer U tag paragraph) _ text1 s1
                (finditer_tiled U tag paragraph) Hstr H1) as (_ & Hnew & _).
    destruct (Hnew k tok Hk) as [Hold | (_ & _ & _ & m & part & Hm & Hpart & ->)].
    { simpl in Hold. by rewrite lookup_empty in Hold. }
    simpl. rewrite Forall_forall in Hstr. split.
    - rewrite <- (Hstr m Hm). by apply parts_of_substring.
    - pose proof (finditer_string U tag paragraph) as Hs.
      pose proof (finditer_lang U tag paragraph) as Hl.
      rewrite Forall_forall in Hs, Hl. destruct (Hs m Hm) as [_ Hn].
      rewrite (parts_of_unnamed m Hn) in Hpart.
      apply list_elem_of_singleton in Hpart as ->. by apply (lang_tag U), Hl. }
  apply run_frame in Hrun as [_ Hnew].
  apply Forall_forall. intros t Ht Hc. apply list_elem_of_fmap in Ht as (w & -> & _).
  destruct (mapping s' !! w) as [tok|] eqn:E; simpl in *; [|done].
  destruct (Hnew w tok E) as [Hold | (_ & _ & Hcl)]; [by eapply Hfirst|].
  rewrite Hc in Hcl. exfalso. clear -Hcl.
  unfold stages in Hcl. destruct (split_camel_case self); vm_compute in Hcl;
    repeat (apply elem_of_cons in Hcl as [Hcl | Hcl]; [discriminate Hcl|]);
    by apply elem_of_nil in Hcl.
Qed.

Lemma caseless_ascii_60 : caseless ascii_tables 60.
Proof.
  intros c. simpl. destruct ((65 <=? c)%N && (c <=? 90)%N) eqn:E; [|done].
  apply andb_true_iff in E as [E1 E2]. apply N.leb_le in E1, E2. lia.
Qed.

Lemma caseless_ascii_62 : caseless ascii_tables 62.
Proof.
  intros c. simpl. destruct ((65 <=? c)%N && (c <=? 90)%N) eqn:E; [|done].
  apply andb_true_iff in E as [E1 E2]. apply N.leb_le in E1, E2. lia.
Qed.

Lemma tokenize_xml_tags_witness :
  exists tokens s',
    caseless ascii_tables 60 /\ caseless ascii_tables 62
    /\ tokenize ascii_tables count_up (sample_tokenizer false true) 1
         (str "x <a href='b'> y") (State ∅ 0) = Ok (Classified tokens) s'
    /\ tokens = [MkToken (str "x") "regular"; MkToken (str "<a href='b'>") "XML_tag";
                 MkToken (str "y") "regular"]
    /\ Forall (fun t => token_class t = "XML_tag"%string ->
                        substring (token t) (str "x <a href='b'> y")
                        /\ exists mid, token t = str "<" ++ mid ++ str ">") tokens.
Proof.
  eexists _, _. split; [apply caseless_ascii_60|]. split; [apply caseless_ascii_62|].
  split; [vm_compute; reflexivity|]. split; [reflexivity|].
  eapply (tokenize_xml_tags ascii_tables count_up (sample_tokenizer false true) 1
            (str "x <a href='b'> y") (State ∅ 0)).
  - apply caseless_ascii_60.
  - apply caseless_ascii_62.
  - vm_compute. reflexivity.
Defined.

Lemma lang_word_chars (U : unicode) (x : text) :
  lang U false (plus w_) x -> x <> [] /\ Forall (fun c => is_word U c = true) x.
Proof.
  simpl. intros (pieces & -> & Hlen & Hall).
  assert (Hc : Forall (fun piece => exists c, piece = [c] /\ is_word U c = true) pieces).
  { eapply Forall_impl; [done|]. intros piece (c & -> & Hc). exists c. split; [done|].
    unfold set_has in Hc. simpl in Hc. by rewrite !orb_false_r in Hc. }
  clear Hall. split.
  - destruct pieces as [|piece pieces]; [simpl in Hlen; lia|].
    apply Forall_cons in Hc as [(c & -> & _) _]. done.
  - clear Hlen. induction Hc as [|piece pieces (c & -> & Hc) _ IH]; [constructor|].
    simpl. constructor; [done|]. apply IH.
Qed.

Lemma lang_oneof_char (U : unicode) (a : ascii) (x : text) :
  lang U false (oneof (String a EmptyString)) x -> x = [chr a].
Proof.
  simpl. intros (c & -> & H). unfold set_has in H. simpl in H.
  rewrite !orb_false_r in H. apply N.eqb_eq in H. by subst.
Qed.

Lemma lang_mention (U : unicode) (x : text) :
  lang U (ignorecase mention) (re mention) x ->
  exists name, x = str "@" ++ name /\ name <> []
               /\ Forall (fun c => is_word U c = true) name.
Proof.
  intros H. apply lang_cat3 in H as (s1 & s2 & s3 & -> & H1 & H2 & H3).
  apply lang_oneof_char in H1 as ->. apply lang_word_chars in H2 as [Hne Hw].
  simpl in H3. subst s3. rewrite app_nil_r. by exists s2.
Qed.

Lemma lang_hashtag (U : unicode) (x : text) :
  lang U (ignorecase hashtag) (re hashtag) x ->
  exists name, x = str "#" ++ name /\ name <> []
               /\ Forall (fun c => is_word U c = true) name.
Proof.
  intros H. change (re hashtag)
    with (Cat (not_behind w_) (Cat (oneof "#") (Cat (plus w_) (not_ahead w_)))) in H.
  destruct H as (s0 & s & -> & H0 & H). simpl in H0. subst s0.
  apply lang_cat3 in H as (s1 & s2 & s3 & -> & H1 & H2 & H3).
  apply lang_oneof_char in H1 as ->. apply lang_word_chars in H2 as [Hne Hw].
  simpl in H3. subst s3. rewrite app_nil_r. by exists s2.
Qed.

(** X17.  Every token of the class mention that [tokenize] returns is
    the sign @ followed by one or more word characters, and every token
    of the class hashtag is the sign # followed by one or more word
    characters. *)
Theorem tokenize_mentions_hashtags (U : unicode) (draws : nat -> nat) (self : Tokenizer)
    (fuel : nat) (paragraph : text) (s : state) (tokens : list Token) (s' : state) :
  tokenize U draws self fuel paragraph s = Ok (Classified tokens) s' ->
  Forall (fun t =>
      (token_class t = "mention"%string ->
       exists name, token t = str "@" ++ name /\ name <> []
                    /\ Forall (fun c => is_word U c = true) name)
      /\ (token_class t = "hashtag"%string ->
          exists name, token t = str "#" ++ name /\ name <> []
                       /\ Forall (fun c => is_word U c = true) name)) tokens.
Proof.
  intros H. apply tokenize_Ok in H as (final_text & Hrun & Hout).
  cbv zeta in Hout. destruct (token_classes self); [|done]. injection Hout as ->.
  assert (Hmention : forall k tok, mapping s' !! k = Some tok ->
            token_class tok = "mention"%string ->
            exists name, token tok = str "@" ++ name /\ name <> []
                         /\ Forall (fun c => is_word U c = true) name).
  { apply (fun HF Hinit => run_class_shape U draws self fuel (stages self) "mention"
                               (fun x => exists name, x = str "@" ++ name /\ name <> []
                                  /\ Forall (fun c => is_word U c = true) name)
                               HF _ _ _ _ Hrun Hinit).
    - unfold stages, abbreviation_stages. destruct (split_camel_case self); cbn [app];
        repeat (apply Forall_cons; split;
                [first [ other_class
                       | intros _; split; [reflexivity | exact (lang_mention U)] ] |]);
        apply List.Forall_nil.
    - intros k tok Hk. simpl in Hk. by rewrite lookup_empty in Hk. }
  assert (Hhashtag : forall k tok, mapping s' !! k = Some tok ->
            token_class tok = "hashtag"%string ->
            exists name, token tok = str "#" ++ name /\ name <> []
                         /\ Forall (fun c => is_word U c = true) name).
  { apply (fun HF Hinit => run_class_shape U draws self fuel (stages self) "hashtag"
                               (fun x => exists name, x = str "#" ++ name /\ name <> []
                                  /\ Forall (fun c => is_word U c = true) name)
                               HF _ _ _ _ Hrun Hinit).
    - unfold stages, abbreviation_stages. destruct (split_camel_case self); cbn [app];
        repeat (apply Forall_cons; split;
                [first [ other_class
                       | intros _; split; [reflexivity | exact (lang_hashtag U)] ] |]);
        apply List.Forall_nil.
    - intros k tok Hk. simpl in Hk. by rewrite lookup_empty in Hk. }
  apply Forall_forall. intros t Ht. apply list_elem_of_fmap in Ht as (w & -> & _).
  destruct (mapping s' !! w) as [tok|] eqn:E; simpl.
  - split; [by apply (Hmention w) | by apply (Hhashtag w)].
  - split; intros Hc; discriminate Hc.
Qed.

Lemma tokenize_mentions_hashtags_witness :
  exists tokens s',
    tokenize ascii_tables count_up (sample_tokenizer false true) 1
      (str "@bob mag #rocq") (State ∅ 0) = Ok (Classified tokens) s'
    /\ tokens = [MkToken (str "@bob") "mention"; MkToken (str "mag") "regular";
                 MkToken (str "#rocq") "hashtag"]
    /\ Forall (fun t =>
         (token_class t = "mention"%string ->
          exists name, token t = str "@" ++ name /\ name <> []
                       /\ Forall (fun c => is_word ascii_tables c = true) name)
         /\ (token_class t = "hashtag"%string ->
             exists name, token t = str "#" ++ name /\ name <> []
                          /\ Forall (fun c => is_word ascii_tables c = true) name)) tokens.
Proof.
  eexists _, _. split; [vm_compute; reflexivity|]. split; [reflexivity|].
  eapply (tokenize_mentions_hashtags ascii_tables count_up (sample_tokenizer false true) 1
            (str "@bob mag #rocq") (State ∅ 0)).
  vm_compute. reflexivity.
Defined.

(** X19.  Without [split_camel_case] the lexicon of camel-case tokens
    is not used: [tokenize] does the same whatever the entries of the
    lexicon are. *)
Theorem tokenize_without_camel_case (U : unicode) (draws : nat -> nat) (self : Tokenizer)
    (entries : list text) (fuel : nat) (paragraph : text) (s : state) :
  split_camel_case self = false ->
  tokenize U draws
    (MkTokenizer (split_camel_case self) (token_classes self)
       (tokens_with_plus_or_ampersand self) entries
       (single_token_abbreviation_list self) (abbreviation_list self))
    fuel paragraph s
  = tokenize U draws self fuel paragraph s.
Proof.
  intros Hoff. set (self' := MkTokenizer _ _ _ entries _ _).
  assert (Hstages : stages self' = stages self).
  { unfold stages, abbreviation_stages. simpl. by rewrite Hoff. }
  assert (Hrun : forall sts text_ s0,
            run U draws self' fuel sts text_ s0 = run U draws self fuel sts text_ s0).
  { induction sts as [|st sts IH]; intros text_ s0; [done|]. simpl. unfold bind.
    assert (Hst : run_stage U draws self' fuel st text_ s0
                  = run_stage U draws self fuel st text_ s0) by (by destruct st).
    rewrite Hst. destruct (run_stage _ _ _ _ _ _ _); [apply IH | done | done]. }
  unfold tokenize, bind, reset_mapping. by rewrite Hstages, Hrun.
Qed.

Lemma tokenize_without_camel_case_witness :
  split_camel_case (sample_tokenizer false true) = false
  /\ tokenize ascii_tables count_up
       (MkTokenizer (split_camel_case (sample_tokenizer false true))
          (token_classes (sample_tokenizer false true))
          (tokens_with_plus_or_ampersand (sample_tokenizer false true)) [str "eBay"]
          (single_token_abbreviation_list (sample_tokenizer false true))
          (abbreviation_list (sample_tokenizer false true)))
       1 (str "iPhone eBay") (State ∅ 0)
     = tokenize ascii_tables count_up (sample_tokenizer false true) 1 (str "iPhone eBay")
         (State ∅ 0).
Proof.
  split; [reflexivity|].
  apply (tokenize_without_camel_case ascii_tables count_up (sample_tokenizer false true)
           [str "eBay"] 1 (str "iPhone eBay") (State ∅ 0)).
  reflexivity.
Defined.
